(** * Russell DCF Framework: yield projection, Phi-hedged IRR, liquidity
      validation and the comprehensive DCF analysis

    A shallow embedding of the class [RussellDCFFramework]
    (russell-dcf-framework.js) and the properties its specification states.

    Numbers.  The JavaScript code computes on IEEE-754 doubles.  Following
    section 6 of the specification ("all numeric monetary values are
    exact-precision reals"), a number of the main embedding is an exact
    rational: rounding, overflow, NaN, the infinities and the signed zero
    of doubles are outside it, and so is a quotient by zero (on [Q] it is
    [0]).  A sum is the same sum however its additions are grouped.  Where
    the specification asserts a strict order between two values that
    differ by one multiplication, rounding decides: the lines that compute
    those values are embedded a second time on binary64 floats, in the
    module [Double].  There the strict orders fail, at the runs of the
    last section, and the weak ones ([<=]) are proved of every double,
    from the specification of the binary64 operations ([SpecFloat]); the
    weak orders are the ones proved on rationals too.  The count [years]
    of a projection is an integer, as the specification has it.

    Host functions.  [Math.pow] at a fractional exponent and the conversion
    of a number to a string have no exact counterpart on rationals; they are
    the two fields of the class [Host], and every general theorem holds for
    every host.  [toFixed] and [parseFloat] are defined on the exact value,
    step by step as ECMAScript defines them.

    Clock.  [new Date().toISOString()] is a reading of the wall clock; every
    operation takes the reading it makes as its first argument.

    State.  An engine owns its configuration, its ledger [cashFlows] and its
    [liquidityPool]; a method is a function from the engine before the call
    to a completion (a value, or a thrown error) and the engine after it. *)

From Stdlib Require Import ZArith QArith Qround Qpower Qabs Lqa Lia.
From Stdlib Require Import List String Ascii Bool.
From Stdlib Require Import DecimalString DecimalN DecimalPos.
From Stdlib Require Floats.
Import ListNotations.

Local Open Scope Q_scope.

(** ** Numbers and the host *)

Definition number := Q.

Class Host := {
  Math_pow : number -> number -> number;
  Number_toString : number -> string
}.

(** [a > b], [a >= b] and [a <= b] on numbers. *)
Definition gt (a b : number) : bool := negb (Qle_bool a b).
Definition ge (a b : number) : bool := Qle_bool b a.
Definition le (a b : number) : bool := Qle_bool a b.
Definition lt (a b : number) : bool := negb (Qle_bool b a).

(** ToBoolean on a number: zero is falsy. *)
Definition truthy (x : number) : bool := negb (Qeq_bool x 0).

(** [o || d] where [o] may be [undefined]. *)
Definition or_default (o : option number) (d : number) : number :=
  match o with
  | Some x => if truthy x then x else d
  | None => d
  end.

(** A destructuring default [{ field = d }]: it applies to [undefined] only. *)
Definition field_default {A : Type} (o : option A) (d : A) : A :=
  match o with
  | Some x => x
  | None => d
  end.

(** ** Number.prototype.toFixed *)

Definition digits (n : Z) : string :=
  NilZero.string_of_uint (N.to_uint (Z.to_N n)).

Fixpoint zeros (k : nat) : string :=
  match k with
  | O => EmptyString
  | S k' => String "0" (zeros k')
  end.

(** Steps 9, 11 and 12 of ECMAScript's definition: the sign, the integer [n]
    nearest to [x * 10^f] (the larger one on a tie), its digits padded to
    [f + 1] places, and the decimal point.  Step 10, the exponent notation
    of a value of at least 10^21, is not modelled. *)
Definition toFixed (x : number) (f : nat) : string :=
  let s := if lt x 0 then "-"%string else EmptyString in
  let x := Qabs x in
  let n := Qfloor (x * inject_Z (10 ^ Z.of_nat f) + (1 # 2)) in
  let m := digits n in
  let m :=
    if Nat.eqb f 0 then m
    else
      let k := String.length m in
      let m := if Nat.leb k f then append (zeros (f + 1 - k)) m else m in
      let k := String.length m in
      append (substring 0 (k - f) m)
             (append "." (substring (k - f) f m)) in
  append s m.

(** ** parseFloat *)

Definition digit_value (c : ascii) : option Z :=
  let n := nat_of_ascii c in
  if (Nat.leb 48 n && Nat.leb n 57)%bool then Some (Z.of_nat (n - 48)) else None.

Definition is_white_space (c : ascii) : bool :=
  let n := nat_of_ascii c in
  (Nat.eqb n 32 || (Nat.leb 9 n && Nat.leb n 13))%bool.

Fixpoint trim_start (s : string) : string :=
  match s with
  | String c s' => if is_white_space c then trim_start s' else s
  | EmptyString => s
  end.

(** The longest run of decimal digits at the head of [s], read from [acc]:
    the value, the number of digits read and the rest of the string. *)
Fixpoint read_digits (s : string) (acc : Z) (count : nat) : Z * nat * string :=
  match s with
  | String c s' =>
      match digit_value c with
      | Some d => read_digits s' (acc * 10 + d)%Z (S count)
      | None => (acc, count, s)
      end
  | EmptyString => (acc, count, s)
  end.

(** An optional sign at the head of [s], and the rest of the string. *)
Definition read_sign (s : string) : Z * string :=
  match s with
  | String "-" t => ((-1)%Z, t)
  | String "+" t => (1%Z, t)
  | _ => (1%Z, s)
  end.

(** An ExponentPart at the head of [s], when there is a complete one. *)
Definition read_exponent (s : string) : Z :=
  match s with
  | String c s' =>
      if (Ascii.eqb c "e" || Ascii.eqb c "E")%bool then
        let '(sign, s'') := read_sign s' in
        let '(e, k, _) := read_digits s'' 0 0 in
        if Nat.eqb k 0 then 0%Z else (sign * e)%Z
      else 0%Z
  | EmptyString => 0%Z
  end.

(** The longest prefix of the trimmed string that is a StrDecimalLiteral, as
    its exact value; [None] is NaN (no such prefix).  The literal
    [Infinity] has no rational value and is read as NaN. *)
Definition parseFloat (s : string) : option number :=
  let s := trim_start s in
  let '(sign, s) := read_sign s in
  let '(int_part, int_count, rest) := read_digits s 0 0 in
  let '(mantissa, frac_count, rest) :=
    match rest with
    | String "." t =>
        let '(m, k, rest') := read_digits t int_part 0 in
        if (Nat.eqb int_count 0 && Nat.eqb k 0)%bool
        then (int_part, O, rest) else (m, k, rest')
    | _ => (int_part, O, rest)
    end in
  if (Nat.eqb int_count 0 && Nat.eqb frac_count 0)%bool then None
  else
    let e := (read_exponent rest - Z.of_nat frac_count)%Z in
    Some (inject_Z (sign * mantissa) * Qpower 10 e).

(** [a > b] where [a] may be NaN: every comparison with NaN is false. *)
Definition gt_nan (a : option number) (b : number) : bool :=
  match a with
  | Some x => gt x b
  | None => false
  end.

(** ** Data model *)

Module Config.
Record t := {
  projectName : string;
  location : string;
  phiRatio : number;
  discountRate : number
}.
End Config.

(** The constructor's argument: the keys a caller overrides. *)
Module ConfigOverride.
Record t := {
  projectName : option string;
  location : option string;
  phiRatio : option number;
  discountRate : option number
}.
Definition empty : t :=
  {| projectName := None; location := None;
     phiRatio := None; discountRate := None |}.
End ConfigOverride.

Module CashFlow.
Record t := { year : Z; amount : number }.
End CashFlow.

Module Engine.
Record t := {
  config : Config.t;
  cashFlows : list CashFlow.t;
  liquidityPool : number
}.
End Engine.

Module ProjectionParams.
Record t := {
  initialInvestment : option number;
  years : option Z;
  growthRate : option number;
  occupancyRate : option number
}.
Definition empty : t :=
  {| initialInvestment := None; years := None;
     growthRate := None; occupancyRate := None |}.
End ProjectionParams.

Module YearlyProjection.
Record t := {
  year : Z;
  baseYield : number;
  adjustedYield : number;
  phiAdjustedYield : number;
  cumulativeYield : number;
  occupancyRate : number
}.
End YearlyProjection.

Module YieldProjection.
Record t := {
  projectName : string;
  initialInvestment : number;
  projectionPeriod : Z;
  yearlyProjections : list YearlyProjection.t;
  totalProjectedYield : number;
  averageAnnualYield : number;
  timestamp : string
}.
End YieldProjection.

Module RiskMetrics.
Record t := {
  sharpeRatio : string;
  sortinoRatio : string;
  volatility : string;
  downsideDeviation : string
}.
End RiskMetrics.

Module IRRAnalysis.
Record t := {
  baseIRR : string;
  phiHedgedIRR : string;
  phiRatio : number;
  hedgeFactor : number;
  riskMetrics : RiskMetrics.t;
  recommendation : string;
  timestamp : string
}.
End IRRAnalysis.

Module LiquidityParams.
Record t := {
  totalAssetValue : option number;
  currentLiquidity : option number;
  requiredLiquidityRatio : option number;
  emergencyReserveRatio : option number
}.
Definition empty : t :=
  {| totalAssetValue := None; currentLiquidity := None;
     requiredLiquidityRatio := None; emergencyReserveRatio := None |}.
End LiquidityParams.

Module Validations.
Record t := {
  sufficientLiquidity : bool;
  emergencyReserveMet : bool;
  optimalRatio : bool;
  phiAligned : bool
}.
(** [Object.values(validations)], in the order the keys were written. *)
Definition values (v : t) : list bool :=
  [sufficientLiquidity v; emergencyReserveMet v; optimalRatio v; phiAligned v].
End Validations.

Module LiquidityValidation.
Record t := {
  totalAssetValue : number;
  currentLiquidity : number;
  requiredLiquidity : number;
  emergencyReserve : number;
  actualLiquidityRatio : string;
  phiLiquidityScore : string;
  validations : Validations.t;
  status : string;
  recommendations : list string;
  timestamp : string
}.
End LiquidityValidation.

Module NPV.
Record t := {
  value : number;
  formatted : string;
  discountRate : string;
  status : string
}.
End NPV.

Module Analysis.
Record t := {
  yieldProjection : YieldProjection.t;
  irrAnalysis : IRRAnalysis.t;
  liquidityValidation : LiquidityValidation.t;
  npv : NPV.t
}.
End Analysis.

Module Assessment.
Record t := {
  investmentViability : string;
  riskLevel : string;
  phiAlignment : string
}.
End Assessment.

Module ComprehensiveDCF.
Record t := {
  projectName : string;
  location : string;
  analysis : Analysis.t;
  overallAssessment : Assessment.t;
  timestamp : string
}.
End ComprehensiveDCF.

Module DCFParams.
Record t := {
  projection : option ProjectionParams.t;
  liquidity : option LiquidityParams.t
}.
End DCFParams.

Module FrameworkState.
Record t := {
  config : Config.t;
  cashFlowCount : nat;
  liquidityPool : number;
  timestamp : string
}.
End FrameworkState.

(** ** Completions and the method monad *)

Inductive exn := Error (message : string).

Inductive completion (A : Type) :=
| Return (a : A)
| Throw (e : exn).
Arguments Return {A} a.
Arguments Throw {A} e.

(** A method body: from the engine before the call to its completion and the
    engine after it.  What a method wrote before it threw stays written. *)
Definition method (A : Type) := Engine.t -> completion A * Engine.t.

Definition ret {A} (a : A) : method A := fun this => (Return a, this).

Definition throw {A} (e : exn) : method A := fun this => (Throw e, this).

Definition bind {A B} (m : method A) (k : A -> method B) : method B :=
  fun this =>
    match m this with
    | (Return a, this') => k a this'
    | (Throw e, this') => (Throw e, this')
    end.

Definition get : method Engine.t := fun this => (Return this, this).

Definition put (e : Engine.t) : method unit := fun _ => (Return tt, e).

Notation "x <- m ;; k" := (bind m (fun x => k))
  (at level 61, m at next level, right associativity).
Notation "m ;;; k" := (bind m (fun _ => k))
  (at level 61, right associativity).

(** [array.push(x)] *)
Definition push {A : Type} (array : list A) (x : A) : list A :=
  (array ++ [x])%list.

(** ** The class RussellDCFFramework *)

Module RussellDCFFramework.

Local Open Scope string_scope.

(** [constructor(config = {})]: the defaults, overridden key by key. *)
Definition constructor (config : ConfigOverride.t) : Engine.t :=
  {| Engine.config :=
       {| Config.projectName :=
            field_default (ConfigOverride.projectName config)
                          "Tokyo Expansion - Shinjuku Tower";
          Config.location :=
            field_default (ConfigOverride.location config) "Shinjuku, Tokyo";
          Config.phiRatio :=
            field_default (ConfigOverride.phiRatio config) 1.618033988749895;
          Config.discountRate :=
            field_default (ConfigOverride.discountRate config) 0.08 |};
     Engine.cashFlows := [];
     Engine.liquidityPool := 0 |}.

(** The variables the projection loop updates: [cumulativeYield],
    [yearlyProjections] and the engine's [cashFlows]. *)
Record projection_vars := {
  cumulativeYield : number;
  yearlyProjections : list YearlyProjection.t;
  ledger : list CashFlow.t
}.

(** [for (let year = 1; year <= years; year++) body]: at most [fuel] turns. *)
Fixpoint for_year {V : Type} (fuel : nat) (year years : Z)
    (body : Z -> V -> V) (s : V) : V :=
  match fuel with
  | O => s
  | S fuel' =>
      if (year <=? years)%Z
      then for_year fuel' (year + 1)%Z years body (body year s)
      else s
  end.

Section Methods.

Context {host : Host}.

(** The body of the projection loop for one [year]. *)
Definition projection_body (phiRatio initialInvestment growthRate
    occupancyRate : number) (year : Z) (v : projection_vars)
    : projection_vars :=
  let baseYield :=
    initialInvestment * Math_pow (1 + growthRate) (inject_Z year) in
  let adjustedYield := baseYield * occupancyRate in
  let phiAdjustedYield := adjustedYield * (1 + (1 / phiRatio - 1) * 0.1) in
  let cumulativeYield := cumulativeYield v + phiAdjustedYield in
  {| cumulativeYield := cumulativeYield;
     yearlyProjections :=
       push (yearlyProjections v)
         {| YearlyProjection.year := year;
            YearlyProjection.baseYield := baseYield;
            YearlyProjection.adjustedYield := adjustedYield;
            YearlyProjection.phiAdjustedYield := phiAdjustedYield;
            YearlyProjection.cumulativeYield := cumulativeYield;
            YearlyProjection.occupancyRate := occupancyRate |};
     ledger :=
       push (ledger v)
         {| CashFlow.year := year;
            CashFlow.amount := phiAdjustedYield |} |}.

Definition calculateYieldProjection (now : string)
    (projectionParams : ProjectionParams.t) : method YieldProjection.t :=
  let initialInvestment :=
    field_default (ProjectionParams.initialInvestment projectionParams)
                  50000000 in
  let years := field_default (ProjectionParams.years projectionParams) 10%Z in
  let growthRate :=
    field_default (ProjectionParams.growthRate projectionParams) 0.12 in
  let occupancyRate :=
    field_default (ProjectionParams.occupancyRate projectionParams) 0.92 in
  this <- get ;;
  let v :=
    for_year (Z.to_nat years) 1 years
      (projection_body (Config.phiRatio (Engine.config this))
         initialInvestment growthRate occupancyRate)
      {| cumulativeYield := 0;
         yearlyProjections := [];
         ledger := Engine.cashFlows this |} in
  put {| Engine.config := Engine.config this;
         Engine.cashFlows := ledger v;
         Engine.liquidityPool := Engine.liquidityPool this |} ;;;
  ret {| YieldProjection.projectName :=
           Config.projectName (Engine.config this);
         YieldProjection.initialInvestment := initialInvestment;
         YieldProjection.projectionPeriod := years;
         YieldProjection.yearlyProjections := yearlyProjections v;
         YieldProjection.totalProjectedYield := cumulativeYield v;
         YieldProjection.averageAnnualYield :=
           cumulativeYield v / inject_Z years;
         YieldProjection.timestamp := now |}.

(** The locals of [calculatePhiHedgedIRR], as functions of what they read. *)
Definition totalCashFlow (cashFlows : list CashFlow.t) : number :=
  fold_left (fun sum cf => sum + CashFlow.amount cf) cashFlows 0.

Definition baseIRR (cashFlows : list CashFlow.t) (initialInvestment : number)
    : number :=
  let years := inject_Z (Z.of_nat (List.length cashFlows)) in
  Math_pow (totalCashFlow cashFlows / initialInvestment) (1 / years) - 1.

Definition phiHedgeFactor (config : Config.t) : number :=
  1 / Config.phiRatio config.

Definition phiHedgedIRR (config : Config.t) (cashFlows : list CashFlow.t)
    (initialInvestment : number) : number :=
  baseIRR cashFlows initialInvestment * (1 + phiHedgeFactor config * 0.15).

Definition calculatePhiHedgedIRR (now : string) (initialInvestment : number)
    : method IRRAnalysis.t :=
  this <- get ;;
  if Nat.eqb (List.length (Engine.cashFlows this)) 0 then
    throw (Error "No cash flows available. Run calculateYieldProjection first.")
  else
    let config := Engine.config this in
    let baseIRR := baseIRR (Engine.cashFlows this) initialInvestment in
    let phiHedgedIRR :=
      phiHedgedIRR config (Engine.cashFlows this) initialInvestment in
    let sharpeRatio := phiHedgedIRR / 0.15 in
    let sortinoRatio := phiHedgedIRR / 0.10 in
    ret {| IRRAnalysis.baseIRR := toFixed (baseIRR * 100) 2 ++ "%";
           IRRAnalysis.phiHedgedIRR := toFixed (phiHedgedIRR * 100) 2 ++ "%";
           IRRAnalysis.phiRatio := Config.phiRatio config;
           IRRAnalysis.hedgeFactor := phiHedgeFactor config;
           IRRAnalysis.riskMetrics :=
             {| RiskMetrics.sharpeRatio := toFixed sharpeRatio 2;
                RiskMetrics.sortinoRatio := toFixed sortinoRatio 2;
                RiskMetrics.volatility := "15%";
                RiskMetrics.downsideDeviation := "10%" |};
           IRRAnalysis.recommendation :=
             if gt phiHedgedIRR 0.12 then "Strong Buy"
             else if gt phiHedgedIRR 0.08 then "Buy" else "Hold";
           IRRAnalysis.timestamp := now |}.

Definition generateLiquidityRecommendations (validations : Validations.t)
    (current required : number) : list string :=
  let recommendations := [] in
  let recommendations :=
    if negb (Validations.sufficientLiquidity validations) then
      let deficit := required - current in
      push recommendations
        ("Increase liquidity by $" ++ toFixed (deficit / 1000000) 2
           ++ "M to meet requirements")
    else recommendations in
  let recommendations :=
    if negb (Validations.emergencyReserveMet validations) then
      push recommendations
       "Build emergency reserve to minimum 5% of total asset value"
    else recommendations in
  let recommendations :=
    if negb (Validations.optimalRatio validations) then
      if lt (current / required) 1 then
        push recommendations
         "Liquidity below optimal range - consider asset liquidation or capital raise"
      else
        push recommendations
         "Liquidity above optimal range - consider redeployment for higher returns"
    else recommendations in
  let recommendations :=
    if negb (Validations.phiAligned validations) then
      push recommendations
       "Adjust liquidity to align with Phi-hedged optimal ratio for risk balance"
    else recommendations in
  if Nat.eqb (List.length recommendations) 0 then
    push recommendations
     "All liquidity mechanisms validated - maintain current strategy"
  else recommendations.

Definition validateLiquidityMechanisms (now : string)
    (liquidityParams : LiquidityParams.t) : method LiquidityValidation.t :=
  let totalAssetValue :=
    field_default (LiquidityParams.totalAssetValue liquidityParams)
                  100000000 in
  let currentLiquidity :=
    field_default (LiquidityParams.currentLiquidity liquidityParams)
                  15000000 in
  let requiredLiquidityRatio :=
    field_default (LiquidityParams.requiredLiquidityRatio liquidityParams)
                  0.20 in
  let emergencyReserveRatio :=
    field_default (LiquidityParams.emergencyReserveRatio liquidityParams)
                  0.05 in
  this <- get ;;
  let requiredLiquidity := totalAssetValue * requiredLiquidityRatio in
  let emergencyReserve := totalAssetValue * emergencyReserveRatio in
  let actualLiquidityRatio := currentLiquidity / totalAssetValue in
  let phiLiquidityScore :=
    actualLiquidityRatio * Config.phiRatio (Engine.config this) in
  put {| Engine.config := Engine.config this;
         Engine.cashFlows := Engine.cashFlows this;
         Engine.liquidityPool := currentLiquidity |} ;;;
  let validations :=
    {| Validations.sufficientLiquidity := ge currentLiquidity requiredLiquidity;
       Validations.emergencyReserveMet := ge currentLiquidity emergencyReserve;
       Validations.optimalRatio :=
         ge actualLiquidityRatio requiredLiquidityRatio
         && le actualLiquidityRatio 0.35;
       Validations.phiAligned := ge phiLiquidityScore 0.30 |} in
  let allValidationsPassed :=
    forallb (fun v => v) (Validations.values validations) in
  ret {| LiquidityValidation.totalAssetValue := totalAssetValue;
         LiquidityValidation.currentLiquidity := currentLiquidity;
         LiquidityValidation.requiredLiquidity := requiredLiquidity;
         LiquidityValidation.emergencyReserve := emergencyReserve;
         LiquidityValidation.actualLiquidityRatio :=
           toFixed (actualLiquidityRatio * 100) 2 ++ "%";
         LiquidityValidation.phiLiquidityScore := toFixed phiLiquidityScore 4;
         LiquidityValidation.validations := validations;
         LiquidityValidation.status :=
           if allValidationsPassed then "VALIDATED" else "NEEDS_ATTENTION";
         LiquidityValidation.recommendations :=
           generateLiquidityRecommendations validations currentLiquidity
             requiredLiquidity;
         LiquidityValidation.timestamp := now |}.

(** [params.projection?.initialInvestment] *)
Definition projection_initialInvestment (params : DCFParams.t)
    : option number :=
  match DCFParams.projection params with
  | Some p => ProjectionParams.initialInvestment p
  | None => None
  end.

(** The reduction that discounts the ledger, before the investment is
    subtracted. *)
Definition discountedCashFlows (config : Config.t)
    (cashFlows : list CashFlow.t) : number :=
  fold_left
    (fun sum cf =>
       sum + CashFlow.amount cf
             / Math_pow (1 + Config.discountRate config)
                        (inject_Z (CashFlow.year cf)))
    cashFlows 0.

(** The four clock readings are those of the three calls it makes, in
    order, and its own. *)
Definition generateComprehensiveDCF
    (nowProjection nowIRR nowLiquidity now : string) (params : DCFParams.t)
    : method ComprehensiveDCF.t :=
  yieldProjection <-
    calculateYieldProjection nowProjection
      (field_default (DCFParams.projection params) ProjectionParams.empty) ;;
  irrAnalysis <-
    calculatePhiHedgedIRR nowIRR
      (or_default (projection_initialInvestment params) 50000000) ;;
  liquidityValidation <-
    validateLiquidityMechanisms nowLiquidity
      (field_default (DCFParams.liquidity params) LiquidityParams.empty) ;;
  this <- get ;;
  let config := Engine.config this in
  let npv :=
    discountedCashFlows config (Engine.cashFlows this)
    - or_default (projection_initialInvestment params) 50000000 in
  ret {| ComprehensiveDCF.projectName := Config.projectName config;
         ComprehensiveDCF.location := Config.location config;
         ComprehensiveDCF.analysis :=
           {| Analysis.yieldProjection := yieldProjection;
              Analysis.irrAnalysis := irrAnalysis;
              Analysis.liquidityValidation := liquidityValidation;
              Analysis.npv :=
                {| NPV.value := npv;
                   NPV.formatted := "$" ++ toFixed (npv / 1000000) 2 ++ "M";
                   NPV.discountRate :=
                     Number_toString (Config.discountRate config * 100)
                     ++ "%";
                   NPV.status :=
                     if gt npv 0 then "POSITIVE" else "NEGATIVE" |} |};
         ComprehensiveDCF.overallAssessment :=
           {| Assessment.investmentViability :=
                if gt npv 0
                   && String.eqb (LiquidityValidation.status liquidityValidation)
                                 "VALIDATED"
                then "VIABLE" else "REVIEW_NEEDED";
              Assessment.riskLevel :=
                if gt_nan (parseFloat (IRRAnalysis.phiHedgedIRR irrAnalysis)) 12
                then "LOW" else "MODERATE";
              Assessment.phiAlignment := "OPTIMIZED" |};
         ComprehensiveDCF.timestamp := now |}.


End Methods.

End RussellDCFFramework.

(** ** A host for evaluation

    [Math.pow] is exact at an integer exponent; at a fraction [p/q] it is the
    [q]-th root of the [p]-th power truncated to 18 decimal places, and [0]
    where the base is not positive (a double would be NaN below zero).
    A number prints with the fewest decimal places that represent it, at
    most 16. *)

Module ExactHost.

(** The largest [r] below [2^bits] with [r^k <= n], found bit by bit. *)
Fixpoint root_bits (k : positive) (n : Z) (bits : nat) (r : Z) : Z :=
  match bits with
  | O => r
  | S b =>
      let c := (r + 2 ^ Z.of_nat b)%Z in
      root_bits k n b (if (Z.pow_pos c k <=? n)%Z then c else r)
  end.

Definition root (k : positive) (n : Z) : Z :=
  root_bits k n (S (Z.to_nat (Z.log2 n))) 0.

Definition pow (x y : number) : number :=
  let y := Qred y in
  match Qden y with
  | 1%positive => Qpower x (Qnum y)
  | q =>
      let scale := (10 ^ 18)%Z in
      Qmake (root q (Qfloor (Qpower x (Qnum y) * inject_Z (Z.pow_pos scale q))))
            (Z.to_pos scale)
  end.

Fixpoint shortest_decimal (fuel f : nat) (x : number) : string :=
  match fuel with
  | O => toFixed x f
  | S fuel' =>
      if Pos.eqb (Qden (Qred (x * inject_Z (10 ^ Z.of_nat f)))) 1
      then toFixed x f
      else shortest_decimal fuel' (S f) x
  end.

Definition toString (x : number) : string := shortest_decimal 16 0 x.

#[export] Instance host : Host :=
  {| Math_pow := pow; Number_toString := toString |}.

End ExactHost.

(** ** Notions the statements use *)

Import RussellDCFFramework.

(** What a call returns, and the engine it leaves. *)
Definition outcome {A} (m : method A) (this : Engine.t) : completion A :=
  fst (m this).

Definition engine_after {A} (m : method A) (this : Engine.t) : Engine.t :=
  snd (m this).

(** The years [start, start + 1, ...] a loop of [n] turns goes through. *)
Fixpoint year_range (start : Z) (n : nat) : list Z :=
  match n with
  | O => []
  | S n' => start :: year_range (start + 1) n'
  end.

(** The ledger record a yearly projection was stored as. *)
Definition cashFlow_of (y : YearlyProjection.t) : CashFlow.t :=
  {| CashFlow.year := YearlyProjection.year y;
     CashFlow.amount := YearlyProjection.phiAdjustedYield y |}.

(** The multiplier of the phi adjustment. *)
Definition phiMultiplier (phiRatio : number) : number :=
  1 + (1 / phiRatio - 1) * 0.1.

(** The record the loop body stores for one year. *)
Definition projected {host : Host} (phiRatio initialInvestment growthRate
    occupancyRate : number) (year : Z) : CashFlow.t :=
  {| CashFlow.year := year;
     CashFlow.amount :=
       initialInvestment * Math_pow (1 + growthRate) (inject_Z year)
       * occupancyRate * phiMultiplier phiRatio |}.

(** The records one projection call appends, in order: those of the years
    1 to [years]. *)
Definition projectedRecords {host : Host} (config : Config.t)
    (projectionParams : ProjectionParams.t) : list CashFlow.t :=
  map (projected (Config.phiRatio config)
         (field_default (ProjectionParams.initialInvestment projectionParams)
                        50000000)
         (field_default (ProjectionParams.growthRate projectionParams) 0.12)
         (field_default (ProjectionParams.occupancyRate projectionParams)
                        0.92))
      (year_range 1
         (Z.to_nat (field_default (ProjectionParams.years projectionParams)
                                  10%Z))).

(** The net present value in the words of the specification: the sum over
    the records of the amount over [(1 + discountRate)] to the record's
    year, less the initial investment. *)
Fixpoint presentValue {host : Host} (discountRate : number)
    (records : list CashFlow.t) : number :=
  match records with
  | [] => 0
  | cf :: rest =>
      CashFlow.amount cf
      / Math_pow (1 + discountRate) (inject_Z (CashFlow.year cf))
      + presentValue discountRate rest
  end.

Definition specNPV {host : Host} (discountRate : number)
    (records : list CashFlow.t) (initialInvestment : number) : number :=
  presentValue discountRate records - initialInvestment.

(** A result with its clock reading replaced. *)
Definition YieldProjection_at (now : string) (r : YieldProjection.t)
    : YieldProjection.t :=
  {| YieldProjection.projectName := YieldProjection.projectName r;
     YieldProjection.initialInvestment := YieldProjection.initialInvestment r;
     YieldProjection.projectionPeriod := YieldProjection.projectionPeriod r;
     YieldProjection.yearlyProjections := YieldProjection.yearlyProjections r;
     YieldProjection.totalProjectedYield :=
       YieldProjection.totalProjectedYield r;
     YieldProjection.averageAnnualYield := YieldProjection.averageAnnualYield r;
     YieldProjection.timestamp := now |}.

Definition IRRAnalysis_at (now : string) (r : IRRAnalysis.t) : IRRAnalysis.t :=
  {| IRRAnalysis.baseIRR := IRRAnalysis.baseIRR r;
     IRRAnalysis.phiHedgedIRR := IRRAnalysis.phiHedgedIRR r;
     IRRAnalysis.phiRatio := IRRAnalysis.phiRatio r;
     IRRAnalysis.hedgeFactor := IRRAnalysis.hedgeFactor r;
     IRRAnalysis.riskMetrics := IRRAnalysis.riskMetrics r;
     IRRAnalysis.recommendation := IRRAnalysis.recommendation r;
     IRRAnalysis.timestamp := now |}.

Definition LiquidityValidation_at (now : string) (r : LiquidityValidation.t)
    : LiquidityValidation.t :=
  {| LiquidityValidation.totalAssetValue :=
       LiquidityValidation.totalAssetValue r;
     LiquidityValidation.currentLiquidity :=
       LiquidityValidation.currentLiquidity r;
     LiquidityValidation.requiredLiquidity :=
       LiquidityValidation.requiredLiquidity r;
     LiquidityValidation.emergencyReserve :=
       LiquidityValidation.emergencyReserve r;
     LiquidityValidation.actualLiquidityRatio :=
       LiquidityValidation.actualLiquidityRatio r;
     LiquidityValidation.phiLiquidityScore :=
       LiquidityValidation.phiLiquidityScore r;
     LiquidityValidation.validations := LiquidityValidation.validations r;
     LiquidityValidation.status := LiquidityValidation.status r;
     LiquidityValidation.recommendations :=
       LiquidityValidation.recommendations r;
     LiquidityValidation.timestamp := now |}.

Definition completion_map {A B} (f : A -> B) (c : completion A)
    : completion B :=
  match c with
  | Return a => Return (f a)
  | Throw e => Throw e
  end.

(** The messages of the two fixed outcomes. *)
Definition noCashFlows : exn :=
  Error "No cash flows available. Run calculateYieldProjection first.".

Definition affirmative : string :=
  "All liquidity mechanisms validated - maintain current strategy".



(** A string that does not go on with a digit. *)
Definition stops_digits (s : string) : Prop :=
  match s with
  | String c _ => digit_value c = None
  | EmptyString => True
  end.

(** The four checks of a validation all hold. *)
Definition allChecks (v : Validations.t) : Prop :=
  Validations.sufficientLiquidity v = true
  /\ Validations.emergencyReserveMet v = true
  /\ Validations.optimalRatio v = true
  /\ Validations.phiAligned v = true.

(** The status of a validation follows its four checks, and its
    recommendations are never empty and affirm exactly a validated pool. *)
Definition statusConsistent (r : LiquidityValidation.t) : Prop :=
  (LiquidityValidation.status r = "VALIDATED"%string
   <-> allChecks (LiquidityValidation.validations r))
  /\ (LiquidityValidation.status r = "NEEDS_ATTENTION"%string
      <-> ~ allChecks (LiquidityValidation.validations r))
  /\ LiquidityValidation.recommendations r <> []
  /\ (In affirmative (LiquidityValidation.recommendations r)
      <-> LiquidityValidation.status r = "VALIDATED"%string).

(** The verdict of a synthesis is VIABLE exactly when its net present value
    is positive and its liquidity is validated, and REVIEW_NEEDED when
    either fails. *)
Definition verdictFollows (r : ComprehensiveDCF.t) : Prop :=
  let npv := NPV.value (Analysis.npv (ComprehensiveDCF.analysis r)) in
  let status :=
    LiquidityValidation.status
      (Analysis.liquidityValidation (ComprehensiveDCF.analysis r)) in
  let verdict :=
    Assessment.investmentViability (ComprehensiveDCF.overallAssessment r) in
  (verdict = "VIABLE"%string <-> 0 < npv /\ status = "VALIDATED"%string)
  /\ (~ 0 < npv -> verdict = "REVIEW_NEEDED"%string)
  /\ (status <> "VALIDATED"%string -> verdict = "REVIEW_NEEDED"%string).

(** The initial investment the IRR estimation and the NPV subtraction use. *)
Definition investmentOrDefault (params : DCFParams.t) : number :=
  or_default (projection_initialInvestment params) 50000000.

(** The parameters the projection and the validation are called with. *)
Definition projectionOrEmpty (params : DCFParams.t) : ProjectionParams.t :=
  field_default (DCFParams.projection params) ProjectionParams.empty.

Definition liquidityOrEmpty (params : DCFParams.t) : LiquidityParams.t :=
  field_default (DCFParams.liquidity params) LiquidityParams.empty.

(** ** Concrete calls *)

Module Scenario.

Import ExactHost.

Definition fresh : Engine.t := constructor ConfigOverride.empty.

Definition projection (initialInvestment : number) (years : Z)
    (growthRate occupancyRate : number) : ProjectionParams.t :=
  {| ProjectionParams.initialInvestment := Some initialInvestment;
     ProjectionParams.years := Some years;
     ProjectionParams.growthRate := Some growthRate;
     ProjectionParams.occupancyRate := Some occupancyRate |}.

Definition liquidity (totalAssetValue currentLiquidity : number)
    : LiquidityParams.t :=
  {| LiquidityParams.totalAssetValue := Some totalAssetValue;
     LiquidityParams.currentLiquidity := Some currentLiquidity;
     LiquidityParams.requiredLiquidityRatio := Some 0.20;
     LiquidityParams.emergencyReserveRatio := Some 0.05 |}.

(** Two readings of the clock, one millisecond apart. *)
Definition t0 : string := "2025-01-01T00:00:00.000Z".
Definition t1 : string := "2025-01-01T00:00:00.001Z".

(** Scenario 1 of the specification: ten years at 12% and 92%. *)
Definition tenYears : ProjectionParams.t := projection 50000000 10 0.12 0.92.

Definition afterTenYears : Engine.t :=
  engine_after (calculateYieldProjection t0 tenYears) fresh.

(** Scenarios 2 and 3: a pool of 25 and of 10 million on 100 million. *)
Definition ample : LiquidityParams.t := liquidity 100000000 25000000.
Definition short : LiquidityParams.t := liquidity 100000000 10000000.

(** Scenario 4: five years at 15% and 95%, a pool of 30 million. *)
Definition fiveYears : DCFParams.t :=
  {| DCFParams.projection := Some (projection 50000000 5 0.15 0.95);
     DCFParams.liquidity :=
       Some {| LiquidityParams.totalAssetValue := Some 100000000;
               LiquidityParams.currentLiquidity := Some 30000000;
               LiquidityParams.requiredLiquidityRatio := None;
               LiquidityParams.emergencyReserveRatio := None |} |}.

(** One year at 15.392%, fully occupied: the hedged rate is just above
    12%. *)
Definition justAboveTwelve : DCFParams.t :=
  {| DCFParams.projection := Some (projection 50000000 1 0.15392 1);
     DCFParams.liquidity := None |}.


End Scenario.

(** ** The class Harlem4KARRender

    The engagement subsystem that the main script runs beside the DCF
    engine.  [Math.random()] and [crypto.randomUUID()] are readings of the
    host, passed to the call that makes them.  [engageArchitects] is
    declared [async] but awaits nothing: its body runs at the call, and the
    value here is the one its promise holds.  The [metrics] it returns is
    the engine's own metrics object; it is modelled by its content at the
    return. *)

Module ARConfig.
Record t := {
  targetAudience : number;
  resolution : string;
  renderEngine : string;
  zakatFlowEnabled : bool
}.
End ARConfig.

Module ARConfigOverride.
Record t := {
  targetAudience : option number;
  resolution : option string;
  renderEngine : option string;
  zakatFlowEnabled : option bool
}.
Definition empty : t :=
  {| targetAudience := None; resolution := None;
     renderEngine := None; zakatFlowEnabled := None |}.
End ARConfigOverride.

Module EngagementMetrics.
Record t := {
  totalReach : number;
  activeUsers : number;
  zakatContributions : number
}.
End EngagementMetrics.

Module Renderer.
Record t := {
  config : ARConfig.t;
  engagementMetrics : EngagementMetrics.t
}.
End Renderer.

Module Beneficiaries.
Record t := {
  community : number;
  education : number;
  infrastructure : number;
  emergency : number
}.
End Beneficiaries.

Module Distribution.
Record t := {
  mainAmount : number;
  zakatAmount : number;
  beneficiaries : Beneficiaries.t
}.
End Distribution.

Module ZakatFlow.
Record t := {
  total : number;
  distribution : Distribution.t;
  zakatRate : number;
  timestamp : string
}.
End ZakatFlow.

Module Project.
Record t := {
  id : option string;
  name : option string
}.
End Project.

Module Engagement.
Record t := {
  projectId : string;
  projectName : option string;
  architectsReached : number;
  interactionRate : number;
  renderQuality : string;
  geminiEnhancement : bool
}.
End Engagement.

Module Progress.
Record t := {
  current : number;
  target : number;
  percentage : string
}.
End Progress.

Module EngagementResult.
Record t := {
  engagement : Engagement.t;
  metrics : EngagementMetrics.t;
  progress : Progress.t;
  zakatIntegrated : bool
}.
End EngagementResult.

Module RenderMetrics.
Record t := {
  totalReach : number;
  activeUsers : number;
  zakatContributions : number;
  targetAudience : number;
  completion : string
}.
End RenderMetrics.

(** [Math.min] and [Math.floor] on numbers. *)
Definition Math_min (a b : number) : number := if le a b then a else b.

Definition Math_floor (x : number) : number := inject_Z (Qfloor x).

(** [s || d] on a string that may be [undefined]: the empty string is
    falsy. *)
Definition string_or_default (o : option string) (d : string) : string :=
  match o with
  | Some EmptyString => d
  | Some s => s
  | None => d
  end.

Module Harlem4KARRender.

Local Open Scope string_scope.

Definition constructor (config : ARConfigOverride.t) : Renderer.t :=
  {| Renderer.config :=
       {| ARConfig.targetAudience :=
            field_default (ARConfigOverride.targetAudience config) 38000000;
          ARConfig.resolution :=
            field_default (ARConfigOverride.resolution config) "4K";
          ARConfig.renderEngine :=
            field_default (ARConfigOverride.renderEngine config) "Gemini-AI";
          ARConfig.zakatFlowEnabled :=
            field_default (ARConfigOverride.zakatFlowEnabled config) true |};
     Renderer.engagementMetrics :=
       {| EngagementMetrics.totalReach := 0;
          EngagementMetrics.activeUsers := 0;
          EngagementMetrics.zakatContributions := 0 |} |}.

Definition calculateZakatFlow (now : string) (transactionAmount : number)
    (this : Renderer.t) : ZakatFlow.t * Renderer.t :=
  let zakatRate := 0.025 in
  let zakatAmount := transactionAmount * zakatRate in
  let distribution :=
    {| Distribution.mainAmount := transactionAmount - zakatAmount;
       Distribution.zakatAmount := zakatAmount;
       Distribution.beneficiaries :=
         {| Beneficiaries.community := zakatAmount * 0.4;
            Beneficiaries.education := zakatAmount * 0.3;
            Beneficiaries.infrastructure := zakatAmount * 0.2;
            Beneficiaries.emergency := zakatAmount * 0.1 |} |} in
  let metrics := Renderer.engagementMetrics this in
  let this :=
    {| Renderer.config := Renderer.config this;
       Renderer.engagementMetrics :=
         {| EngagementMetrics.totalReach := EngagementMetrics.totalReach metrics;
            EngagementMetrics.activeUsers :=
              EngagementMetrics.activeUsers metrics;
            EngagementMetrics.zakatContributions :=
              EngagementMetrics.zakatContributions metrics + zakatAmount |} |}
  in
  ({| ZakatFlow.total := transactionAmount;
      ZakatFlow.distribution := distribution;
      ZakatFlow.zakatRate := zakatRate;
      ZakatFlow.timestamp := now |},
   this).

Definition engageArchitects (random : number) (randomUUID : string)
    (project : Project.t) (this : Renderer.t)
    : EngagementResult.t * Renderer.t :=
  let engagement :=
    {| Engagement.projectId := string_or_default (Project.id project) randomUUID;
       Engagement.projectName := Project.name project;
       Engagement.architectsReached := Math_floor (random * 1000) + 500;
       Engagement.interactionRate := 0.75;
       Engagement.renderQuality := "4K-HDR";
       Engagement.geminiEnhancement := true |} in
  let metrics := Renderer.engagementMetrics this in
  let totalReach :=
    EngagementMetrics.totalReach metrics
    + Engagement.architectsReached engagement in
  let activeUsers :=
    Math_min totalReach (ARConfig.targetAudience (Renderer.config this)) in
  let metrics :=
    {| EngagementMetrics.totalReach := totalReach;
       EngagementMetrics.activeUsers := activeUsers;
       EngagementMetrics.zakatContributions :=
         EngagementMetrics.zakatContributions metrics |} in
  let this :=
    {| Renderer.config := Renderer.config this;
       Renderer.engagementMetrics := metrics |} in
  let progressPercentage :=
    activeUsers / ARConfig.targetAudience (Renderer.config this) * 100 in
  ({| EngagementResult.engagement := engagement;
      EngagementResult.metrics := metrics;
      EngagementResult.progress :=
        {| Progress.current := activeUsers;
           Progress.target := ARConfig.targetAudience (Renderer.config this);
           Progress.percentage := toFixed progressPercentage 2 |};
      EngagementResult.zakatIntegrated :=
        ARConfig.zakatFlowEnabled (Renderer.config this) |},
   this).

Definition getMetrics (this : Renderer.t) : RenderMetrics.t :=
  let metrics := Renderer.engagementMetrics this in
  let targetAudience := ARConfig.targetAudience (Renderer.config this) in
  {| RenderMetrics.totalReach := EngagementMetrics.totalReach metrics;
     RenderMetrics.activeUsers := EngagementMetrics.activeUsers metrics;
     RenderMetrics.zakatContributions :=
       EngagementMetrics.zakatContributions metrics;
     RenderMetrics.targetAudience := targetAudience;
     RenderMetrics.completion :=
       toFixed (EngagementMetrics.activeUsers metrics / targetAudience * 100) 2
       ++ "%" |}.

End Harlem4KARRender.

(** ** Further notions *)

(** The sum of the phi-adjusted yields of a yearly breakdown, from [acc]. *)
Definition sumPhiAdjusted (acc : number) (ys : list YearlyProjection.t)
    : number :=
  fold_left (fun sum y => sum + YearlyProjection.phiAdjustedYield y) ys acc.

(** Every [cumulativeYield] is the sum of the phi-adjusted yields up to and
    including its own year, counted from [acc]. *)
Fixpoint runningTotals (acc : number) (ys : list YearlyProjection.t) : Prop :=
  match ys with
  | [] => True
  | y :: rest =>
      YearlyProjection.cumulativeYield y
      = acc + YearlyProjection.phiAdjustedYield y
      /\ runningTotals (acc + YearlyProjection.phiAdjustedYield y) rest
  end.

(** The number of years a projection call is asked for. *)
Definition requestedYears (projectionParams : ProjectionParams.t) : Z :=
  field_default (ProjectionParams.years projectionParams) 10%Z.

(** The number of checks of a validation that failed. *)
Definition failingChecks (v : Validations.t) : nat :=
  List.length (filter negb (Validations.values v)).

(** The two messages about the optimal range. *)
Definition belowOptimal : string :=
  "Liquidity below optimal range - consider asset liquidation or capital raise".

Definition aboveOptimal : string :=
  "Liquidity above optimal range - consider redeployment for higher returns".

(** The rate the hedge multiplies the base rate by. *)
Definition hedgeMultiplier (config : Config.t) : number :=
  1 + phiHedgeFactor config * 0.15.

(** Zakat flows for a list of transactions, one call after the other. *)
Definition zakatFlows (now : string) (amounts : list number)
    (this : Renderer.t) : Renderer.t :=
  fold_left
    (fun this amount =>
       snd (Harlem4KARRender.calculateZakatFlow now amount this))
    amounts this.

(** The Zakat amounts of a list of transactions, added to [acc] one after
    the other. *)
Definition accumulatedZakat (acc : number) (amounts : list number) : number :=
  fold_left (fun sum amount => sum + amount * 0.025) amounts acc.

(** The two engines share their configuration and their ledger; their
    liquidity pools may differ. *)
Definition sameLedger (this this' : Engine.t) : Prop :=
  Engine.config this = Engine.config this'
  /\ Engine.cashFlows this = Engine.cashFlows this'.

(** The yearly record the loop body stores for one year, but for its
    [cumulativeYield]. *)
Definition yearOf {host : Host} (phiRatio initialInvestment growthRate
    occupancyRate : number) (y : YearlyProjection.t) : Prop :=
  let baseYield :=
    initialInvestment
    * Math_pow (1 + growthRate) (inject_Z (YearlyProjection.year y)) in
  YearlyProjection.baseYield y = baseYield
  /\ YearlyProjection.adjustedYield y = baseYield * occupancyRate
  /\ YearlyProjection.phiAdjustedYield y
     = YearlyProjection.adjustedYield y * (1 + (1 / phiRatio - 1) * 0.1)
  /\ YearlyProjection.occupancyRate y = occupancyRate.

(** ** Further concrete calls *)

Module Reuse.

Import ExactHost Scenario.

(** The engine a first synthesis of scenario 4 leaves. *)
Definition afterFiveYears : Engine.t :=
  engine_after (generateComprehensiveDCF t0 t0 t0 t1 fiveYears) fresh.

(** A projection that asks for no year. *)
Definition noYears : ProjectionParams.t := projection 50000000 0 0.12 0.92.

(** A new engine whose [phiRatio] is 2. *)
Definition freshAtTwo : Engine.t :=
  constructor
    {| ConfigOverride.projectName := None;
       ConfigOverride.location := None;
       ConfigOverride.phiRatio := Some 2;
       ConfigOverride.discountRate := None |}.

(** Five more years on a ledger that holds records already. *)
Definition fiveMore : ProjectionParams.t := projection 50000000 5 0.15 0.95.

(** A pool above the optimal range: 40 million on 100 million. *)
Definition idle : LiquidityParams.t := liquidity 100000000 40000000.

Definition renderer : Renderer.t :=
  Harlem4KARRender.constructor ARConfigOverride.empty.

Definition culturalCenter : Project.t :=
  {| Project.id := Some "harlem-cultural-center"%string;
     Project.name := Some "Harlem Cultural Center"%string |}.

(** The engine of scenario 1 after a validation of the ample pool: the
    ledger of [afterTenYears], and a pool of 25 million. *)
Definition afterTenYearsValidated : Engine.t :=
  engine_after (validateLiquidityMechanisms t0 ample) afterTenYears.


End Reuse.

(** ** The yields and the rates on binary64

    The loop of [calculateYieldProjection] and the two rates of
    [calculatePhiHedgedIRR] once more, operation for operation, on
    IEEE-754 binary64 with rounding to nearest, ties to even: the numbers
    the JavaScript code computes on. *)

Module Double.

Import Stdlib.Floats.Floats.

Local Open Scope float_scope.

#[local] Set Warnings "-inexact-float".

Module YearlyProjection.
Record t := {
  year : float;
  baseYield : float;
  adjustedYield : float;
  phiAdjustedYield : float;
  cumulativeYield : float;
  occupancyRate : float
}.
End YearlyProjection.

Module CashFlow.
Record t := {
  year : float;
  amount : float
}.
End CashFlow.

(** The variables the projection loop updates. *)
Record projection_vars := {
  cumulativeYield : float;
  yearlyProjections : list YearlyProjection.t;
  ledger : list CashFlow.t
}.

(** [for (let year = 1; year <= years; year++) body]: [None] when the loop
    has not ended after [fuel] turns. *)
Fixpoint for_year {V : Type} (fuel : nat) (year years : float)
    (body : float -> V -> V) (s : V) : option V :=
  if year <=? years then
    match fuel with
    | O => None
    | S fuel' => for_year fuel' (year + 1) years body (body year s)
    end
  else Some s.

(** The whole part of a positive finite [years]: the turns a loop from 1 to
    [years] takes. *)
Definition turns (years : float) : nat :=
  match Prim2SF years with
  | S754_finite false m e => Z.to_nat (Z.shiftl (Zpos m) e)
  | _ => O
  end.

Section Host.

(** [Math.pow], which ECMAScript leaves to the implementation. *)
Variable Math_pow : float -> float -> float.

Definition projection_body (phiRatio initialInvestment growthRate
    occupancyRate : float) (year : float) (v : projection_vars)
    : projection_vars :=
  let baseYield := initialInvestment * Math_pow (1 + growthRate) year in
  let adjustedYield := baseYield * occupancyRate in
  let phiAdjustedYield := adjustedYield * (1 + (1 / phiRatio - 1) * 0.1) in
  let cumulativeYield := cumulativeYield v + phiAdjustedYield in
  {| cumulativeYield := cumulativeYield;
     yearlyProjections :=
       push (yearlyProjections v)
         {| YearlyProjection.year := year;
            YearlyProjection.baseYield := baseYield;
            YearlyProjection.adjustedYield := adjustedYield;
            YearlyProjection.phiAdjustedYield := phiAdjustedYield;
            YearlyProjection.cumulativeYield := cumulativeYield;
            YearlyProjection.occupancyRate := occupancyRate |};
     ledger :=
       push (ledger v)
         {| CashFlow.year := year;
            CashFlow.amount := phiAdjustedYield |} |}.

(** The loop of [calculateYieldProjection] on an engine whose configuration
    has this [phiRatio] and whose ledger is [cashFlows]. *)
Definition calculateYieldProjection (phiRatio : float)
    (cashFlows : list CashFlow.t)
    (initialInvestment years growthRate occupancyRate : float)
    : option projection_vars :=
  for_year (turns years) 1 years
    (projection_body phiRatio initialInvestment growthRate occupancyRate)
    {| cumulativeYield := 0;
       yearlyProjections := [];
       ledger := cashFlows |}.

(** The locals of [calculatePhiHedgedIRR]. *)
Definition totalCashFlow (cashFlows : list CashFlow.t) : float :=
  fold_left (fun sum cf => sum + CashFlow.amount cf) cashFlows 0.

(** [cashFlows.length], as a number. *)
Definition length (cashFlows : list CashFlow.t) : float :=
  fold_left (fun n _ => n + 1) cashFlows 0.

Definition baseIRR (cashFlows : list CashFlow.t) (initialInvestment : float)
    : float :=
  let years := length cashFlows in
  Math_pow (totalCashFlow cashFlows / initialInvestment) (1 / years) - 1.

Definition phiHedgeFactor (phiRatio : float) : float := 1 / phiRatio.

Definition phiHedgedIRR (phiRatio : float) (cashFlows : list CashFlow.t)
    (initialInvestment : float) : float :=
  baseIRR cashFlows initialInvestment * (1 + phiHedgeFactor phiRatio * 0.15).

End Host.

(** A [Math.pow] for the runs: at the exponent 1 the power is the base
    itself; no other power is called for there, and they are NaN here. *)
Definition power (x y : float) : float := if y =? 1 then x else nan.

(** A ledger of one record of 75 million, and two configurations: a
    [phiRatio] of ten quadrillion, and the double next above 1. *)
Definition oneRecord : list CashFlow.t :=
  [{| CashFlow.year := 1; CashFlow.amount := 75000000 |}].

Definition wide : float := 1e16.

Definition nextAboveOne : float := 1.0000000000000002.

End Double.

(** ** Rounding to nearest: the notions

    A finite double is a mantissa at an exponent; the operations of
    binary64 compute the exact result on such pairs and round it
    ([SpecFloat], which the primitive floats are specified by).  The
    notions below say what rounding answers, in terms of exact values. *)

Module Binary64.

Import Stdlib.Floats.Floats.

Local Open Scope Q_scope.

(** Powers of two, and the value of a mantissa at an exponent. *)
Definition pow2 (e : Z) : Q := 2 ^ e.

Definition val (m e : Z) : Q := inject_Z m * pow2 e.

(** The bits shifted out so far were not all zero. *)
Definition inexact (mrs : shr_record) : bool := shr_r mrs || shr_s mrs.

(** What [binary_round_aux] answers, as a double: the mantissa [m1] at the
    exponent [e'], where [m1] may have reached [2^53] (it is then [2^52]
    at the next exponent) and the exponent may be above the largest (the
    answer is then infinite). *)
Definition rounded (sx : bool) (m1 e' : Z) : spec_float :=
  if (m1 =? 0)%Z then S754_zero sx
  else if (m1 =? 2 ^ 53)%Z then
         if (e' + 1 <=? 971)%Z
         then S754_finite sx (2 ^ 52)%positive (e' + 1)
         else S754_infinity sx
       else
         if (e' <=? 971)%Z
         then S754_finite sx (Z.to_pos m1) e'
         else S754_infinity sx.

(** A double that is zero or above. *)
Definition nonnegative (r : spec_float) : Prop :=
  r = S754_zero false
  \/ (exists m e, r = S754_finite false m e)
  \/ r = S754_infinity false.

(** [m1] at [e'] is [V] rounded: [V] lies between [m'] and [m' + 1] at
    [e'], and [m1] is one of the two, [m'] when [V] is its value.  The
    exponent [e'] is the least of binary64, or [m'] has 53 digits. *)
Definition rounds (m' e' m1 : Z) (V : Q) : Prop :=
  (-1074 <= e')%Z
  /\ val m' e' <= V /\ V < val (m' + 1) e'
  /\ (m1 = m' \/ (m1 = (m' + 1)%Z /\ val m' e' < V))
  /\ (0 <= m' < 2 ^ 53)%Z
  /\ ((-1074 < e')%Z -> (2 ^ 52 <= m')%Z).

(** The signed value of a finite double. *)
Definition sval (s : bool) (m : positive) (e : Z) : Q :=
  if s then - val (Z.pos m) e else val (Z.pos m) e.

(** A zero, or a finite double of sign [s] and of magnitude at most [B]. *)
Definition within (B : Q) (s : bool) (x : spec_float) : Prop :=
  (exists s', x = S754_zero s')
  \/ exists m e, x = S754_finite s m e /\ val (Z.pos m) e <= B.

(** The double [x] is the whole number [k]. *)
Definition whole (x : float) (k : Z) : Prop :=
  exists m e, Prim2SF x = S754_finite false m e
              /\ val (Z.pos m) e == inject_Z k.

End Binary64.

(** * Properties *)

Section Properties.

Context {host : Host}.

(** ** The projection loop *)

(** With fuel for every year up to [years], the loop is the fold of its
    body over those years: it has ended, not run out of fuel. *)
Lemma for_year_fold {V : Type} (body : Z -> V -> V) :
  forall (fuel : nat) (year years : Z) (s : V),
    (years + 1 - year <= Z.of_nat fuel)%Z ->
    for_year fuel year years body s
    = fold_left (fun s y => body y s)
        (year_range year (Z.to_nat (years + 1 - year))) s.
Proof.
  induction fuel as [|fuel IH]; intros year years s Hfuel.
  - replace (Z.to_nat (years + 1 - year)) with O by lia. reflexivity.
  - simpl. destruct (year <=? years)%Z eqn:Hle.
    + apply Z.leb_le in Hle.
      replace (Z.to_nat (years + 1 - year))
        with (S (Z.to_nat (years + 1 - (year + 1)))) by lia.
      simpl. apply IH. lia.
    + apply Z.leb_gt in Hle.
      replace (Z.to_nat (years + 1 - year)) with O by lia. reflexivity.
Qed.

(** More fuel than the years need changes nothing. *)
Lemma for_year_enough_fuel {V : Type} (body : Z -> V -> V) :
  forall (fuel fuel' : nat) (year years : Z) (s : V),
    (years + 1 - year <= Z.of_nat fuel)%Z ->
    (fuel <= fuel')%nat ->
    for_year fuel' year years body s = for_year fuel year years body s.
Proof.
  intros fuel fuel' year years s Hfuel Hle.
  rewrite (for_year_fold body fuel) by assumption.
  apply for_year_fold. lia.
Qed.

Lemma year_range_length : forall n start, List.length (year_range start n) = n.
Proof.
  induction n as [|n IH]; intros start; simpl; [reflexivity|].
  now rewrite IH.
Qed.

Lemma year_range_bounds : forall n start y,
  In y (year_range start n) -> (start <= y < start + Z.of_nat n)%Z.
Proof.
  induction n as [|n IH]; intros start y Hin; simpl in Hin; [contradiction|].
  destruct Hin as [<- | Hin]; [lia|].
  apply IH in Hin. lia.
Qed.

Section Body.

Variables phiRatio initialInvestment growthRate occupancyRate : number.

Let body := projection_body phiRatio initialInvestment growthRate occupancyRate.

Let stored := projected phiRatio initialInvestment growthRate occupancyRate.

Lemma body_ledger : forall years v,
  ledger (fold_left (fun s y => body y s) years v)
  = (ledger v ++ map stored years)%list.
Proof.
  induction years as [|y years IH]; intros v; simpl.
  - now rewrite app_nil_r.
  - rewrite IH. unfold body, stored, projected, projection_body, push.
    simpl. now rewrite <- app_assoc.
Qed.

Lemma body_yearlyProjections : forall years v,
  map cashFlow_of (yearlyProjections (fold_left (fun s y => body y s) years v))
  = (map cashFlow_of (yearlyProjections v) ++ map stored years)%list.
Proof.
  induction years as [|y years IH]; intros v; simpl.
  - now rewrite app_nil_r.
  - rewrite IH. unfold body, stored, projected, projection_body, push.
    simpl. rewrite map_app, <- app_assoc. reflexivity.
Qed.

(** A property of every record the body pushes holds of every yearly
    projection of the loop. *)
Lemma body_Forall (P : YearlyProjection.t -> Prop) :
  (forall y v, Forall P (yearlyProjections v) ->
               Forall P (yearlyProjections (body y v))) ->
  forall years v,
    Forall P (yearlyProjections v) ->
    Forall P (yearlyProjections (fold_left (fun s y => body y s) years v)).
Proof.
  intros Hstep. induction years as [|y years IH]; intros v Hv; simpl; auto.
Qed.

End Body.

(** ** calculateYieldProjection *)

Section Projection.

Variables (now : string) (projectionParams : ProjectionParams.t)
  (this : Engine.t).

Let appended := projectedRecords (Engine.config this) projectionParams.

Lemma calculateYieldProjection_ledger :
  Engine.cashFlows
    (engine_after (calculateYieldProjection now projectionParams) this)
  = (Engine.cashFlows this ++ appended)%list.
Proof.
  unfold engine_after, calculateYieldProjection, bind, get, put, ret. simpl.
  rewrite for_year_fold by lia. rewrite body_ledger. simpl.
  unfold appended, projectedRecords.
  now replace (_ + 1 - 1)%Z with
    (field_default (ProjectionParams.years projectionParams) 10%Z) by lia.
Qed.

Lemma calculateYieldProjection_frame :
  let this' :=
    engine_after (calculateYieldProjection now projectionParams) this in
  Engine.config this' = Engine.config this
  /\ Engine.liquidityPool this' = Engine.liquidityPool this.
Proof. split; reflexivity. Qed.

(** The call always returns; what it returns lists the appended records. *)
Lemma calculateYieldProjection_returns :
  exists r,
    outcome (calculateYieldProjection now projectionParams) this = Return r
    /\ YieldProjection.initialInvestment r
       = field_default (ProjectionParams.initialInvestment projectionParams)
                       50000000
    /\ YieldProjection.projectionPeriod r
       = field_default (ProjectionParams.years projectionParams) 10%Z
    /\ map cashFlow_of (YieldProjection.yearlyProjections r) = appended.
Proof.
  unfold outcome, calculateYieldProjection, bind, get, put, ret. simpl.
  eexists. split; [reflexivity|]. simpl. repeat split.
  rewrite for_year_fold by lia. rewrite body_yearlyProjections. simpl.
  unfold appended, projectedRecords.
  now replace (_ + 1 - 1)%Z with
    (field_default (ProjectionParams.years projectionParams) 10%Z) by lia.
Qed.

Lemma projectedRecords_length :
  List.length appended
  = Z.to_nat (field_default (ProjectionParams.years projectionParams) 10%Z).
Proof.
  unfold appended, projectedRecords.
  now rewrite length_map, year_range_length.
Qed.

(** The appended records are those of the years 1 to [years], in order. *)
Lemma projectedRecords_years :
  map CashFlow.year appended
  = year_range 1
      (Z.to_nat (field_default (ProjectionParams.years projectionParams)
                               10%Z)).
Proof.
  unfold appended, projectedRecords. rewrite map_map. simpl. apply map_id.
Qed.

End Projection.

(** C7.  A call [calculateYieldProjection] with [years = N], [N] a positive
    integer, appends exactly [N] records (those of the years 1 to [N]) after
    the records the ledger held, which stay as they were; and on a new
    engine, a call with [years = 5] followed by one with [years = 3] leaves a
    ledger of 8 records. *)
Theorem project_appends_years_records :
  (forall now projectionParams this N,
     ProjectionParams.years projectionParams = Some N ->
     (0 < N)%Z ->
     exists appended,
       Engine.cashFlows
         (engine_after (calculateYieldProjection now projectionParams) this)
       = (Engine.cashFlows this ++ appended)%list
       /\ Z.of_nat (List.length appended) = N
       /\ map CashFlow.year appended = year_range 1 (Z.to_nat N))
  /\ (forall now5 now3 five three config,
        ProjectionParams.years five = Some 5%Z ->
        ProjectionParams.years three = Some 3%Z ->
        List.length
          (Engine.cashFlows
             (engine_after (calculateYieldProjection now3 three)
                (engine_after (calculateYieldProjection now5 five)
                   (constructor config))))
        = 8%nat).
Proof.
  split.
  - intros now pp this N Hyears HN. eexists. split.
    + apply calculateYieldProjection_ledger.
    + rewrite projectedRecords_length, projectedRecords_years, Hyears.
      simpl. split; [lia | reflexivity].
  - intros now5 now3 five three config H5 H3.
    rewrite !calculateYieldProjection_ledger, !length_app,
      !projectedRecords_length.
    rewrite H5, H3. reflexivity.
Qed.

(** ** calculatePhiHedgedIRR *)

Lemma calculatePhiHedgedIRR_empty now initialInvestment this :
  Engine.cashFlows this = [] ->
  calculatePhiHedgedIRR now initialInvestment this = (Throw noCashFlows, this).
Proof.
  intros Hempty. unfold calculatePhiHedgedIRR, bind, get, throw.
  now rewrite Hempty.
Qed.

(** On a ledger that holds a record the call returns, and what it returns
    is made of the locals [baseIRR] and [phiHedgedIRR]. *)
Lemma calculatePhiHedgedIRR_nonempty now initialInvestment this :
  Engine.cashFlows this <> [] ->
  exists r,
    calculatePhiHedgedIRR now initialInvestment this = (Return r, this)
    /\ IRRAnalysis.phiHedgedIRR r
       = (toFixed
            (phiHedgedIRR (Engine.config this) (Engine.cashFlows this)
               initialInvestment * 100) 2 ++ "%")%string
    /\ IRRAnalysis.baseIRR r
       = (toFixed
            (baseIRR (Engine.cashFlows this) initialInvestment * 100) 2
          ++ "%")%string
    /\ IRRAnalysis.recommendation r
       = (if gt (phiHedgedIRR (Engine.config this) (Engine.cashFlows this)
                   initialInvestment) 0.12
          then "Strong Buy"
          else if gt (phiHedgedIRR (Engine.config this)
                        (Engine.cashFlows this) initialInvestment) 0.08
               then "Buy" else "Hold")%string.
Proof.
  intros Hne. unfold calculatePhiHedgedIRR, bind, get, ret.
  destruct (Engine.cashFlows this) as [|cf rest] eqn:Hledger;
    [contradiction|].
  simpl. eexists. split; [reflexivity|]. simpl. repeat split.
Qed.

(** C4.  [calculatePhiHedgedIRR] throws the error that names the missing
    projection if and only if the ledger is empty: on a new engine it always
    throws it, and on a ledger that holds a record it returns.  The call
    leaves the engine as it was. *)
Theorem irr_throws_iff_ledger_empty :
  forall now initialInvestment this,
    (Engine.cashFlows this = []
     <-> outcome (calculatePhiHedgedIRR now initialInvestment) this
         = Throw noCashFlows)
    /\ (Engine.cashFlows this <> []
        <-> exists r,
              outcome (calculatePhiHedgedIRR now initialInvestment) this
              = Return r)
    /\ engine_after (calculatePhiHedgedIRR now initialInvestment) this = this
    /\ (forall config,
          outcome (calculatePhiHedgedIRR now initialInvestment)
                  (constructor config)
          = Throw noCashFlows).
Proof.
  intros now inv this. unfold outcome, engine_after.
  destruct (Engine.cashFlows this) as [|cf rest] eqn:Hledger.
  - rewrite (calculatePhiHedgedIRR_empty now inv this Hledger). simpl.
    split; [tauto|]. split; [|split; [reflexivity|]].
    + split; [congruence|]. intros [r Hr]. discriminate Hr.
    + intros config. reflexivity.
  - destruct (calculatePhiHedgedIRR_nonempty now inv this) as (r & Hr & _).
    { rewrite Hledger. discriminate. }
    rewrite Hr. simpl.
    split; [split; discriminate|]. split; [|split; [reflexivity|]].
    + split; [now exists r | discriminate].
    + intros config. reflexivity.
Qed.

(** ** validateLiquidityMechanisms *)

Lemma gt_iff a b : gt a b = true <-> b < a.
Proof.
  unfold gt. rewrite negb_true_iff, <- not_true_iff_false, Qle_bool_iff.
  split; [apply Qnot_le_lt | apply Qlt_not_le].
Qed.

Lemma ge_iff a b : ge a b = true <-> b <= a.
Proof. apply Qle_bool_iff. Qed.

Lemma le_iff a b : le a b = true <-> a <= b.
Proof. apply Qle_bool_iff. Qed.

Lemma allChecks_forallb v :
  forallb (fun b => b) (Validations.values v) = true <-> allChecks v.
Proof.
  unfold allChecks. destruct v as [[] [] [] []]; simpl; intuition congruence.
Qed.

(** The recommendations are never empty, and the affirmative message is
    among them exactly when no check failed. *)
Lemma generateLiquidityRecommendations_affirms validations current required :
  generateLiquidityRecommendations validations current required <> []
  /\ (In affirmative
         (generateLiquidityRecommendations validations current required)
      <-> allChecks validations).
Proof.
  unfold generateLiquidityRecommendations, allChecks, affirmative, push.
  destruct validations as [[] [] [] []]; simpl;
    destruct (lt (current / required) 1); simpl;
    (split; [discriminate|]);
    (split; [intros H; repeat (destruct H as [H|H]; [discriminate H|]);
             try contradiction; tauto
            | intros H; try tauto; intuition congruence]).
Qed.

(** The four checks of a validation are the four threshold rules. *)
Lemma validateLiquidityMechanisms_checks now liquidityParams this :
  let totalAssetValue :=
    field_default (LiquidityParams.totalAssetValue liquidityParams)
                  100000000 in
  let currentLiquidity :=
    field_default (LiquidityParams.currentLiquidity liquidityParams)
                  15000000 in
  let requiredRatio :=
    field_default (LiquidityParams.requiredLiquidityRatio liquidityParams)
                  0.20 in
  let emergencyRatio :=
    field_default (LiquidityParams.emergencyReserveRatio liquidityParams)
                  0.05 in
  let actualRatio := currentLiquidity / totalAssetValue in
  exists r,
    outcome (validateLiquidityMechanisms now liquidityParams) this = Return r
    /\ (Validations.sufficientLiquidity (LiquidityValidation.validations r)
        = true
        <-> totalAssetValue * requiredRatio <= currentLiquidity)
    /\ (Validations.emergencyReserveMet (LiquidityValidation.validations r)
        = true
        <-> totalAssetValue * emergencyRatio <= currentLiquidity)
    /\ (Validations.optimalRatio (LiquidityValidation.validations r) = true
        <-> requiredRatio <= actualRatio /\ actualRatio <= 0.35)
    /\ (Validations.phiAligned (LiquidityValidation.validations r) = true
        <-> 0.30 <= actualRatio * Config.phiRatio (Engine.config this)).
Proof.
  cbn zeta. unfold outcome, validateLiquidityMechanisms, bind, get, put, ret.
  eexists. split; [reflexivity|]. simpl.
  rewrite andb_true_iff, !ge_iff, le_iff. tauto.
Qed.

Lemma statusConsistent_intro validations current required r :
  LiquidityValidation.validations r = validations ->
  LiquidityValidation.status r
  = (if forallb (fun b => b) (Validations.values validations)
     then "VALIDATED" else "NEEDS_ATTENTION")%string ->
  LiquidityValidation.recommendations r
  = generateLiquidityRecommendations validations current required ->
  statusConsistent r.
Proof.
  intros Hv Hs Hr. unfold statusConsistent. rewrite Hv, Hs, Hr.
  destruct (generateLiquidityRecommendations_affirms validations current
              required) as [Hne Haff].
  pose proof (allChecks_forallb validations) as Hall.
  destruct (forallb (fun b => b) (Validations.values validations)).
  - assert (allChecks validations) as Hc by now apply Hall.
    split; [tauto|]. split; [|split; [assumption | tauto]].
    split; [discriminate | tauto].
  - assert (~ allChecks validations) as Hc
      by (intros Hc; apply Hall in Hc; discriminate).
    split; [split; [discriminate | contradiction]|].
    split; [tauto|]. split; [assumption|].
    split; [tauto | discriminate].
Qed.

(** What the call returns and what it writes: the pool, nothing else. *)
Lemma validateLiquidityMechanisms_returns now liquidityParams this :
  exists r,
    validateLiquidityMechanisms now liquidityParams this
    = (Return r,
       {| Engine.config := Engine.config this;
          Engine.cashFlows := Engine.cashFlows this;
          Engine.liquidityPool :=
            field_default (LiquidityParams.currentLiquidity liquidityParams)
                          15000000 |})
    /\ statusConsistent r.
Proof.
  unfold validateLiquidityMechanisms, bind, get, put, ret.
  eexists. split; [reflexivity|].
  eapply statusConsistent_intro; reflexivity.
Qed.

(** C5.  Whenever [totalAssetValue] is not zero, the status a validation
    returns is VALIDATED if and only if its four checks
    ([sufficientLiquidity], [emergencyReserveMet], [optimalRatio],
    [phiAligned]) are all true, and NEEDS_ATTENTION otherwise; its
    recommendations are never empty, and the affirmative message is among
    them exactly when the status is VALIDATED. *)
Theorem liquidity_status_consistent :
  forall now liquidityParams this,
    ~ field_default (LiquidityParams.totalAssetValue liquidityParams)
                    100000000 == 0 ->
    exists r,
      outcome (validateLiquidityMechanisms now liquidityParams) this = Return r
      /\ statusConsistent r.
Proof.
  intros now lp this _.
  destruct (validateLiquidityMechanisms_returns now lp this) as (r & Hr & Hs).
  exists r. unfold outcome. now rewrite Hr.
Qed.

(** ** generateComprehensiveDCF *)

Lemma bind_Return_inv {A B} (m : method A) (k : A -> method B) this b this' :
  bind m k this = (Return b, this') ->
  exists a mid, m this = (Return a, mid) /\ k a mid = (Return b, this').
Proof.
  unfold bind. destruct (m this) as [[a|e] mid]; intros H.
  - now exists a, mid.
  - discriminate H.
Qed.

(** A synthesis that returns has made its three calls in order, each on
    the engine the one before left; the ledger it discounts is the one the
    projection left. *)
Lemma generateComprehensiveDCF_inv nowProjection nowIRR nowLiquidity now
    params this r this' :
  generateComprehensiveDCF nowProjection nowIRR nowLiquidity now params this
  = (Return r, this') ->
  let projected :=
    engine_after
      (calculateYieldProjection nowProjection (projectionOrEmpty params))
      this in
  let a := ComprehensiveDCF.analysis r in
  let npv := NPV.value (Analysis.npv a) in
  outcome (calculateYieldProjection nowProjection (projectionOrEmpty params))
          this
  = Return (Analysis.yieldProjection a)
  /\ calculatePhiHedgedIRR nowIRR (investmentOrDefault params) projected
     = (Return (Analysis.irrAnalysis a), projected)
  /\ validateLiquidityMechanisms nowLiquidity (liquidityOrEmpty params)
       projected
     = (Return (Analysis.liquidityValidation a), this')
  /\ Engine.cashFlows projected <> []
  /\ Engine.cashFlows this' = Engine.cashFlows projected
  /\ npv = discountedCashFlows (Engine.config this)
             (Engine.cashFlows projected)
           - investmentOrDefault params
  /\ Assessment.investmentViability (ComprehensiveDCF.overallAssessment r)
     = (if gt npv 0
           && String.eqb
                (LiquidityValidation.status (Analysis.liquidityValidation a))
                "VALIDATED"
        then "VIABLE" else "REVIEW_NEEDED")%string
  /\ Assessment.riskLevel (ComprehensiveDCF.overallAssessment r)
     = (if gt_nan (parseFloat
                     (IRRAnalysis.phiHedgedIRR (Analysis.irrAnalysis a))) 12
        then "LOW" else "MODERATE")%string.
Proof.
  unfold generateComprehensiveDCF. intros H.
  apply bind_Return_inv in H as (yp & e1 & Hyp & H).
  apply bind_Return_inv in H as (irr & e2 & Hirr & H).
  apply bind_Return_inv in H as (lv & e3 & Hlv & H).
  apply bind_Return_inv in H as (e3' & e4 & Hget & H).
  unfold get in Hget. injection Hget as <- <-.
  unfold ret in H. injection H as <- <-.
  assert (e1 = engine_after
                 (calculateYieldProjection nowProjection
                    (projectionOrEmpty params)) this) as He1
    by (unfold engine_after, projectionOrEmpty; now rewrite Hyp).
  assert (Engine.config e1 = Engine.config this) as Hconfig
    by (rewrite He1; apply calculateYieldProjection_frame).
  destruct (Engine.cashFlows e1) as [|cf rest] eqn:Hledger.
  { rewrite calculatePhiHedgedIRR_empty in Hirr by assumption.
    discriminate Hirr. }
  destruct (calculatePhiHedgedIRR_nonempty nowIRR
              (or_default (projection_initialInvestment params) 50000000) e1)
    as (irr' & Hirr' & _).
  { rewrite Hledger. discriminate. }
  rewrite Hirr' in Hirr. injection Hirr as <- <-.
  destruct (validateLiquidityMechanisms_returns nowLiquidity
              (field_default (DCFParams.liquidity params)
                 LiquidityParams.empty) e1) as (lv' & Hlv' & _).
  rewrite Hlv' in Hlv. injection Hlv as <- <-.
  fold (projectionOrEmpty params) in He1, Hyp.
  fold (investmentOrDefault params) in Hirr' |- *.
  fold (liquidityOrEmpty params) in Hlv'.
  cbn zeta. rewrite <- He1. unfold outcome. rewrite Hyp, Hirr', Hlv'.
  simpl. rewrite Hledger, Hconfig.
  repeat split; try reflexivity. discriminate.
Qed.

(** A synthesis returns exactly when the projection leaves a ledger that
    holds a record; otherwise it throws what the IRR estimation throws, and
    the projection's writes stay. *)
Lemma generateComprehensiveDCF_returns nowProjection nowIRR nowLiquidity now
    params this :
  let projected :=
    engine_after
      (calculateYieldProjection nowProjection (projectionOrEmpty params))
      this in
  (Engine.cashFlows projected <> [] ->
   exists r this',
     generateComprehensiveDCF nowProjection nowIRR nowLiquidity now params
       this = (Return r, this'))
  /\ (Engine.cashFlows projected = [] ->
      generateComprehensiveDCF nowProjection nowIRR nowLiquidity now params
        this = (Throw noCashFlows, projected)).
Proof.
  cbn zeta. unfold generateComprehensiveDCF.
  fold (projectionOrEmpty params). fold (investmentOrDefault params).
  fold (liquidityOrEmpty params).
  destruct (calculateYieldProjection_returns nowProjection
              (projectionOrEmpty params) this) as (yp & Hyp & _).
  unfold outcome in Hyp. unfold engine_after.
  destruct (calculateYieldProjection nowProjection (projectionOrEmpty params)
              this) as [c e1] eqn:Hcall.
  simpl in Hyp. subst c. simpl snd. split; intros Hledger.
  - destruct (calculatePhiHedgedIRR_nonempty nowIRR
                (investmentOrDefault params) e1 Hledger) as (irr & Hirr & _).
    destruct (validateLiquidityMechanisms_returns nowLiquidity
                (liquidityOrEmpty params) e1) as (lv & Hlv & _).
    unfold bind at 1. rewrite Hcall.
    unfold bind at 1. rewrite Hirr.
    unfold bind at 1. rewrite Hlv.
    unfold bind, get, ret. eexists. eexists. reflexivity.
  - unfold bind at 1. rewrite Hcall.
    unfold bind at 1.
    now rewrite (calculatePhiHedgedIRR_empty nowIRR _ e1 Hledger).
Qed.

(** C2.  In what a synthesis returns, [investmentViability] is VIABLE if
    and only if the net present value is positive and the liquidity status
    is VALIDATED; when either of the two fails the verdict is
    REVIEW_NEEDED. *)
Theorem viability_iff_npv_positive_and_validated :
  forall nowProjection nowIRR nowLiquidity now params this r this',
    generateComprehensiveDCF nowProjection nowIRR nowLiquidity now params this
    = (Return r, this') ->
    verdictFollows r.
Proof.
  intros t1 t2 t3 t4 params this r this' Hcall.
  apply generateComprehensiveDCF_inv in Hcall.
  cbn zeta in Hcall.
  destruct Hcall as (_ & _ & _ & _ & _ & _ & Hverdict & _).
  unfold verdictFollows. cbn zeta. rewrite Hverdict.
  set (npv := NPV.value (Analysis.npv (ComprehensiveDCF.analysis r))).
  set (status := LiquidityValidation.status
                   (Analysis.liquidityValidation (ComprehensiveDCF.analysis r))).
  pose proof (gt_iff npv 0) as Hgt.
  pose proof (String.eqb_spec status "VALIDATED") as Heq.
  destruct (gt npv 0).
  - assert (0 < npv) as Hpos by now apply Hgt.
    destruct Heq as [Heq|Hneq]; simpl.
    + split; [tauto|]. split; [contradiction | congruence].
    + split; [split; [discriminate | tauto]|]. split; reflexivity.
  - assert (~ 0 < npv) as Hneg
      by (intros Hpos; apply Hgt in Hpos; discriminate).
    simpl. split; [split; [discriminate | tauto]|]. split; reflexivity.
Qed.

(** ** The net present value *)

Lemma truthy_positive x : 0 < x -> truthy x = true.
Proof.
  intros Hx. unfold truthy. apply negb_true_iff.
  apply not_true_iff_false. intros Heq. apply Qeq_bool_iff in Heq.
  rewrite Heq in Hx. now apply Qlt_irrefl in Hx.
Qed.


(** The reduction over the ledger is the sum the specification writes. *)
Lemma discountedCashFlows_presentValue config records :
  discountedCashFlows config records
  == presentValue (Config.discountRate config) records.
Proof.
  unfold discountedCashFlows.
  assert (forall acc,
            fold_left
              (fun sum cf =>
                 sum + CashFlow.amount cf
                       / Math_pow (1 + Config.discountRate config)
                                  (inject_Z (CashFlow.year cf)))
              records acc
            == acc + presentValue (Config.discountRate config) records)
    as Hacc.
  { induction records as [|cf rest IH]; intros acc; simpl.
    - ring.
    - rewrite IH. ring. }
  rewrite Hacc. ring.
Qed.

(** C3.  A synthesis on an engine whose ledger is empty, with a given
    [initialInvestment > 0], returns as net present value the sum, over the
    ledger records this synthesis produced, of the amount over
    [(1 + discountRate)] to the record's year, less the initial investment;
    those records are the whole ledger it leaves. *)
Theorem npv_is_discounted_sum_less_investment :
  forall nowProjection nowIRR nowLiquidity now params projectionParams
         initialInvestment this r this',
    Engine.cashFlows this = [] ->
    DCFParams.projection params = Some projectionParams ->
    ProjectionParams.initialInvestment projectionParams
    = Some initialInvestment ->
    0 < initialInvestment ->
    generateComprehensiveDCF nowProjection nowIRR nowLiquidity now params this
    = (Return r, this') ->
    let produced :=
      map cashFlow_of
        (YieldProjection.yearlyProjections
           (Analysis.yieldProjection (ComprehensiveDCF.analysis r))) in
    Engine.cashFlows this' = produced
    /\ NPV.value (Analysis.npv (ComprehensiveDCF.analysis r))
       == specNPV (Config.discountRate (Engine.config this)) produced
            initialInvestment.
Proof.
  intros t1 t2 t3 t4 params pp inv this r this' Hfresh Hpp Hinv Hpos Hcall.
  apply generateComprehensiveDCF_inv in Hcall. cbn zeta in Hcall.
  destruct Hcall as (Hyp & _ & _ & _ & Hledger & Hnpv & _).
  assert (projectionOrEmpty params = pp) as Hparams
    by (unfold projectionOrEmpty; now rewrite Hpp).
  assert (investmentOrDefault params = inv) as Hdefault.
  { unfold investmentOrDefault, projection_initialInvestment.
    rewrite Hpp, Hinv. simpl. now rewrite truthy_positive. }
  rewrite Hparams in *. rewrite Hdefault in Hnpv.
  destruct (calculateYieldProjection_returns t1 pp this)
    as (yp & Hyp' & _ & _ & Hrecords).
  rewrite Hyp in Hyp'. injection Hyp' as <-.
  rewrite calculateYieldProjection_ledger, Hfresh in Hledger, Hnpv.
  simpl app in Hledger, Hnpv.
  cbn zeta. rewrite Hrecords. split; [assumption|].
  rewrite Hnpv. unfold specNPV.
  now rewrite discountedCashFlows_presentValue.
Qed.

(** ** The phi adjustment and the hedge *)

Lemma inverse_below_one phi : 1 < phi -> 0 < 1 / phi /\ 1 / phi < 1.
Proof.
  intros Hphi. assert (0 < phi) as Hpos by lra. split.
  - apply Qlt_shift_div_l; [assumption | lra].
  - apply Qlt_shift_div_r; [assumption | lra].
Qed.

Lemma phiMultiplier_below_one phi : 1 < phi -> 1 + (1 / phi - 1) * 0.1 < 1.
Proof.
  intros Hphi. destruct (inverse_below_one phi Hphi) as [_ Hinv].
  set (h := 1 / phi) in *. lra.
Qed.

Lemma phiMultiplier_at_most_one phi : 1 < phi -> 1 + (1 / phi - 1) * 0.1 <= 1.
Proof. intros Hphi. apply Qlt_le_weak. now apply phiMultiplier_below_one. Qed.

(** Every record of the yearly breakdown is the one the loop body stores
    for its year. *)
Lemma calculateYieldProjection_yearOf now projectionParams this r :
  outcome (calculateYieldProjection now projectionParams) this = Return r ->
  Forall
    (yearOf (Config.phiRatio (Engine.config this))
       (field_default (ProjectionParams.initialInvestment projectionParams)
                      50000000)
       (field_default (ProjectionParams.growthRate projectionParams) 0.12)
       (field_default (ProjectionParams.occupancyRate projectionParams) 0.92))
    (YieldProjection.yearlyProjections r).
Proof.
  intros Hr.
  unfold outcome, calculateYieldProjection, bind, get, put, ret in Hr.
  simpl in Hr. injection Hr as <-. simpl.
  rewrite for_year_fold by lia.
  apply body_Forall; [|constructor].
  intros y v Hv. unfold projection_body, push. simpl.
  apply Forall_app. split; [assumption|].
  constructor; [|constructor].
  unfold yearOf. simpl. repeat split.
Qed.

(** The years of the breakdown: 1 to [years], one record each. *)
Lemma calculateYieldProjection_years now projectionParams this r :
  outcome (calculateYieldProjection now projectionParams) this = Return r ->
  map YearlyProjection.year (YieldProjection.yearlyProjections r)
  = year_range 1
      (Z.to_nat (field_default (ProjectionParams.years projectionParams)
                               10%Z)).
Proof.
  intros Hr.
  destruct (calculateYieldProjection_returns now projectionParams this)
    as (r' & Hr' & _ & _ & Hrecords).
  rewrite Hr in Hr'. injection Hr' as <-.
  replace (map YearlyProjection.year (YieldProjection.yearlyProjections r))
    with (map CashFlow.year
            (map cashFlow_of (YieldProjection.yearlyProjections r)))
    by (rewrite map_map; reflexivity).
  rewrite Hrecords. apply projectedRecords_years.
Qed.

(** C9, as the code has it.  A projection returns one record for each of
    the years 1 to [years], and each is the record of the loop body: its
    [adjustedYield] is [initialInvestment * Math.pow(1 + growthRate, year)
    * occupancyRate] and its [phiAdjustedYield] is that [adjustedYield]
    times [1 + (1 / phiRatio - 1) * 0.1].  When [phiRatio > 1] the
    multiplier is at most 1, so a positive [adjustedYield] is never
    adjusted to a larger yield.  (On rationals both orders are strict; on
    binary64 they are not, as the runs of [Double] show.) *)
Theorem phi_adjustment_never_raises_yield :
  forall now projectionParams this,
    let phiRatio := Config.phiRatio (Engine.config this) in
    exists r,
      outcome (calculateYieldProjection now projectionParams) this = Return r
      /\ map YearlyProjection.year (YieldProjection.yearlyProjections r)
         = year_range 1
             (Z.to_nat
                (field_default (ProjectionParams.years projectionParams)
                               10%Z))
      /\ Forall
           (yearOf phiRatio
              (field_default
                 (ProjectionParams.initialInvestment projectionParams)
                 50000000)
              (field_default (ProjectionParams.growthRate projectionParams)
                             0.12)
              (field_default (ProjectionParams.occupancyRate projectionParams)
                             0.92))
           (YieldProjection.yearlyProjections r)
      /\ (1 < phiRatio ->
          1 + (1 / phiRatio - 1) * 0.1 <= 1
          /\ Forall
               (fun y =>
                  0 < YearlyProjection.adjustedYield y ->
                  YearlyProjection.phiAdjustedYield y
                  <= YearlyProjection.adjustedYield y)
               (YieldProjection.yearlyProjections r)).
Proof.
  intros now pp this phiRatio.
  destruct (calculateYieldProjection_returns now pp this) as (r & Hr & _).
  exists r. split; [exact Hr|].
  split; [exact (calculateYieldProjection_years now pp this r Hr)|].
  pose proof (calculateYieldProjection_yearOf now pp this r Hr) as Hrecords.
  split; [exact Hrecords|].
  intros Hphi. pose proof (phiMultiplier_at_most_one phiRatio Hphi) as Hm.
  split; [exact Hm|].
  revert Hrecords. apply Forall_impl.
  intros y (_ & _ & Hadjusted & _) Hpositive. rewrite Hadjusted.
  fold phiRatio.
  set (m := 1 + (1 / phiRatio - 1) * 0.1) in *.
  set (a := YearlyProjection.adjustedYield y) in *. nra.
Qed.

(** C8, as the code has it.  Whenever [phiRatio > 1], the ledger holds a
    record and [initialInvestment > 0], the hedged rate is the base rate
    times [1 + (1 / phiRatio) * 0.15], and a positive [baseIRR] is hedged
    to a [phiHedgedIRR] that is never below it.  (On rationals it is above
    it; on binary64 it need not be, as the runs of [Double] show.) *)
Theorem hedged_irr_not_below_positive_base :
  forall config cashFlows initialInvestment,
    1 < Config.phiRatio config ->
    cashFlows <> [] ->
    0 < initialInvestment ->
    0 < baseIRR cashFlows initialInvestment ->
    phiHedgedIRR config cashFlows initialInvestment
    = baseIRR cashFlows initialInvestment
      * (1 + 1 / Config.phiRatio config * 0.15)
    /\ baseIRR cashFlows initialInvestment
       <= phiHedgedIRR config cashFlows initialInvestment.
Proof.
  intros config cashFlows inv Hphi _ _ Hbase. split; [reflexivity|].
  unfold phiHedgedIRR, phiHedgeFactor.
  destruct (inverse_below_one _ Hphi) as [Hinv _].
  set (b := baseIRR cashFlows inv) in *.
  set (h := 1 / Config.phiRatio config) in *. nra.
Qed.

(** ** A zero initial investment *)



(** ** Calls that differ in the clock reading only *)

(** C6, as the code has it.  Two calls of [calculateYieldProjection], of
    [calculatePhiHedgedIRR] or of [validateLiquidityMechanisms] on the same
    inputs, on engines of the same configuration and the same ledger
    (whatever their liquidity pools), complete the same way and return
    results that agree on every field but [timestamp], which holds the
    clock reading of each call.  The two engines again share their
    configuration and their ledger after the calls. *)
Theorem calls_agree_up_to_timestamp :
  forall now now' this this',
    Engine.config this = Engine.config this' ->
    Engine.cashFlows this = Engine.cashFlows this' ->
    (forall projectionParams,
       outcome (calculateYieldProjection now' projectionParams) this'
       = completion_map (YieldProjection_at now')
           (outcome (calculateYieldProjection now projectionParams) this)
       /\ sameLedger
            (engine_after (calculateYieldProjection now projectionParams) this)
            (engine_after (calculateYieldProjection now' projectionParams)
               this'))
    /\ (forall initialInvestment,
          outcome (calculatePhiHedgedIRR now' initialInvestment) this'
          = completion_map (IRRAnalysis_at now')
              (outcome (calculatePhiHedgedIRR now initialInvestment) this)
          /\ sameLedger
               (engine_after (calculatePhiHedgedIRR now initialInvestment)
                  this)
               (engine_after (calculatePhiHedgedIRR now' initialInvestment)
                  this'))
    /\ (forall liquidityParams,
          outcome (validateLiquidityMechanisms now' liquidityParams) this'
          = completion_map (LiquidityValidation_at now')
              (outcome (validateLiquidityMechanisms now liquidityParams) this)
          /\ engine_after (validateLiquidityMechanisms now liquidityParams)
               this
             = engine_after (validateLiquidityMechanisms now' liquidityParams)
                 this').
Proof.
  intros now now' [config cashFlows pool] [config' cashFlows' pool'].
  simpl. intros <- <-. split; [|split].
  - intros pp. split; [reflexivity | split; reflexivity].
  - intros inv. unfold outcome, engine_after, calculatePhiHedgedIRR, bind, get.
    simpl.
    destruct (Nat.eqb (List.length cashFlows) 0);
      (split; [reflexivity | split; reflexivity]).
  - intros lp. split; reflexivity.
Qed.

(** ** A rate formatted to two places and parsed back *)

Section Formatting.

Local Open Scope string_scope.













Lemma stops_at_point t : stops_digits (String "." t).
Proof. reflexivity. Qed.






Lemma lt_iff a b : lt a b = true <-> (a < b).
Proof.
  unfold lt. rewrite negb_true_iff, <- not_true_iff_false, Qle_bool_iff.
  split; [apply Qnot_le_lt | apply Qlt_not_le].
Qed.


End Formatting.


End Properties.

(** * Further properties *)

Section FurtherProperties.

Context {host : Host}.

(** ** The yearly breakdown of a projection *)

Lemma fold_invariant {A B : Type} (f : A -> B -> A) (I : A -> Prop) :
  (forall a b, I a -> I (f a b)) ->
  forall l a, I a -> I (fold_left f l a).
Proof.
  intros Hstep. induction l as [|b l IH]; intros a Ha; simpl; auto.
Qed.

Lemma runningTotals_push acc ys y :
  runningTotals acc ys ->
  YearlyProjection.cumulativeYield y
  = sumPhiAdjusted acc ys + YearlyProjection.phiAdjustedYield y ->
  runningTotals acc (push ys y).
Proof.
  revert acc. unfold push.
  induction ys as [|z ys IH]; intros acc Hys Hy; simpl in *.
  - split; [exact Hy | exact I].
  - destruct Hys as [Hz Hys]. split; [exact Hz|]. now apply IH.
Qed.

Lemma sumPhiAdjusted_push acc ys y :
  sumPhiAdjusted acc (push ys y)
  = sumPhiAdjusted acc ys + YearlyProjection.phiAdjustedYield y.
Proof. unfold sumPhiAdjusted, push. now rewrite fold_left_app. Qed.


(** The invariant of the projection loop: the cumulative yield is the sum
    of the phi-adjusted yields pushed so far. *)
Lemma calculateYieldProjection_totals now projectionParams this r :
  outcome (calculateYieldProjection now projectionParams) this = Return r ->
  runningTotals 0 (YieldProjection.yearlyProjections r)
  /\ YieldProjection.totalProjectedYield r
     = sumPhiAdjusted 0 (YieldProjection.yearlyProjections r).
Proof.
  intros Hr.
  unfold outcome, calculateYieldProjection, bind, get, put, ret in Hr.
  simpl in Hr. injection Hr as <-. simpl.
  rewrite for_year_fold by lia.
  set (body := projection_body _ _ _ _).
  apply (fold_invariant (fun s y => body y s)
           (fun v => runningTotals 0 (yearlyProjections v)
                     /\ cumulativeYield v
                        = sumPhiAdjusted 0 (yearlyProjections v))).
  - intros v y [Hrun Hsum]. unfold body, projection_body.
    cbn [yearlyProjections cumulativeYield]. split.
    + apply runningTotals_push; [exact Hrun|]. simpl. now rewrite Hsum.
    + rewrite sumPhiAdjusted_push. simpl. now rewrite Hsum.
  - split; [exact I | reflexivity].
Qed.

Lemma calculateYieldProjection_length now projectionParams this r :
  outcome (calculateYieldProjection now projectionParams) this = Return r ->
  List.length (YieldProjection.yearlyProjections r)
  = Z.to_nat (requestedYears projectionParams)
  /\ map YearlyProjection.year (YieldProjection.yearlyProjections r)
     = year_range 1 (Z.to_nat (requestedYears projectionParams)).
Proof.
  intros Hr.
  destruct (calculateYieldProjection_returns now projectionParams this)
    as (r' & Hr' & _ & _ & Hrecords).
  rewrite Hr in Hr'. injection Hr' as <-. split.
  - rewrite <- (length_map cashFlow_of), Hrecords.
    apply projectedRecords_length.
  - replace (map YearlyProjection.year (YieldProjection.yearlyProjections r))
      with (map CashFlow.year
              (map cashFlow_of (YieldProjection.yearlyProjections r)))
      by (rewrite map_map; reflexivity).
    rewrite Hrecords. apply projectedRecords_years.
Qed.

(** X1.  A projection returns one yearly record for each of the years 1 to
    [years], in order (none when [years] is zero or negative); every
    [cumulativeYield] is the running sum of the phi-adjusted yields up to
    its year, [totalProjectedYield] is the sum of them all, and, when
    [years] is positive, [averageAnnualYield] is that total over [years]. *)
Theorem projection_breakdown_totals :
  forall now projectionParams this,
  exists r,
    outcome (calculateYieldProjection now projectionParams) this = Return r
    /\ List.length (YieldProjection.yearlyProjections r)
       = Z.to_nat (requestedYears projectionParams)
    /\ map YearlyProjection.year (YieldProjection.yearlyProjections r)
       = year_range 1 (Z.to_nat (requestedYears projectionParams))
    /\ runningTotals 0 (YieldProjection.yearlyProjections r)
    /\ YieldProjection.totalProjectedYield r
       = sumPhiAdjusted 0 (YieldProjection.yearlyProjections r)
    /\ ((0 < requestedYears projectionParams)%Z ->
        YieldProjection.averageAnnualYield r
        = YieldProjection.totalProjectedYield r
          / inject_Z (requestedYears projectionParams)).
Proof.
  intros now pp this.
  destruct (calculateYieldProjection_returns now pp this) as (r & Hr & _).
  exists r. split; [exact Hr|].
  destruct (calculateYieldProjection_length now pp this r Hr) as [Hlen Hyears].
  destruct (calculateYieldProjection_totals now pp this r Hr)
    as [Hrunning Htotal].
  split; [exact Hlen|]. split; [exact Hyears|]. split; [exact Hrunning|].
  split; [exact Htotal|]. intros _.
  unfold outcome, calculateYieldProjection, bind, get, put, ret in Hr.
  simpl in Hr. injection Hr as <-. reflexivity.
Qed.

(** ** Projections that add nothing, and syntheses that throw *)

Lemma calculateYieldProjection_engine now projectionParams this :
  engine_after (calculateYieldProjection now projectionParams) this
  = {| Engine.config := Engine.config this;
       Engine.cashFlows :=
         (Engine.cashFlows this
          ++ projectedRecords (Engine.config this) projectionParams)%list;
       Engine.liquidityPool := Engine.liquidityPool this |}.
Proof.
  pose proof (calculateYieldProjection_ledger now projectionParams this)
    as Hledger.
  destruct (calculateYieldProjection_frame now projectionParams this)
    as [Hconfig Hpool].
  destruct (engine_after (calculateYieldProjection now projectionParams) this)
    as [config ledger pool].
  simpl in *. now subst.
Qed.

Lemma projectedRecords_nil config projectionParams :
  projectedRecords config projectionParams = []
  <-> (requestedYears projectionParams <= 0)%Z.
Proof.
  unfold requestedYears. split; intros H.
  - apply (f_equal (@List.length _)) in H.
    unfold projectedRecords in H.
    rewrite length_map, year_range_length in H. simpl in H. lia.
  - unfold projectedRecords.
    replace (Z.to_nat (field_default (ProjectionParams.years projectionParams)
                                     10%Z)) with O by lia.
    reflexivity.
Qed.

(** X2.  A projection asked for zero or a negative number of years returns
    an empty breakdown with a total of 0 and leaves the engine, ledger
    included, exactly as it was: the input is not rejected. *)
Theorem projection_without_years_changes_nothing :
  forall now projectionParams this,
    (requestedYears projectionParams <= 0)%Z ->
    exists r,
      calculateYieldProjection now projectionParams this = (Return r, this)
      /\ YieldProjection.yearlyProjections r = []
      /\ YieldProjection.totalProjectedYield r = 0.
Proof.
  intros now pp this Hyears.
  destruct (calculateYieldProjection_returns now pp this) as (r & Hr & _).
  destruct (calculateYieldProjection_length now pp this r Hr) as [Hlen _].
  destruct (calculateYieldProjection_totals now pp this r Hr) as [_ Htotal].
  assert (YieldProjection.yearlyProjections r = []) as Hnil.
  { destruct (YieldProjection.yearlyProjections r); [reflexivity|].
    simpl in Hlen. lia. }
  exists r. split; [|split; [exact Hnil | now rewrite Htotal, Hnil]].
  pose proof (calculateYieldProjection_engine now pp this) as Hengine.
  rewrite (proj2 (projectedRecords_nil _ pp) Hyears), app_nil_r in Hengine.
  unfold outcome in Hr. unfold engine_after in Hengine.
  destruct (calculateYieldProjection now pp this) as [c e]. simpl in *.
  subst. f_equal. now destruct this.
Qed.


(** ** What a synthesis leaves, and what it discounts *)

Lemma presentValue_app discountRate a b :
  presentValue discountRate (a ++ b)
  == presentValue discountRate a + presentValue discountRate b.
Proof.
  induction a as [|cf a IH]; simpl.
  - now rewrite Qplus_0_l.
  - rewrite IH. apply Qplus_assoc.
Qed.

(** X4.  A synthesis that returns leaves the configuration as it was, the
    ledger extended by the records of its projection, and the liquidity
    pool overwritten by the [currentLiquidity] it validated (15,000,000
    when none is given); the name and location it reports are those of the
    configuration. *)
Theorem synthesis_appends_and_sets_pool :
  forall nowProjection nowIRR nowLiquidity now params this r this',
    generateComprehensiveDCF nowProjection nowIRR nowLiquidity now params this
    = (Return r, this') ->
    this'
    = {| Engine.config := Engine.config this;
         Engine.cashFlows :=
           (Engine.cashFlows this
            ++ projectedRecords (Engine.config this)
                 (projectionOrEmpty params))%list;
         Engine.liquidityPool :=
           field_default
             (LiquidityParams.currentLiquidity (liquidityOrEmpty params))
             15000000 |}
    /\ ComprehensiveDCF.projectName r = Config.projectName (Engine.config this)
    /\ ComprehensiveDCF.location r = Config.location (Engine.config this).
Proof.
  intros t1 t2 t3 t4 params this r this' Hcall.
  pose proof Hcall as Hinv.
  apply generateComprehensiveDCF_inv in Hinv. cbn zeta in Hinv.
  destruct Hinv as (_ & _ & Hlv & _).
  destruct (validateLiquidityMechanisms_returns t3 (liquidityOrEmpty params)
              (engine_after
                 (calculateYieldProjection t1 (projectionOrEmpty params))
                 this)) as (lv & Hlv' & _).
  rewrite Hlv' in Hlv. apply (f_equal snd) in Hlv. cbn [snd] in Hlv.
  rewrite <- Hlv, calculateYieldProjection_engine. cbn [Engine.config
    Engine.cashFlows Engine.liquidityPool].
  split; [reflexivity|].
  unfold generateComprehensiveDCF in Hcall.
  apply bind_Return_inv in Hcall as (yp & e1 & Hyp & Hcall).
  apply bind_Return_inv in Hcall as (irr & e2 & Hirr & Hcall).
  apply bind_Return_inv in Hcall as (lv0 & e3 & Hlv0 & Hcall).
  apply bind_Return_inv in Hcall as (e3' & e4 & Hget & Hcall).
  unfold get in Hget. injection Hget as <- <-.
  unfold ret in Hcall. injection Hcall as <- _. simpl.
  fold (liquidityOrEmpty params) in Hlv0.
  fold (investmentOrDefault params) in Hirr.
  fold (projectionOrEmpty params) in Hyp.
  assert (Engine.config e3 = Engine.config this) as ->; [|split; reflexivity].
  assert (e1 = engine_after
                 (calculateYieldProjection t1 (projectionOrEmpty params)) this)
    as He1 by (unfold engine_after; now rewrite Hyp).
  assert (e2 = e1) as He2.
  { destruct (Engine.cashFlows e1) as [|cf rest] eqn:Hledger.
    - rewrite calculatePhiHedgedIRR_empty in Hirr by assumption.
      discriminate Hirr.
    - destruct (calculatePhiHedgedIRR_nonempty t2 (investmentOrDefault params)
                  e1) as (irr' & Hirr' & _).
      { rewrite Hledger. discriminate. }
      rewrite Hirr' in Hirr. now injection Hirr as _ <-. }
  destruct (validateLiquidityMechanisms_returns t3 (liquidityOrEmpty params)
              e2) as (lv1 & Hlv1 & _).
  rewrite Hlv1 in Hlv0. injection Hlv0 as _ <-. simpl.
  rewrite He2, He1. apply calculateYieldProjection_frame.
Qed.

(** X5.  The net present value of a synthesis discounts every record of
    the ledger, those that were there before the call as well as those the
    call produced: on an engine that is used again, the earlier records are
    counted again. *)
Theorem npv_counts_the_records_already_in_the_ledger :
  forall nowProjection nowIRR nowLiquidity now params this r this',
    generateComprehensiveDCF nowProjection nowIRR nowLiquidity now params this
    = (Return r, this') ->
    let discountRate := Config.discountRate (Engine.config this) in
    NPV.value (Analysis.npv (ComprehensiveDCF.analysis r))
    == presentValue discountRate (Engine.cashFlows this)
       + presentValue discountRate
           (projectedRecords (Engine.config this) (projectionOrEmpty params))
       - investmentOrDefault params.
Proof.
  intros t1 t2 t3 t4 params this r this' Hcall.
  apply generateComprehensiveDCF_inv in Hcall. cbn zeta in Hcall.
  destruct Hcall as (_ & _ & _ & _ & _ & Hnpv & _).
  cbn zeta. rewrite Hnpv, calculateYieldProjection_ledger.
  rewrite discountedCashFlows_presentValue, presentValue_app. reflexivity.
Qed.


(** ** The IRR of a projection *)


(** X7.  On a ledger that holds a record and whose total is not negative,
    with a positive [initialInvestment] and a [phiRatio] other than zero,
    the recommendation is "Strong Buy" exactly when the hedged rate is
    above 0.12, "Buy" exactly when it is above 0.08 but not above 0.12, and
    "Hold" exactly when it is not above 0.08. *)
Theorem recommendation_follows_the_hedged_rate :
  forall now initialInvestment this,
    Engine.cashFlows this <> [] ->
    0 <= totalCashFlow (Engine.cashFlows this) ->
    0 < initialInvestment ->
    ~ Config.phiRatio (Engine.config this) == 0 ->
    exists r,
      outcome (calculatePhiHedgedIRR now initialInvestment) this = Return r
      /\ let rate :=
           phiHedgedIRR (Engine.config this) (Engine.cashFlows this)
             initialInvestment in
         (IRRAnalysis.recommendation r = "Strong Buy"%string <-> 0.12 < rate)
         /\ (IRRAnalysis.recommendation r = "Buy"%string
             <-> 0.08 < rate /\ ~ 0.12 < rate)
         /\ (IRRAnalysis.recommendation r = "Hold"%string <-> ~ 0.08 < rate).
Proof.
  intros now inv this Hledger _ _ _.
  destruct (calculatePhiHedgedIRR_nonempty now inv this Hledger)
    as (r & Hr & _ & _ & Hrec).
  exists r. unfold outcome. rewrite Hr. split; [reflexivity|]. cbn zeta.
  rewrite Hrec.
  set (rate := phiHedgedIRR _ _ _).
  pose proof (gt_iff rate 0.12) as Hstrong.
  pose proof (gt_iff rate 0.08) as Hbuy.
  destruct (gt rate 0.12).
  - assert (0.12 < rate) by now apply Hstrong.
    split; [tauto|]. split; split; first [discriminate | intros; lra].
  - assert (~ 0.12 < rate)
      by (intros Hs; apply Hstrong in Hs; discriminate Hs).
    destruct (gt rate 0.08).
    + assert (0.08 < rate) by now apply Hbuy.
      split; [split; [discriminate | tauto]|].
      split; [split; [intros _; split; assumption | reflexivity]|].
      split; [discriminate | tauto].
    + assert (~ 0.08 < rate) by (intros Hb; apply Hbuy in Hb; discriminate Hb).
      split; [split; [discriminate | tauto]|].
      split; [split; [discriminate | tauto]|].
      split; [tauto | reflexivity].
Qed.

(** What the analysis reports beside the two rates. *)
Lemma calculatePhiHedgedIRR_fields now initialInvestment this :
  Engine.cashFlows this <> [] ->
  exists r,
    outcome (calculatePhiHedgedIRR now initialInvestment) this = Return r
    /\ IRRAnalysis.phiRatio r = Config.phiRatio (Engine.config this)
    /\ IRRAnalysis.hedgeFactor r = 1 / Config.phiRatio (Engine.config this).
Proof.
  intros Hne. unfold outcome, calculatePhiHedgedIRR, bind, get, ret. simpl.
  destruct (Nat.eqb (List.length (Engine.cashFlows this)) 0) eqn:Hlen.
  - apply Nat.eqb_eq, length_zero_iff_nil in Hlen. contradiction.
  - eexists. split; [reflexivity|]. split; reflexivity.
Qed.

(** X8.  With [phiRatio > 1], a ledger that holds a record and a positive
    [initialInvestment], the reported hedge factor lies in [0, 1), and the
    hedged rate is the base rate times a multiplier between 1 and 1.15:
    the hedge keeps the sign of the base rate and never narrows it, so a
    positive base rate is hedged to a rate that is not lower, a negative
    one to a rate that is not higher, and a zero base rate stays zero. *)
Theorem hedge_scales_the_base_rate :
  forall now initialInvestment this,
    1 < Config.phiRatio (Engine.config this) ->
    Engine.cashFlows this <> [] ->
    0 < initialInvestment ->
    exists r,
      outcome (calculatePhiHedgedIRR now initialInvestment) this = Return r
      /\ 0 <= IRRAnalysis.hedgeFactor r /\ IRRAnalysis.hedgeFactor r < 1
      /\ let base := baseIRR (Engine.cashFlows this) initialInvestment in
         let hedged :=
           phiHedgedIRR (Engine.config this) (Engine.cashFlows this)
             initialInvestment in
         hedged = base * hedgeMultiplier (Engine.config this)
         /\ 1 <= hedgeMultiplier (Engine.config this) <= 1.15
         /\ (base < 0 -> hedged <= base /\ hedged < 0)
         /\ (base == 0 -> hedged == 0)
         /\ (0 < base -> base <= hedged /\ 0 < hedged).
Proof.
  intros now inv this Hphi Hledger _.
  destruct (calculatePhiHedgedIRR_fields now inv this Hledger)
    as (r & Hr & _ & Hfactor).
  exists r. split; [exact Hr|]. rewrite Hfactor.
  destruct (inverse_below_one _ Hphi) as [Hpos Hbelow].
  split; [apply Qlt_le_weak; exact Hpos|]. split; [exact Hbelow|]. cbn zeta.
  unfold phiHedgedIRR, hedgeMultiplier, phiHedgeFactor.
  set (base := baseIRR _ _). set (h := 1 / _) in *.
  split; [reflexivity|]. split; [split; lra|].
  split; [intros Hneg; split; nra|].
  split; [intros Hzero; rewrite Hzero; ring | intros Hbase; split; nra].
Qed.

(** ** The checks that decide the status *)

(** X11.  When the total asset value is positive, the emergency ratio is
    at most the required ratio, [phiRatio] is positive and the required
    ratio times [phiRatio] is at least 0.30 (as with every default), two
    of the four checks decide the status: a pool that passes
    [sufficientLiquidity] meets the emergency reserve, a ratio that passes
    [optimalRatio] is phi-aligned, and so the status is VALIDATED exactly
    when [sufficientLiquidity] and [optimalRatio] hold. *)
Theorem validated_iff_sufficient_and_optimal :
  forall now liquidityParams this,
    let totalAssetValue :=
      field_default (LiquidityParams.totalAssetValue liquidityParams)
                    100000000 in
    let requiredRatio :=
      field_default (LiquidityParams.requiredLiquidityRatio liquidityParams)
                    0.20 in
    let emergencyRatio :=
      field_default (LiquidityParams.emergencyReserveRatio liquidityParams)
                    0.05 in
    let phiRatio := Config.phiRatio (Engine.config this) in
    0 < totalAssetValue ->
    emergencyRatio <= requiredRatio ->
    0 < phiRatio ->
    0.30 <= requiredRatio * phiRatio ->
    exists r,
      outcome (validateLiquidityMechanisms now liquidityParams) this = Return r
      /\ let checks := LiquidityValidation.validations r in
         (Validations.sufficientLiquidity checks = true ->
          Validations.emergencyReserveMet checks = true)
         /\ (Validations.optimalRatio checks = true ->
             Validations.phiAligned checks = true)
         /\ (LiquidityValidation.status r = "VALIDATED"%string
             <-> Validations.sufficientLiquidity checks = true
                 /\ Validations.optimalRatio checks = true).
Proof.
  intros now lp this tav req em phi Htav Hem Hphi Halign.
  destruct (validateLiquidityMechanisms_checks now lp this)
    as (r & Hr & Hsuff & Hemerg & Hopt & Haligned).
  destruct (validateLiquidityMechanisms_returns now lp this)
    as (r' & Hr' & Hstatus & _).
  unfold outcome in Hr. rewrite Hr' in Hr. cbn [fst] in Hr.
  injection Hr as ->.
  exists r. split; [unfold outcome; now rewrite Hr'|]. cbn zeta.
  fold tav req em phi in Hsuff, Hemerg, Hopt, Haligned.
  set (cur := field_default (LiquidityParams.currentLiquidity lp) 15000000)
    in *.
  set (ratio := cur / tav) in *.
  assert (Validations.sufficientLiquidity (LiquidityValidation.validations r)
          = true ->
          Validations.emergencyReserveMet (LiquidityValidation.validations r)
          = true) as Hreserve.
  { rewrite Hsuff, Hemerg. intros Henough. nra. }
  assert (Validations.optimalRatio (LiquidityValidation.validations r) = true ->
          Validations.phiAligned (LiquidityValidation.validations r) = true)
    as Hphi_aligned.
  { rewrite Hopt, Haligned. intros [Hlow _]. nra. }
  split; [exact Hreserve|]. split; [exact Hphi_aligned|].
  rewrite Hstatus. unfold allChecks. tauto.
Qed.

(** ** The recommendations *)

(** X12.  The recommendations hold one message for each failing check,
    and the one affirmative message when no check fails: never none, never
    more than four. *)
Theorem one_recommendation_per_failing_check :
  forall validations current required,
    List.length
      (generateLiquidityRecommendations validations current required)
    = Nat.max 1 (failingChecks validations)
    /\ (1 <= List.length
              (generateLiquidityRecommendations validations current required)
        <= 4)%nat.
Proof.
  intros [[] [] [] []] current required;
    unfold generateLiquidityRecommendations, failingChecks, push; simpl;
    destruct (lt (current / required) 1); simpl; lia.
Qed.

Lemma optimal_range_messages validations current required :
  let recommendations :=
    generateLiquidityRecommendations validations current required in
  (In belowOptimal recommendations
   <-> Validations.optimalRatio validations = false
       /\ lt (current / required) 1 = true)
  /\ (In aboveOptimal recommendations
      <-> Validations.optimalRatio validations = false
          /\ lt (current / required) 1 = false).
Proof.
  cbn zeta.
  unfold generateLiquidityRecommendations, belowOptimal, aboveOptimal, push.
  destruct validations as [[] [] [] []]; simpl;
    destruct (lt (current / required) 1); simpl;
    (split;
     (split;
      [ intros H; repeat (destruct H as [H|H]; [try discriminate H|]);
        try contradiction; auto
      | intros [H1 H2]; try discriminate; auto 6 ])).
Qed.

(** The quotient is below 1 exactly when the numerator is below a positive
    denominator. *)
Lemma below_one_iff (current required : number) :
  0 < required ->
  lt (current / required) 1 = negb (ge current required).
Proof.
  intros Hrequired.
  assert (current / required * required == current) as Hratio
    by (unfold number in *; field; lra).
  pose proof (lt_iff (current / required) 1) as Hlt.
  pose proof (ge_iff current required) as Hge.
  set (ratio := current / required) in *.
  destruct (lt ratio 1), (ge current required); try reflexivity; exfalso.
  - assert (ratio < 1) by now apply Hlt.
    assert (required <= current) by now apply Hge. nra.
  - assert (~ ratio < 1) as Hnot
      by (intros H; apply Hlt in H; discriminate H).
    assert (~ required <= current) as Hshort
      by (intros H; apply Hge in H; discriminate H).
    apply Hnot. nra.
Qed.

(** X13.  One of the two messages about the optimal range is recommended
    exactly when the [optimalRatio] check has failed, never both.  With a
    positive required liquidity, which of the two is decided by the
    [sufficientLiquidity] check and not by the ratio: the message "below
    optimal range" goes only to a pool that also fails
    [sufficientLiquidity], and a pool that passes [sufficientLiquidity]
    but fails [optimalRatio] is told it is above the range. *)
Theorem optimal_range_message_follows_sufficiency :
  forall now liquidityParams this,
    let totalAssetValue :=
      field_default (LiquidityParams.totalAssetValue liquidityParams)
                    100000000 in
    let requiredRatio :=
      field_default (LiquidityParams.requiredLiquidityRatio liquidityParams)
                    0.20 in
    0 < totalAssetValue * requiredRatio ->
    exists r,
      outcome (validateLiquidityMechanisms now liquidityParams) this = Return r
      /\ let checks := LiquidityValidation.validations r in
         let recommendations := LiquidityValidation.recommendations r in
         (Validations.optimalRatio checks = false
          <-> In belowOptimal recommendations
              \/ In aboveOptimal recommendations)
         /\ ~ (In belowOptimal recommendations
               /\ In aboveOptimal recommendations)
         /\ (In belowOptimal recommendations ->
             Validations.sufficientLiquidity checks = false)
         /\ (Validations.sufficientLiquidity checks = true ->
             Validations.optimalRatio checks = false ->
             In aboveOptimal recommendations).
Proof.
  intros now lp this tav req Hrequired.
  unfold outcome, validateLiquidityMechanisms, bind, get, put, ret.
  cbn [fst]. eexists. split; [reflexivity|].
  cbn [LiquidityValidation.validations LiquidityValidation.recommendations].
  cbn zeta. fold tav req.
  set (cur := field_default (LiquidityParams.currentLiquidity lp) 15000000).
  set (checks := Validations.Build_t _ _ _ _).
  destruct (optimal_range_messages checks cur (tav * req)) as [Hbelow Habove].
  rewrite Hbelow, Habove.
  rewrite (below_one_iff cur (tav * req) Hrequired).
  change (Validations.sufficientLiquidity checks) with (ge cur (tav * req)).
  destruct (Validations.optimalRatio checks), (ge cur (tav * req)); simpl;
    intuition discriminate.
Qed.

(** ** Validation beside the ledger *)

(** X14.  A validation and a projection do not see each other: in either
    order they leave the same engine and return what they return alone; a
    validation changes no IRR estimation, and validating twice with the
    same parameters leaves what validating once leaves. *)
Theorem validation_and_projection_commute :
  forall nowProjection nowLiquidity projectionParams liquidityParams this,
    let project := calculateYieldProjection nowProjection projectionParams in
    let validate := validateLiquidityMechanisms nowLiquidity liquidityParams in
    engine_after validate (engine_after project this)
    = engine_after project (engine_after validate this)
    /\ outcome project (engine_after validate this) = outcome project this
    /\ outcome validate (engine_after project this) = outcome validate this
    /\ (forall nowIRR initialInvestment,
          outcome (calculatePhiHedgedIRR nowIRR initialInvestment)
                  (engine_after validate this)
          = outcome (calculatePhiHedgedIRR nowIRR initialInvestment) this)
    /\ engine_after validate (engine_after validate this)
       = engine_after validate this.
Proof.
  intros nowP nowL pp lp this project validate.
  split; [reflexivity|]. split; [reflexivity|]. split; [reflexivity|].
  split; [|reflexivity].
  intros nowIRR inv.
  unfold outcome, calculatePhiHedgedIRR, bind, get, ret, throw. simpl.
  destruct (Nat.eqb (List.length (Engine.cashFlows this)) 0); reflexivity.
Qed.


End FurtherProperties.

(** ** The Zakat flow and the engagement metrics *)

Section EngagementProperties.

Import Harlem4KARRender.

(** X16.  A Zakat flow of a transaction that is not negative.  The Zakat
    amount is the transaction times 0.025 and the main amount is the
    transaction less the Zakat amount; both lie between zero and the
    transaction.  The four shares are in the order community, education,
    infrastructure, emergency, from the largest to the smallest, none below
    zero and none above the Zakat amount.  The call adds the Zakat amount
    to the running contributions, which do not decrease, and leaves the
    reach, the active users and the configuration as they were. *)
Theorem zakat_flow_splits_within_the_amount :
  forall now transactionAmount this,
    0 <= transactionAmount ->
    let flow := fst (calculateZakatFlow now transactionAmount this) in
    let this' := snd (calculateZakatFlow now transactionAmount this) in
    let d := ZakatFlow.distribution flow in
    let b := Distribution.beneficiaries d in
    let m := Renderer.engagementMetrics this in
    let m' := Renderer.engagementMetrics this' in
    ZakatFlow.total flow = transactionAmount
    /\ Distribution.zakatAmount d = transactionAmount * 0.025
    /\ Distribution.mainAmount d
       = transactionAmount - Distribution.zakatAmount d
    /\ 0 <= Distribution.zakatAmount d <= transactionAmount
    /\ 0 <= Distribution.mainAmount d <= transactionAmount
    /\ Beneficiaries.community b <= Distribution.zakatAmount d
    /\ Beneficiaries.education b <= Beneficiaries.community b
    /\ Beneficiaries.infrastructure b <= Beneficiaries.education b
    /\ Beneficiaries.emergency b <= Beneficiaries.infrastructure b
    /\ 0 <= Beneficiaries.emergency b
    /\ EngagementMetrics.zakatContributions m'
       = EngagementMetrics.zakatContributions m + Distribution.zakatAmount d
    /\ EngagementMetrics.zakatContributions m
       <= EngagementMetrics.zakatContributions m'
    /\ EngagementMetrics.totalReach m' = EngagementMetrics.totalReach m
    /\ EngagementMetrics.activeUsers m' = EngagementMetrics.activeUsers m
    /\ Renderer.config this' = Renderer.config this.
Proof.
  intros now amount this Hamount. cbn zeta. unfold calculateZakatFlow. simpl.
  set (contributions :=
         EngagementMetrics.zakatContributions (Renderer.engagementMetrics this)).
  repeat split; lra.
Qed.

Lemma zakatFlows_contributions now amounts : forall this,
  Forall (fun amount => 0 <= amount) amounts ->
  let m := Renderer.engagementMetrics this in
  let m' := Renderer.engagementMetrics (zakatFlows now amounts this) in
  EngagementMetrics.zakatContributions m'
  = accumulatedZakat (EngagementMetrics.zakatContributions m) amounts
  /\ EngagementMetrics.zakatContributions m
     <= EngagementMetrics.zakatContributions m'
  /\ EngagementMetrics.totalReach m' = EngagementMetrics.totalReach m
  /\ EngagementMetrics.activeUsers m' = EngagementMetrics.activeUsers m
  /\ Renderer.config (zakatFlows now amounts this) = Renderer.config this.
Proof.
  unfold zakatFlows, accumulatedZakat.
  induction amounts as [|amount amounts IH]; intros this Hamounts; cbn zeta.
  - simpl. split; [reflexivity|]. split; [lra | repeat split].
  - cbn [fold_left]. inversion Hamounts as [|? ? Hamount Hrest]; subst.
    specialize (IH (snd (calculateZakatFlow now amount this)) Hrest).
    cbn zeta in IH. destruct IH as (Hc & Hle & Hr & Ha & Hcfg).
    rewrite Hc, Hr, Ha, Hcfg. split; [reflexivity|].
    split; [|repeat split].
    rewrite Hc in Hle. eapply Qle_trans; [|exact Hle].
    unfold calculateZakatFlow. simpl. lra.
Qed.

(** X17.  On a new renderer, after any sequence of Zakat flows of
    transactions that are not negative, the running contributions are the
    Zakat amounts of the calls, each its transaction times 0.025, added
    from zero in the order of the calls; they are not negative, and the
    reach, the active users and the configuration are those of the new
    renderer. *)
Theorem zakat_contributions_accumulate :
  forall now amounts,
    Forall (fun amount => 0 <= amount) amounts ->
    let this := constructor ARConfigOverride.empty in
    let this' := zakatFlows now amounts this in
    EngagementMetrics.zakatContributions (Renderer.engagementMetrics this')
    = accumulatedZakat 0 amounts
    /\ 0 <= EngagementMetrics.zakatContributions
              (Renderer.engagementMetrics this')
    /\ EngagementMetrics.totalReach (Renderer.engagementMetrics this') = 0
    /\ EngagementMetrics.activeUsers (Renderer.engagementMetrics this') = 0
    /\ Renderer.config this' = Renderer.config this.
Proof.
  intros now amounts Hamounts. cbn zeta.
  destruct (zakatFlows_contributions now amounts
              (constructor ARConfigOverride.empty) Hamounts)
    as (Hc & Hle & Hr & Ha & Hcfg).
  split; [exact Hc|]. split; [exact Hle|].
  split; [exact Hr | split; [exact Ha | exact Hcfg]].
Qed.

Lemma Math_min_spec a b :
  Math_min a b <= a /\ Math_min a b <= b
  /\ (a <= b -> Math_min a b = a) /\ (b < a -> Math_min a b = b).
Proof.
  unfold Math_min, le. pose proof (Qle_bool_iff a b) as Hle.
  destruct (Qle_bool a b).
  - assert (a <= b) by now apply Hle.
    split; [lra|]. split; [lra|]. split; [reflexivity|]. intros Hlt. lra.
  - assert (~ a <= b) as Hnot
      by (intros Hab; apply Hle in Hab; discriminate Hab).
    split; [lra|]. split; [lra|]. split; [contradiction | reflexivity].
Qed.

(** X18.  When [Math.random()] reads a value in [0, 1), an engagement
    reaches a whole number of architects between 500 and 1499 and adds it
    to the total reach; the active users are then the total reach capped
    at the target audience, so never above either; the Zakat contributions
    and the configuration stay as they were. *)
Theorem engagement_keeps_active_users_within_target :
  forall random randomUUID project this,
    0 <= random -> random < 1 ->
    let result := fst (engageArchitects random randomUUID project this) in
    let this' := snd (engageArchitects random randomUUID project this) in
    let reached :=
      Engagement.architectsReached (EngagementResult.engagement result) in
    let m := Renderer.engagementMetrics this in
    let m' := Renderer.engagementMetrics this' in
    let target := ARConfig.targetAudience (Renderer.config this) in
    (exists k : Z, reached = inject_Z k + 500 /\ (0 <= k <= 999)%Z)
    /\ EngagementMetrics.totalReach m'
       = EngagementMetrics.totalReach m + reached
    /\ EngagementMetrics.activeUsers m' <= target
    /\ EngagementMetrics.activeUsers m' <= EngagementMetrics.totalReach m'
    /\ (EngagementMetrics.totalReach m' <= target ->
        EngagementMetrics.activeUsers m' = EngagementMetrics.totalReach m')
    /\ (target < EngagementMetrics.totalReach m' ->
        EngagementMetrics.activeUsers m' = target)
    /\ EngagementMetrics.zakatContributions m'
       = EngagementMetrics.zakatContributions m
    /\ Renderer.config this' = Renderer.config this
    /\ EngagementResult.metrics result = m'
    /\ Progress.current (EngagementResult.progress result)
       = EngagementMetrics.activeUsers m'.
Proof.
  intros random uuid project this Hlow Hhigh. cbn zeta.
  unfold engageArchitects. simpl.
  set (total := EngagementMetrics.totalReach (Renderer.engagementMetrics this)
                + (Math_floor (random * 1000) + 500)).
  set (target := ARConfig.targetAudience (Renderer.config this)).
  destruct (Math_min_spec total target) as (Hmt & Hmg & Hsmall & Hlarge).
  split.
  { exists (Qfloor (random * 1000)). split; [reflexivity|]. split.
    - rewrite <- (Qfloor_Z 0). apply Qfloor_resp_le.
      change (inject_Z 0) with 0. lra.
    - assert (Qfloor (random * 1000) < 1000)%Z; [|lia].
      rewrite Zlt_Qlt. apply Qle_lt_trans with (random * 1000).
      + apply Qfloor_le.
      + change (inject_Z 1000) with 1000. lra. }
  repeat split; auto.
Qed.

(** Read right after an engagement, [getMetrics] reports the metrics that
    engagement returned, the target audience of the configuration, and as
    completion the percentage the engagement returned, followed by a
    percent sign. *)
Lemma getMetrics_after_an_engagement :
  forall random randomUUID project this,
    let result := fst (engageArchitects random randomUUID project this) in
    let metrics := getMetrics (snd (engageArchitects random randomUUID project
                                      this)) in
    RenderMetrics.totalReach metrics
    = EngagementMetrics.totalReach (EngagementResult.metrics result)
    /\ RenderMetrics.activeUsers metrics
       = Progress.current (EngagementResult.progress result)
    /\ RenderMetrics.zakatContributions metrics
       = EngagementMetrics.zakatContributions
           (Renderer.engagementMetrics this)
    /\ RenderMetrics.targetAudience metrics
       = Progress.target (EngagementResult.progress result)
    /\ RenderMetrics.completion metrics
       = (Progress.percentage (EngagementResult.progress result) ++ "%")%string.
Proof.
  intros random uuid project this. cbn zeta.
  unfold getMetrics, engageArchitects. simpl. repeat split.
Qed.

End EngagementProperties.

(** * Rounding to nearest on binary64

    Rounding is monotone: a result is on the same side of every double as
    the exact value it rounds.  Hence the orders that the specification
    states strictly hold of the doubles the code computes, weakly. *)

Section RoundingToNearest.

Import Stdlib.Floats.Floats.

Import Binary64.

#[local] Set Warnings "-inexact-float".

Local Open Scope Q_scope.

(** Powers of two, and values on one exponent. *)
Lemma pow2_pos e : 0 < pow2 e.
Proof. apply Qpower_0_lt. reflexivity. Qed.

Lemma pow2_add a b : pow2 (a + b) == pow2 a * pow2 b.
Proof. apply Qpower_plus. discriminate. Qed.

Lemma pow2_Z k : (0 <= k)%Z -> pow2 k == inject_Z (2 ^ k).
Proof. intros Hk. unfold pow2. now rewrite Zpower_Qpower. Qed.

Lemma pow2_le a b : (a <= b)%Z -> pow2 a <= pow2 b.
Proof. intros H. apply Qpower_le_compat_l; [exact H | discriminate]. Qed.

Lemma pow2_lt a b : (a < b)%Z -> pow2 a < pow2 b.
Proof. intros H. apply Qpower_lt_compat_l; [exact H | reflexivity]. Qed.

(** A mantissa moved to a lower exponent. *)
Lemma val_shift m e k : (0 <= k)%Z -> val m e == val (m * 2 ^ k) (e - k).
Proof.
  intros Hk. unfold val.
  replace e with ((e - k) + k)%Z at 1 by lia.
  rewrite pow2_add, (pow2_Z k Hk), inject_Z_mult. ring.
Qed.

Lemma val_le m n e : (m <= n)%Z -> val m e <= val n e.
Proof.
  intros H. unfold val. apply Qmult_le_compat_r.
  - now rewrite <- Zle_Qle.
  - apply Qlt_le_weak, pow2_pos.
Qed.

Lemma val_lt m n e : (m < n)%Z -> val m e < val n e.
Proof.
  intros H. unfold val. apply Qmult_lt_compat_r.
  - apply pow2_pos.
  - now rewrite <- Zlt_Qlt.
Qed.

Lemma val_le_inv m n e : val m e <= val n e -> (m <= n)%Z.
Proof.
  intros H. destruct (Z_le_gt_dec m n) as [Hle|Hgt]; [exact Hle|].
  exfalso. assert (val n e < val m e) by (apply val_lt; lia). lra.
Qed.

Lemma val_lt_inv m n e : val m e < val n e -> (m < n)%Z.
Proof.
  intros H. destruct (Z_lt_ge_dec m n) as [Hlt|Hge]; [exact Hlt|].
  exfalso. assert (val n e <= val m e) by (apply val_le; lia). lra.
Qed.

Lemma val_mul m n e f : val (m * n) (e + f) == val m e * val n f.
Proof. unfold val. rewrite pow2_add, inject_Z_mult. ring. Qed.

Lemma val_add m n e : val (m + n) e == val m e + val n e.
Proof. unfold val. rewrite inject_Z_plus. ring. Qed.

(** The number of binary digits. *)
Lemma digits2_pos_bounds p :
  (2 ^ (Z.pos (digits2_pos p) - 1) <= Z.pos p < 2 ^ Z.pos (digits2_pos p))%Z.
Proof.
  induction p as [p IH|p IH|]; cbn [digits2_pos].
  - rewrite Pos2Z.inj_succ.
    replace (Z.succ (Z.pos (digits2_pos p)) - 1)%Z
      with (Z.succ (Z.pos (digits2_pos p) - 1)) by lia.
    rewrite !Z.pow_succ_r by lia. lia.
  - rewrite Pos2Z.inj_succ.
    replace (Z.succ (Z.pos (digits2_pos p)) - 1)%Z
      with (Z.succ (Z.pos (digits2_pos p) - 1)) by lia.
    rewrite !Z.pow_succ_r by lia. lia.
  - simpl. lia.
Qed.

Lemma Zdigits2_bounds m :
  (0 < m)%Z -> (2 ^ (Zdigits2 m - 1) <= m < 2 ^ Zdigits2 m)%Z.
Proof.
  destruct m as [|p|p]; try lia. intros _. apply digits2_pos_bounds.
Qed.

Lemma Zdigits2_pos m : (0 < m)%Z -> (0 < Zdigits2 m)%Z.
Proof. destruct m; simpl; lia. Qed.

Lemma Zdigits2_unique m d :
  (2 ^ (d - 1) <= m < 2 ^ d)%Z -> (0 < d)%Z -> Zdigits2 m = d.
Proof.
  intros [Hlow Hhigh] Hd.
  assert (0 < m)%Z as Hm.
  { assert (0 < 2 ^ (d - 1))%Z by (apply Z.pow_pos_nonneg; lia). lia. }
  destruct (Zdigits2_bounds m Hm) as [Hl Hh].
  pose proof (Zdigits2_pos m Hm) as Hpos.
  destruct (Z.lt_trichotomy (Zdigits2 m) d) as [Hlt|[Heq|Hgt]];
    [exfalso|exact Heq|exfalso].
  - assert (2 ^ Zdigits2 m <= 2 ^ (d - 1))%Z
      by (apply Z.pow_le_mono_r; lia). lia.
  - assert (2 ^ d <= 2 ^ (Zdigits2 m - 1))%Z
      by (apply Z.pow_le_mono_r; lia). lia.
Qed.

(** ** Shifting a mantissa right *)

(** One place: the mantissa is halved, and a bit that was set is
    remembered. *)
Lemma shr_1_spec mrs :
  (0 <= shr_m mrs)%Z ->
  shr_m (shr_1 mrs) = (shr_m mrs / 2)%Z
  /\ inexact (shr_1 mrs) = Z.odd (shr_m mrs) || inexact mrs.
Proof.
  destruct mrs as [m r s]. unfold inexact. cbn [shr_m shr_r shr_s].
  intros Hm. destruct m as [|[p|p|]|p]; try lia; cbn [shr_1 shr_m shr_r shr_s].
  - split; [reflexivity|]. simpl. destruct r, s; reflexivity.
  - split.
    + rewrite Pos2Z.inj_xI. apply Z.div_unique with 1%Z; lia.
    + simpl. reflexivity.
  - split.
    + rewrite Pos2Z.inj_xO. apply Z.div_unique with 0%Z; lia.
    + simpl. destruct r, s; reflexivity.
  - split; [reflexivity|]. simpl. reflexivity.
Qed.

Lemma iter_pos_nat {A} (f : A -> A) p : forall x,
  iter_pos f p x = Nat.iter (Pos.to_nat p) f x.
Proof.
  induction p as [p IH|p IH|]; intros x; cbn [iter_pos].
  - rewrite !IH, Pos2Nat.inj_xI.
    replace (S (2 * Pos.to_nat p))%nat
      with (S (Pos.to_nat p + Pos.to_nat p))%nat by lia.
    rewrite !Nat.iter_swap. simpl Nat.iter at 3.
    now rewrite Nat.iter_add.
  - rewrite !IH, Pos2Nat.inj_xO.
    replace (2 * Pos.to_nat p)%nat with (Pos.to_nat p + Pos.to_nat p)%nat
      by lia.
    now rewrite Nat.iter_add.
  - reflexivity.
Qed.

Lemma shr_iter_spec k : forall mrs,
  (0 <= shr_m mrs)%Z ->
  let mrs' := Nat.iter k shr_1 mrs in
  shr_m mrs' = (shr_m mrs / 2 ^ Z.of_nat k)%Z
  /\ (inexact mrs' = false
      <-> inexact mrs = false /\ (shr_m mrs mod 2 ^ Z.of_nat k = 0)%Z).
Proof.
  induction k as [|k IH]; intros mrs Hm; cbn zeta.
  - simpl. rewrite Z.div_1_r, Z.mod_1_r. tauto.
  - rewrite Nat.iter_succ. destruct (IH mrs Hm) as [Hmk Hik].
    set (mk := Nat.iter k shr_1 mrs) in *.
    assert (0 <= shr_m mk)%Z as Hpos
      by (rewrite Hmk; apply Z.div_pos; [lia | apply Z.pow_pos_nonneg; lia]).
    destruct (shr_1_spec mk Hpos) as [Hm1 Hi1].
    rewrite Hm1, Hi1, Hmk.
    rewrite Nat2Z.inj_succ, Z.pow_succ_r by lia.
    assert (0 < 2 ^ Z.of_nat k)%Z as Hpow by (apply Z.pow_pos_nonneg; lia).
    split.
    + rewrite Z.div_div by lia. f_equal. lia.
    + rewrite orb_false_iff, Hik.
      rewrite (Z.mul_comm 2), Z.rem_mul_r by lia.
      rewrite <- Z.negb_even, negb_false_iff, Z.even_spec.
      pose proof (Z.mod_pos_bound (shr_m mrs) (2 ^ Z.of_nat k) Hpow) as Hb.
      pose proof (Z.mod_pos_bound (shr_m mrs / 2 ^ Z.of_nat k) 2) as Hb2.
      split.
      * intros ([q Hq] & Hin & Hmod). split; [exact Hin|].
        rewrite Hmod, Hq, (Z.mul_comm 2 q), Z.mod_mul by lia. lia.
      * intros (Hin & Hsum).
        assert (shr_m mrs mod 2 ^ Z.of_nat k = 0)%Z as Hmod by nia.
        assert ((shr_m mrs / 2 ^ Z.of_nat k) mod 2 = 0)%Z as Hev by nia.
        split; [|tauto].
        exists (shr_m mrs / 2 ^ Z.of_nat k / 2)%Z.
        pose proof (Z.div_mod (shr_m mrs / 2 ^ Z.of_nat k) 2). lia.
Qed.

Lemma loc_of_shr_record_exact mrs :
  loc_of_shr_record mrs = loc_Exact <-> inexact mrs = false.
Proof.
  destruct mrs as [m [] []]; unfold inexact; simpl; split;
    intros H; try discriminate; reflexivity.
Qed.

Lemma shr_record_of_loc_m m l : shr_m (shr_record_of_loc m l) = m.
Proof. destruct l as [|[]]; reflexivity. Qed.

Lemma shr_record_of_loc_inexact m l :
  inexact (shr_record_of_loc m l) = false <-> l = loc_Exact.
Proof.
  destruct l as [|[]]; unfold inexact; simpl; split; intros H;
    try discriminate; reflexivity.
Qed.

(** [shr] by [n >= 0] places: the quotient by [2^n], and whether anything
    was lost. *)
Lemma shr_spec m l e n :
  (0 <= m)%Z -> (0 <= n)%Z ->
  let '(mrs, e') := shr (shr_record_of_loc m l) e n in
  e' = (e + n)%Z
  /\ shr_m mrs = (m / 2 ^ n)%Z
  /\ (loc_of_shr_record mrs = loc_Exact
      <-> l = loc_Exact /\ (m mod 2 ^ n = 0)%Z).
Proof.
  intros Hm Hn. unfold shr. destruct n as [|p|p]; try lia.
  - rewrite Z.add_0_r, Z.div_1_r, Z.mod_1_r, shr_record_of_loc_m.
    split; [reflexivity|]. split; [reflexivity|].
    rewrite loc_of_shr_record_exact, shr_record_of_loc_inexact. tauto.
  - rewrite iter_pos_nat.
    pose proof (shr_iter_spec (Pos.to_nat p) (shr_record_of_loc m l)) as H.
    rewrite shr_record_of_loc_m in H. specialize (H Hm). cbn zeta in H.
    rewrite positive_nat_Z in H. destruct H as [H1 H2].
    split; [reflexivity|]. split; [exact H1|].
    rewrite loc_of_shr_record_exact, H2, shr_record_of_loc_inexact. tauto.
Qed.

(** Rounding to nearest keeps the mantissa or takes the next one, and
    keeps it when nothing was shifted out. *)
Lemma round_nearest_even_spec m l :
  round_nearest_even m l = m
  \/ (round_nearest_even m l = (m + 1)%Z /\ l <> loc_Exact).
Proof.
  destruct l as [|[]]; simpl; try (left; reflexivity).
  - destruct (Z.even m); [left; reflexivity | right; split; [reflexivity|discriminate]].
  - right. split; [reflexivity | discriminate].
Qed.

(** ** Rounding to binary64 *)

Lemma fexp_eq k : fexp prec emax k = Z.max (k - 53) (-1074).
Proof. reflexivity. Qed.

Lemma shr_no_shift mrs e n : (n <= 0)%Z -> shr mrs e n = (mrs, e).
Proof. destruct n; try reflexivity. lia. Qed.

(** [binary_round_aux] on a mantissa [mx] at [ex] that stands for the
    value [V], with [lx] telling whether [V] is above it: the answer is
    [V] rounded. *)
Lemma binary_round_aux_spec mx ex lx V :
  (0 <= mx)%Z ->
  (mx = 0%Z -> (ex <= -1074)%Z) ->
  (ex <= fexp prec emax (Zdigits2 mx + ex))%Z ->
  val mx ex <= V -> V < val (mx + 1) ex ->
  (lx <> loc_Exact -> val mx ex < V) ->
  exists m' e' m1,
    (-1074 <= e')%Z
    /\ val m' e' <= V /\ V < val (m' + 1) e'
    /\ (m1 = m' \/ (m1 = (m' + 1)%Z /\ val m' e' < V))
    /\ (0 <= m' < 2 ^ 53)%Z
    /\ ((-1074 < e')%Z -> (2 ^ 52 <= m')%Z)
    /\ forall sx, binary_round_aux prec emax sx mx ex lx = rounded sx m1 e'.
Proof.
  intros Hmx Hzero Hex Hlow Hhigh Hinexact.
  unfold binary_round_aux, shr_fexp, rounded.
  set (e1 := fexp prec emax (Zdigits2 mx + ex)) in *.
  set (n1 := (e1 - ex)%Z).
  assert (0 <= n1)%Z as Hn1 by (unfold n1; lia).
  pose proof (shr_spec mx lx ex n1 Hmx Hn1) as Hshr.
  destruct (shr (shr_record_of_loc mx lx) ex n1) as [mrs' e'].
  destruct Hshr as (He' & Hm' & Hloc).
  assert (e' = e1) as -> by (unfold n1 in He'; lia).
  set (m' := shr_m mrs') in *.
  assert (0 < 2 ^ n1)%Z as Hpow by (apply Z.pow_pos_nonneg; lia).
  assert (m' * 2 ^ n1 <= mx)%Z as Hfloor
    by (rewrite Hm', Z.mul_comm; apply Z.mul_div_le; lia).
  assert (mx < (m' + 1) * 2 ^ n1)%Z as Hceil.
  { rewrite Hm'. pose proof (Z.div_mod mx (2 ^ n1)).
    pose proof (Z.mod_pos_bound mx (2 ^ n1) Hpow). lia. }
  assert (forall k, val k e1 == val (k * 2 ^ n1) ex) as Hgrid.
  { intros k. rewrite (val_shift k e1 n1 Hn1). unfold n1.
    now replace (e1 - (e1 - ex))%Z with ex by lia. }
  assert (val m' e1 <= V) as Hlow'.
  { rewrite Hgrid. apply Qle_trans with (val mx ex); [|exact Hlow].
    now apply val_le. }
  assert (V < val (m' + 1) e1) as Hhigh'.
  { rewrite Hgrid. apply Qlt_le_trans with (val (mx + 1) ex); [exact Hhigh|].
    apply val_le. lia. }
  assert (loc_of_shr_record mrs' <> loc_Exact -> val m' e1 < V) as Hinexact'.
  { intros Hne.
    destruct (Z.eq_dec (mx mod 2 ^ n1) 0) as [Hmod|Hmod].
    - apply Qle_lt_trans with (val mx ex).
      + rewrite Hgrid. now apply val_le.
      + apply Hinexact. intros ->. apply Hne. apply Hloc. tauto.
    - apply Qlt_le_trans with (val mx ex); [|exact Hlow].
      rewrite Hgrid. apply val_lt.
      pose proof (Z.div_mod mx (2 ^ n1)).
      pose proof (Z.mod_pos_bound mx (2 ^ n1) Hpow). rewrite Hm'. lia. }
  assert (0 <= m')%Z as Hm'0 by (rewrite Hm'; apply Z.div_pos; lia).
  assert (m' < 2 ^ 53)%Z as Hm'53.
  { destruct (Z.eq_dec mx 0) as [->|Hnz].
    - rewrite Hm', Z.div_0_l by lia. reflexivity.
    - assert (0 < mx)%Z as Hpos by lia.
      destruct (Zdigits2_bounds mx Hpos) as [_ Hd].
      pose proof (Zdigits2_pos mx Hpos) as Hdpos.
      rewrite Hm'. apply Z.div_lt_upper_bound; [lia|].
      rewrite <- Z.pow_add_r by lia.
      apply Z.lt_le_trans with (2 ^ Zdigits2 mx)%Z; [exact Hd|].
      apply Z.pow_le_mono_r; [lia|].
      unfold n1, e1. rewrite fexp_eq. lia. }
  assert ((-1074 < e1)%Z -> (2 ^ 52 <= m')%Z) as Hnormal.
  { intros He.
    assert (0 < mx)%Z as Hpos.
    { destruct (Z.eq_dec mx 0) as [Hz|Hnz]; [|lia]. exfalso.
      specialize (Hzero Hz). subst mx. unfold e1 in He.
      rewrite fexp_eq in He. cbn [Zdigits2] in He. lia. }
    destruct (Zdigits2_bounds mx Hpos) as [Hd _].
    pose proof (Zdigits2_pos mx Hpos) as Hdpos.
    assert (n1 = Zdigits2 mx - 53)%Z as Hn
      by (unfold n1, e1 in *; rewrite fexp_eq in *; lia).
    rewrite Hm'. apply Z.div_le_lower_bound; [lia|].
    rewrite <- Z.pow_add_r by lia.
    replace (n1 + 52)%Z with (Zdigits2 mx - 1)%Z by lia. exact Hd. }
  set (m1 := round_nearest_even m' (loc_of_shr_record mrs')).
  assert (m1 = m' \/ (m1 = (m' + 1)%Z /\ val m' e1 < V)) as Hm1.
  { destruct (round_nearest_even_spec m' (loc_of_shr_record mrs'))
      as [H|[H Hne]]; [left; exact H | right; split; [exact H|]].
    now apply Hinexact'. }
  assert (-1074 <= e1)%Z as Hemin by (unfold e1; rewrite fexp_eq; lia).
  exists m', e1, m1.
  split; [exact Hemin|]. split; [exact Hlow'|]. split; [exact Hhigh'|].
  split; [exact Hm1|]. split; [lia|]. split; [exact Hnormal|]. intros sx.
  assert (0 <= m1 <= 2 ^ 53)%Z as Hm1b by (destruct Hm1 as [->|[-> _]]; lia).
  destruct (Z.eqb_spec m1 0) as [Hz|Hnz].
  - rewrite Hz. cbn [Zdigits2]. rewrite shr_no_shift.
    + now rewrite shr_record_of_loc_m.
    + rewrite fexp_eq. lia.
  - destruct (Z.eqb_spec m1 (2 ^ 53)) as [Hc|Hnc].
    + rewrite Hc.
      replace (fexp prec emax (Zdigits2 (2 ^ 53) + e1) - e1)%Z with 1%Z
        by (change (Zdigits2 (2 ^ 53)) with 54%Z; rewrite fexp_eq; lia).
      cbn [shr iter_pos shr_record_of_loc]. cbn [shr_1 shr_m].
      change (Z.pow_pos 2 53) with (Z.pos (2 ^ 53)).
      reflexivity.
    + assert (0 < m1 < 2 ^ 53)%Z as Hrange by lia.
      destruct (Zdigits2_bounds m1 (proj1 Hrange)) as [Hd _].
      pose proof (Zdigits2_pos m1 (proj1 Hrange)) as Hdpos.
      assert (Zdigits2 m1 <= 53)%Z as Hd53.
      { destruct (Z_le_gt_dec (Zdigits2 m1) 53) as [H|H]; [exact H|].
        exfalso.
        assert (2 ^ 53 <= 2 ^ (Zdigits2 m1 - 1))%Z
          by (apply Z.pow_le_mono_r; lia). lia. }
      rewrite shr_no_shift by (rewrite fexp_eq; lia).
      rewrite shr_record_of_loc_m.
      destruct m1 as [|p|p]; try lia. reflexivity.
Qed.

(** ** Finite doubles in order *)

(** A valid finite double: its exponent range, its 53 digits at most,
    and exactly 53 above the least exponent. *)
Lemma valid_finite s m e :
  valid_binary (S754_finite s m e) = true ->
  (-1074 <= e <= 971)%Z
  /\ (Z.pos m < 2 ^ 53)%Z
  /\ ((-1074 < e)%Z -> (2 ^ 52 <= Z.pos m)%Z).
Proof.
  cbn [SpecFloat.valid_binary]. unfold bounded, canonical_mantissa.
  rewrite andb_true_iff, Z.eqb_eq, Z.leb_le, fexp_eq.
  change (emax - prec)%Z with 971%Z. intros [Hcanon Hmax].
  pose proof (digits2_pos_bounds m) as [Hlow Hhigh].
  set (d := Z.pos (digits2_pos m)) in *.
  assert (0 < d)%Z by (unfold d; lia).
  split; [lia|]. split.
  - apply Z.lt_le_trans with (2 ^ d)%Z; [exact Hhigh|].
    apply Z.pow_le_mono_r; lia.
  - intros He. replace 52%Z with (d - 1)%Z by lia. exact Hlow.
Qed.

Lemma val_pow2 k e : (0 <= k)%Z -> val (2 ^ k) e == pow2 (k + e).
Proof. intros Hk. unfold val. now rewrite pow2_add, (pow2_Z k Hk). Qed.

Lemma valid_below m e s :
  valid_binary (S754_finite s m e) = true -> val (Z.pos m) e < pow2 (53 + e).
Proof.
  intros H. destruct (valid_finite _ _ _ H) as (_ & Hm & _).
  rewrite <- val_pow2 by lia. now apply val_lt.
Qed.

Lemma valid_above m e s :
  valid_binary (S754_finite s m e) = true -> (-1074 < e)%Z ->
  pow2 (52 + e) <= val (Z.pos m) e.
Proof.
  intros H He. destruct (valid_finite _ _ _ H) as (_ & _ & Hm).
  rewrite <- val_pow2 by lia. apply val_le. now apply Hm.
Qed.

Lemma valid_lt_exponent s1 m1 e1 s2 m2 e2 :
  valid_binary (S754_finite s1 m1 e1) = true ->
  valid_binary (S754_finite s2 m2 e2) = true ->
  (e1 < e2)%Z -> val (Z.pos m1) e1 < val (Z.pos m2) e2.
Proof.
  intros H1 H2 He.
  destruct (valid_finite _ _ _ H1) as (Hr1 & _).
  apply Qlt_le_trans with (pow2 (53 + e1)); [now apply (valid_below _ _ s1)|].
  apply Qle_trans with (pow2 (52 + e2)); [apply pow2_le; lia|].
  apply (valid_above _ _ s2); [exact H2 | lia].
Qed.

(** The order of two finite doubles that are not negative, as the code of
    [SFcompare] decides it. *)
Lemma SFleb_finite m1 e1 m2 e2 :
  SFleb (S754_finite false m1 e1) (S754_finite false m2 e2) = true
  <-> (e1 < e2)%Z \/ (e1 = e2 /\ (Z.pos m1 <= Z.pos m2)%Z).
Proof.
  unfold SFleb, SFcompare.
  destruct (Z.compare_spec e1 e2) as [He|He|He].
  - rewrite Pos.compare_cont_spec. cbn [Pos.switch_Eq].
    destruct (Pos.compare_spec m1 m2) as [Hm|Hm|Hm]; split; intros Hx;
      try reflexivity; try discriminate; lia.
  - split; [intros _; left; exact He | reflexivity].
  - split; [discriminate | lia].
Qed.

Lemma SFltb_finite m1 e1 m2 e2 :
  SFltb (S754_finite false m1 e1) (S754_finite false m2 e2) = true
  <-> (e1 < e2)%Z \/ (e1 = e2 /\ (Z.pos m1 < Z.pos m2)%Z).
Proof.
  unfold SFltb, SFcompare.
  destruct (Z.compare_spec e1 e2) as [He|He|He].
  - rewrite Pos.compare_cont_spec. cbn [Pos.switch_Eq].
    destruct (Pos.compare_spec m1 m2) as [Hm|Hm|Hm]; split; intros Hx;
      try reflexivity; try discriminate; lia.
  - split; [intros _; left; exact He | reflexivity].
  - split; [discriminate | lia].
Qed.

(** On valid doubles the order is the order of the values. *)
Lemma SFleb_val m1 e1 m2 e2 :
  valid_binary (S754_finite false m1 e1) = true ->
  valid_binary (S754_finite false m2 e2) = true ->
  (SFleb (S754_finite false m1 e1) (S754_finite false m2 e2) = true
   <-> val (Z.pos m1) e1 <= val (Z.pos m2) e2).
Proof.
  intros H1 H2. rewrite SFleb_finite. split.
  - intros [He|[-> Hm]].
    + apply Qlt_le_weak. now apply (valid_lt_exponent false _ _ false).
    + now apply val_le.
  - intros Hv. destruct (Z.lt_trichotomy e1 e2) as [He|[He|He]].
    + now left.
    + right. split; [exact He|]. subst e2. now apply val_le_inv in Hv.
    + exfalso.
      pose proof (valid_lt_exponent false _ _ false _ _ H2 H1 He). lra.
Qed.

Lemma SFltb_val m1 e1 m2 e2 :
  valid_binary (S754_finite false m1 e1) = true ->
  valid_binary (S754_finite false m2 e2) = true ->
  (SFltb (S754_finite false m1 e1) (S754_finite false m2 e2) = true
   <-> val (Z.pos m1) e1 < val (Z.pos m2) e2).
Proof.
  intros H1 H2. rewrite SFltb_finite. split.
  - intros [He|[-> Hm]].
    + now apply (valid_lt_exponent false _ _ false).
    + now apply val_lt.
  - intros Hv. destruct (Z.lt_trichotomy e1 e2) as [He|[He|He]].
    + now left.
    + right. split; [exact He|]. subst e2. now apply val_lt_inv in Hv.
    + exfalso.
      pose proof (valid_lt_exponent false _ _ false _ _ H2 H1 He). lra.
Qed.

(** ** Rounding keeps a value on its side of every double *)

(** A rounded value is a zero, a finite double or an infinity, of the
    sign given. *)
Lemma rounded_cases sx m1 e' :
  rounded sx m1 e' = S754_zero sx
  \/ (exists m e, rounded sx m1 e' = S754_finite sx m e)
  \/ rounded sx m1 e' = S754_infinity sx.
Proof.
  unfold rounded. destruct (m1 =? 0)%Z; [now left|].
  destruct (m1 =? 2 ^ 53)%Z.
  - destruct (e' + 1 <=? 971)%Z; [right; left; eauto | now right; right].
  - destruct (e' <=? 971)%Z; [right; left; eauto | now right; right].
Qed.

Lemma rounded_opp m1 e' : rounded true m1 e' = SFopp (rounded false m1 e').
Proof.
  unfold rounded. destruct (m1 =? 0)%Z; [reflexivity|].
  destruct (m1 =? 2 ^ 53)%Z.
  - now destruct (e' + 1 <=? 971)%Z.
  - now destruct (e' <=? 971)%Z.
Qed.

(** The value of the answer when it is finite, and what [V] is when the
    answer is a zero or an infinity. *)
Lemma rounded_finite m' e' m1 V sx mf ef :
  rounds m' e' m1 V ->
  rounded sx m1 e' = S754_finite sx mf ef ->
  val (Z.pos mf) ef == val m1 e' /\ (0 < m1)%Z.
Proof.
  intros (Hemin & Hlow & Hhigh & Hm1 & Hm' & Hnormal). unfold rounded.
  destruct (Z.eqb_spec m1 0) as [Hz|Hnz]; [discriminate|].
  assert (0 < m1)%Z as Hpos by (destruct Hm1 as [->|[-> _]]; lia).
  intros Hround. split; [|exact Hpos].
  destruct (Z.eqb_spec m1 (2 ^ 53)) as [Hc|Hnc].
  - destruct (e' + 1 <=? 971)%Z; [|discriminate Hround].
    injection Hround as <- <-. rewrite Hc.
    rewrite (val_shift (Z.pos (2 ^ 52)) (e' + 1) 1) by lia.
    replace (e' + 1 - 1)%Z with e' by lia. reflexivity.
  - destruct (e' <=? 971)%Z; [|discriminate Hround].
    injection Hround as <- <-. now rewrite Z2Pos.id.
Qed.

Lemma rounded_zero m' e' m1 V sx s :
  rounds m' e' m1 V -> rounded sx m1 e' = S754_zero s ->
  m1 = 0%Z /\ V < pow2 (-1074).
Proof.
  intros (Hemin & Hlow & Hhigh & Hm1 & Hm' & Hnormal). unfold rounded.
  destruct (Z.eqb_spec m1 0) as [Hz|Hnz].
  - intros _. split; [exact Hz|].
    assert (m' = 0)%Z as Hm0 by (destruct Hm1 as [<-|[H _]]; lia).
    assert (e' = -1074)%Z as ->.
    { destruct (Z.eq_dec e' (-1074)) as [H|H]; [exact H|].
      assert (2 ^ 52 <= m')%Z by (apply Hnormal; lia). lia. }
    rewrite Hm0 in Hhigh. unfold val in Hhigh. simpl (0 + 1)%Z in Hhigh.
    change (inject_Z 1) with 1 in Hhigh. now rewrite Qmult_1_l in Hhigh.
  - destruct (m1 =? 2 ^ 53)%Z;
      [destruct (e' + 1 <=? 971)%Z | destruct (e' <=? 971)%Z]; discriminate.
Qed.

Lemma rounded_infinity m' e' m1 V sx s :
  rounds m' e' m1 V -> rounded sx m1 e' = S754_infinity s ->
  pow2 1024 <= val m1 e'.
Proof.
  intros (Hemin & Hlow & Hhigh & Hm1 & Hm' & Hnormal). unfold rounded.
  destruct (Z.eqb_spec m1 0) as [Hz|Hnz]; [discriminate|].
  destruct (Z.eqb_spec m1 (2 ^ 53)) as [Hc|Hnc].
  - destruct (Z.leb_spec (e' + 1) 971) as [|Hover]; [discriminate|].
    intros _. rewrite Hc, val_pow2 by lia. apply pow2_le. lia.
  - destruct (Z.leb_spec e' 971) as [|Hover]; [discriminate|].
    intros _.
    apply Qle_trans with (pow2 (52 + e')); [apply pow2_le; lia|].
    rewrite <- val_pow2 by lia.
    apply Qle_trans with (val m' e').
    + apply val_le. apply Hnormal; lia.
    + destruct Hm1 as [->|[-> _]]; [apply Qle_refl | apply val_le; lia].
Qed.

Lemma positive_min mb eb s :
  valid_binary (S754_finite s mb eb) = true ->
  pow2 (-1074) <= val (Z.pos mb) eb.
Proof.
  intros Hb. destruct (valid_finite _ _ _ Hb) as (Heb & _).
  apply Qle_trans with (val 1 eb).
  - unfold val. change (inject_Z 1) with 1. rewrite Qmult_1_l.
    apply pow2_le. lia.
  - apply val_le. lia.
Qed.

(** No double lies strictly between [V] cut to its grid and the next
    point of the grid. *)
Lemma rounds_gap m' e' m1 V mb eb s :
  rounds m' e' m1 V ->
  valid_binary (S754_finite s mb eb) = true ->
  val m' e' < val (Z.pos mb) eb -> val (Z.pos mb) eb < val (m' + 1) e' ->
  False.
Proof.
  intros (Hemin & Hlow & Hhigh & Hm1 & Hm' & Hnormal) Hb Hlt Hgt.
  destruct (valid_finite _ _ _ Hb) as (Heb & Hmb & Hmb').
  pose proof (valid_below _ _ _ Hb) as Hb_below.
  destruct (Z_le_gt_dec e' eb) as [Hge|Hlt_e].
  - rewrite (val_shift (Z.pos mb) eb (eb - e')) in Hlt, Hgt by lia.
    replace (eb - (eb - e'))%Z with e' in Hlt, Hgt by lia.
    apply val_lt_inv in Hlt. apply val_lt_inv in Hgt. lia.
  - assert (2 ^ 52 <= m')%Z as Hn by (apply Hnormal; lia).
    assert (pow2 (52 + e') <= val m' e')
      by (rewrite <- val_pow2 by lia; now apply val_le).
    assert (pow2 (53 + eb) <= pow2 (52 + e')) by (apply pow2_le; lia).
    lra.
Qed.

Lemma rounds_value m' e' m1 V :
  rounds m' e' m1 V -> val m' e' <= val m1 e' /\ val m1 e' <= val (m' + 1) e'.
Proof.
  intros (_ & _ & _ & Hm1 & _).
  destruct Hm1 as [->|[-> _]]; split; try apply Qle_refl; apply val_le; lia.
Qed.

(** Monotonicity: a rounded value that is not negative is on the same
    side of every finite double as the value it rounds. *)
Lemma rounded_sandwich m' e' m1 V mb eb :
  rounds m' e' m1 V ->
  valid_binary (rounded false m1 e') = true ->
  valid_binary (S754_finite false mb eb) = true ->
  (val (Z.pos mb) eb <= V ->
   SFleb (S754_finite false mb eb) (rounded false m1 e') = true)
  /\ (V <= val (Z.pos mb) eb ->
      SFleb (rounded false m1 e') (S754_finite false mb eb) = true).
Proof.
  intros Hrounds Hr Hb.
  pose proof (rounds_value _ _ _ _ Hrounds) as [Hv1 Hv2].
  pose proof Hrounds as (Hemin & Hlow & Hhigh & Hm1 & Hm' & Hnormal).
  split.
  - intros Hle.
    assert (val (Z.pos mb) eb <= val m1 e') as Habove.
    { destruct (Qlt_le_dec (val m1 e') (val (Z.pos mb) eb)) as [Hlt|Hge];
        [exfalso | exact Hge].
      apply (rounds_gap _ _ _ _ _ _ _ Hrounds Hb); lra. }
    destruct (rounded_cases false m1 e') as [Hz|[(mf & ef & Hf)|Hi]].
    + exfalso. destruct (rounded_zero _ _ _ _ _ _ Hrounds Hz) as [_ Hsmall].
      pose proof (positive_min _ _ _ Hb). lra.
    + rewrite Hf in *. apply SFleb_val; [exact Hb | exact Hr|].
      destruct (rounded_finite _ _ _ _ _ _ _ Hrounds Hf) as [-> _].
      exact Habove.
    + rewrite Hi. reflexivity.
  - intros Hge.
    assert (val m1 e' <= val (Z.pos mb) eb) as Hbelow.
    { destruct Hm1 as [->|[-> Hstrict]]; [lra|].
      destruct (Qlt_le_dec (val (Z.pos mb) eb) (val (m' + 1) e'))
        as [Hlt|Hle]; [|exact Hle].
      exfalso. apply (rounds_gap _ _ _ _ _ _ _ Hrounds Hb); [lra | exact Hlt]. }
    destruct (rounded_cases false m1 e') as [Hz|[(mf & ef & Hf)|Hi]].
    + rewrite Hz. reflexivity.
    + rewrite Hf in *. apply SFleb_val; [exact Hr | exact Hb|].
      destruct (rounded_finite _ _ _ _ _ _ _ Hrounds Hf) as [-> _].
      exact Hbelow.
    + exfalso. pose proof (rounded_infinity _ _ _ _ _ _ Hrounds Hi) as Hbig.
      pose proof (valid_below _ _ _ Hb) as Hb_below.
      destruct (valid_finite _ _ _ Hb) as (Heb & _).
      assert (pow2 (53 + eb) <= pow2 1024) by (apply pow2_le; lia).
      lra.
Qed.

(** ** The operations on finite doubles *)

Lemma digits_product mx my :
  (Z.pos (digits2_pos mx) + Z.pos (digits2_pos my) - 1
   <= Z.pos (digits2_pos (mx * my)))%Z.
Proof.
  pose proof (digits2_pos_bounds mx) as [Hx _].
  pose proof (digits2_pos_bounds my) as [Hy _].
  pose proof (digits2_pos_bounds (mx * my)) as [_ Hxy].
  set (dx := Z.pos (digits2_pos mx)) in *.
  set (dy := Z.pos (digits2_pos my)) in *.
  set (d := Z.pos (digits2_pos (mx * my))) in *.
  assert (0 < dx)%Z by (unfold dx; lia).
  assert (0 < dy)%Z by (unfold dy; lia).
  assert (0 < d)%Z by (unfold d; lia).
  destruct (Z_le_gt_dec (dx + dy - 1) d) as [H'|H']; [exact H'|]. exfalso.
  assert (2 ^ d <= 2 ^ (dx + dy - 2))%Z by (apply Z.pow_le_mono_r; lia).
  assert (2 ^ (dx + dy - 2) = 2 ^ (dx - 1) * 2 ^ (dy - 1))%Z as Hsplit
    by (rewrite <- Z.pow_add_r by lia; f_equal; lia).
  rewrite Pos2Z.inj_mul in Hxy.
  assert (0 < 2 ^ (dx - 1))%Z by (apply Z.pow_pos_nonneg; lia).
  assert (0 < 2 ^ (dy - 1))%Z by (apply Z.pow_pos_nonneg; lia).
  nia.
Qed.

Lemma valid_digits s m e :
  valid_binary (S754_finite s m e) = true ->
  e = Z.max (Z.pos (digits2_pos m) + e - 53) (-1074).
Proof.
  cbn [SpecFloat.valid_binary]. unfold bounded, canonical_mantissa.
  rewrite andb_true_iff, Z.eqb_eq, fexp_eq. intros [H _]. lia.
Qed.

(** The product of two finite doubles is their exact product, rounded. *)
Lemma SFmul_finite sx mx ex sy my ey :
  valid_binary (S754_finite sx mx ex) = true ->
  valid_binary (S754_finite sy my ey) = true ->
  exists m' e' m1,
    rounds m' e' m1 (val (Z.pos mx) ex * val (Z.pos my) ey)
    /\ SFmul prec emax (S754_finite sx mx ex) (S754_finite sy my ey)
       = rounded (xorb sx sy) m1 e'.
Proof.
  intros Hx Hy. cbn [SFmul].
  destruct (binary_round_aux_spec (Z.pos (mx * my)) (ex + ey) loc_Exact
              (val (Z.pos mx) ex * val (Z.pos my) ey))
    as (m' & e' & m1 & H1 & H2 & H3 & H4 & H5 & H6 & H7).
  - lia.
  - discriminate.
  - pose proof (valid_digits _ _ _ Hx). pose proof (valid_digits _ _ _ Hy).
    pose proof (digits_product mx my). rewrite fexp_eq.
    cbn [Zdigits2]. lia.
  - rewrite Pos2Z.inj_mul, val_mul. apply Qle_refl.
  - rewrite <- val_mul, <- Pos2Z.inj_mul. apply val_lt. lia.
  - intros H. now contradiction H.
  - exists m', e', m1. split; [unfold rounds; tauto | apply H7].
Qed.

Lemma iter_xO m d : Z.pos (Pos.iter xO m d) = (Z.pos m * 2 ^ Z.pos d)%Z.
Proof.
  induction d as [|d IH] using Pos.peano_ind.
  - simpl. lia.
  - rewrite Pos.iter_succ, Pos2Z.inj_xO, IH, Pos2Z.inj_succ, Z.pow_succ_r by lia.
    lia.
Qed.

Lemma shl_align_spec mx ex ex' :
  snd (shl_align mx ex ex') = Z.min ex ex'
  /\ Z.pos (fst (shl_align mx ex ex'))
     = (Z.pos mx * 2 ^ (ex - Z.min ex ex'))%Z.
Proof.
  unfold shl_align. destruct (ex' - ex)%Z as [|d|d] eqn:Hd; cbn [fst snd].
  - replace (Z.min ex ex') with ex by lia. rewrite Z.sub_diag. split; lia.
  - replace (Z.min ex ex') with ex by lia. rewrite Z.sub_diag. split; lia.
  - replace (Z.min ex ex') with ex' by lia. split; [reflexivity|].
    rewrite iter_xO. f_equal. f_equal. lia.
Qed.

Lemma digits_shift m k :
  (0 <= k)%Z -> Zdigits2 (Z.pos m * 2 ^ k) = (Z.pos (digits2_pos m) + k)%Z.
Proof.
  intros Hk. pose proof (digits2_pos_bounds m) as [Hl Hh].
  assert (0 < 2 ^ k)%Z by (apply Z.pow_pos_nonneg; lia).
  apply Zdigits2_unique; [|lia]. split.
  - replace (Z.pos (digits2_pos m) + k - 1)%Z
      with (Z.pos (digits2_pos m) - 1 + k)%Z by lia.
    rewrite Z.pow_add_r by lia. nia.
  - rewrite Z.pow_add_r by lia. nia.
Qed.

(** A mantissa at any exponent, rounded to binary64. *)
Lemma binary_round_spec mx ex :
  exists m' e' m1,
    rounds m' e' m1 (val (Z.pos mx) ex)
    /\ forall sx, binary_round prec emax sx mx ex = rounded sx m1 e'.
Proof.
  unfold binary_round.
  pose proof (shl_align_spec mx ex
                (fexp prec emax (Z.pos (digits2_pos mx) + ex))) as [He Hm].
  destruct (shl_align mx ex (fexp prec emax (Z.pos (digits2_pos mx) + ex)))
    as [mz ez]. cbn [fst snd] in He, Hm.
  set (target := fexp prec emax (Z.pos (digits2_pos mx) + ex)) in *.
  assert (0 <= ex - ez)%Z as Hk by lia.
  assert (val (Z.pos mz) ez == val (Z.pos mx) ex) as Hv.
  { rewrite (val_shift (Z.pos mx) ex (ex - ez) Hk), Hm, He.
    now replace (ex - (ex - Z.min ex target))%Z with (Z.min ex target) by lia. }
  destruct (binary_round_aux_spec (Z.pos mz) ez loc_Exact (val (Z.pos mx) ex))
    as (m' & e' & m1 & H1 & H2 & H3 & H4 & H5 & H6 & H7).
  - lia.
  - discriminate.
  - rewrite Hm, He, digits_shift by lia.
    replace (Z.pos (digits2_pos mx) + (ex - Z.min ex target)
             + Z.min ex target)%Z
      with (Z.pos (digits2_pos mx) + ex)%Z by lia.
    fold target. lia.
  - rewrite Hv. apply Qle_refl.
  - rewrite <- Hv. apply val_lt. lia.
  - intros H. now contradiction H.
  - exists m', e', m1. split; [unfold rounds; tauto | exact H7].
Qed.

Lemma binary_normalize_spec S e :
  (S = 0%Z -> binary_normalize prec emax S e false = S754_zero false)
  /\ ((0 < S)%Z ->
      exists m' e' m1,
        rounds m' e' m1 (val S e)
        /\ binary_normalize prec emax S e false = rounded false m1 e')
  /\ ((S < 0)%Z ->
      exists m' e' m1,
        rounds m' e' m1 (val (- S) e)
        /\ binary_normalize prec emax S e false = rounded true m1 e').
Proof.
  destruct S as [|p|p]; (split; [|split]); intros H; try lia;
    try reflexivity; cbn [binary_normalize].
  - destruct (binary_round_spec p e) as (m' & e' & m1 & Hr & Heq).
    exists m', e', m1. split; [exact Hr | apply Heq].
  - destruct (binary_round_spec p e) as (m' & e' & m1 & Hr & Heq).
    exists m', e', m1. split; [exact Hr | apply Heq].
Qed.

Lemma aligned_value s m e ez :
  (ez <= e)%Z ->
  val (cond_Zopp s (Z.pos (fst (shl_align m e ez)))) ez == sval s m e.
Proof.
  intros Hle. destruct (shl_align_spec m e ez) as [_ Hm]. rewrite Hm.
  replace (Z.min e ez) with ez by lia.
  assert (val (Z.pos m * 2 ^ (e - ez)) ez == val (Z.pos m) e) as Hv.
  { rewrite (val_shift (Z.pos m) e (e - ez)) by lia.
    now replace (e - (e - ez))%Z with ez by lia. }
  destruct s; cbn [cond_Zopp sval]; [|exact Hv].
  rewrite <- Hv. unfold val. rewrite inject_Z_opp. ring.
Qed.

(** The sum and the difference of two finite doubles: the exact one, on
    the lower of the two exponents, normalised. *)
Lemma SFadd_finite sx mx ex sy my ey :
  let S :=
    (cond_Zopp sx (Z.pos (fst (shl_align mx ex (Z.min ex ey))))
     + cond_Zopp sy (Z.pos (fst (shl_align my ey (Z.min ex ey)))))%Z in
  val S (Z.min ex ey) == sval sx mx ex + sval sy my ey
  /\ SFadd prec emax (S754_finite sx mx ex) (S754_finite sy my ey)
     = binary_normalize prec emax S (Z.min ex ey) false.
Proof.
  cbn zeta. split; [|reflexivity].
  rewrite val_add, !aligned_value by lia. reflexivity.
Qed.

Lemma SFsub_finite sx mx ex sy my ey :
  let S :=
    (cond_Zopp sx (Z.pos (fst (shl_align mx ex (Z.min ex ey))))
     - cond_Zopp sy (Z.pos (fst (shl_align my ey (Z.min ex ey)))))%Z in
  val S (Z.min ex ey) == sval sx mx ex - sval sy my ey
  /\ SFsub prec emax (S754_finite sx mx ex) (S754_finite sy my ey)
     = binary_normalize prec emax S (Z.min ex ey) false.
Proof.
  cbn zeta. split; [|reflexivity].
  unfold Z.sub. rewrite val_add.
  assert (forall k e, val (- k) e == - val k e) as Hopp
    by (intros k e; unfold val; rewrite inject_Z_opp; ring).
  rewrite Hopp, !aligned_value by lia. ring.
Qed.

(** ** Division of finite doubles *)

Lemma new_location_exact nb k :
  new_location nb k <> loc_Exact -> k <> 0%Z.
Proof.
  intros H ->. apply H. unfold new_location, new_location_even,
    new_location_odd. now destruct (Z.even nb).
Qed.

Lemma val_pos m e : (0 < m)%Z -> 0 < val m e.
Proof.
  intros H. unfold val. apply Qmult_lt_0_compat; [|apply pow2_pos].
  change 0 with (inject_Z 0). now rewrite <- Zlt_Qlt.
Qed.

Lemma val_nonneg m e : (0 <= m)%Z -> 0 <= val m e.
Proof.
  intros H. unfold val. apply Qmult_le_0_compat.
  - change 0 with (inject_Z 0). now rewrite <- Zle_Qle.
  - apply Qlt_le_weak, pow2_pos.
Qed.

Lemma val_digits_low m e :
  pow2 (Z.pos (digits2_pos m) - 1 + e) <= val (Z.pos m) e.
Proof.
  pose proof (digits2_pos_bounds m) as [Hl _].
  rewrite <- val_pow2 by lia. now apply val_le.
Qed.

Lemma val_digits_high m e :
  val (Z.pos m) e < pow2 (Z.pos (digits2_pos m) + e).
Proof.
  pose proof (digits2_pos_bounds m) as [_ Hh].
  rewrite <- val_pow2 by lia. now apply val_lt.
Qed.

(** The quotient of two finite doubles is their exact quotient, rounded. *)
Lemma SFdiv_finite sx mx ex sy my ey :
  exists m' e' m1,
    rounds m' e' m1 (val (Z.pos mx) ex / val (Z.pos my) ey)
    /\ SFdiv prec emax (S754_finite sx mx ex) (S754_finite sy my ey)
       = rounded (xorb sx sy) m1 e'.
Proof.
  cbn [SFdiv]. unfold SFdiv_core_binary. cbn [Zdigits2].
  set (dx := Z.pos (digits2_pos mx)). set (dy := Z.pos (digits2_pos my)).
  set (k0 := (dx + ex - (dy + ey))%Z).
  set (e' := Z.min (fexp prec emax k0) (ex - ey)).
  set (s := (ex - ey - e')%Z).
  assert (0 <= s)%Z as Hs by (unfold s, e'; lia).
  set (m' := match s with
             | 0%Z => Z.pos mx
             | Z.pos _ => Z.shiftl (Z.pos mx) s
             | Z.neg _ => 0%Z
             end).
  assert (m' = Z.pos mx * 2 ^ s)%Z as Hm'.
  { unfold m'. destruct s as [|p|p] eqn:Es; try lia.
    now rewrite Z.shiftl_mul_pow2 by lia. }
  clearbody m'.
  pose proof (Z_div_mod m' (Z.pos my) eq_refl) as Hdiv.
  destruct (Z.div_eucl m' (Z.pos my)) as [q r]. destruct Hdiv as [Hqr Hr].
  set (D := val (Z.pos my) ey).
  set (V := val (Z.pos mx) ex / D).
  assert (0 < D) as HD by (apply val_pos; lia).
  assert (V * D == val (Z.pos mx) ex) as HV
    by (unfold V; field; lra).
  assert (val (Z.pos mx) ex == val q e' * D + val r (e' + ey)) as Hsplit.
  { rewrite (val_shift (Z.pos mx) ex s Hs), <- Hm', Hqr.
    replace (ex - s)%Z with (e' + ey)%Z by (unfold s; lia).
    rewrite val_add, (Z.mul_comm (Z.pos my) q), val_mul. reflexivity. }
  assert (0 <= q)%Z as Hq.
  { assert (0 <= m')%Z by (rewrite Hm'; apply Z.mul_nonneg_nonneg;
                           [lia | apply Z.pow_nonneg; lia]).
    nia. }
  assert (val r (e' + ey) < pow2 e' * D) as Hrem.
  { unfold D. apply Qlt_le_trans with (val (Z.pos my) (e' + ey)).
    - apply val_lt. lia.
    - unfold val. rewrite pow2_add. apply Qle_lteq. right. ring. }
  assert (0 <= val r (e' + ey)) as Hrem0 by (apply val_nonneg; lia).
  assert (val q e' <= V) as Hlow.
  { apply Qmult_le_r with D; [exact HD|]. rewrite HV, Hsplit. lra. }
  assert (V < val (q + 1) e') as Hhigh.
  { apply Qmult_lt_r with D; [exact HD|]. rewrite HV, Hsplit, val_add.
    assert (val 1 e' == pow2 e') as H1 by (unfold val; change (inject_Z 1) with 1; ring).
    rewrite H1. lra. }
  assert (pow2 (k0 - 1) < V) as Hbig.
  { apply Qmult_lt_r with D; [exact HD|]. rewrite HV.
    apply Qlt_le_trans with (pow2 (k0 - 1) * pow2 (dy + ey)).
    - apply Qmult_lt_l; [apply pow2_pos | apply val_digits_high].
    - rewrite <- pow2_add.
      replace (k0 - 1 + (dy + ey))%Z with (dx - 1 + ex)%Z by (unfold k0; lia).
      apply val_digits_low. }
  assert ((-1074 < e')%Z -> (2 ^ 52 <= q)%Z) as Hnormal.
  { intros He.
    assert (e' <= k0 - 53)%Z by (unfold e' in *; rewrite fexp_eq in *; lia).
    assert (val (2 ^ 52) e' < val (q + 1) e') as Hlt.
    { rewrite val_pow2 by lia.
      apply Qle_lt_trans with (pow2 (k0 - 1)); [apply pow2_le; lia|].
      lra. }
    apply val_lt_inv in Hlt. lia. }
  destruct (binary_round_aux_spec q e' (new_location (Z.pos my) r) V)
    as (m'' & e'' & m1 & H1 & H2 & H3 & H4 & H5 & H6 & H7).
  - exact Hq.
  - intros Hz. destruct (Z_le_gt_dec e' (-1074)) as [H|H]; [exact H|].
    assert (2 ^ 52 <= q)%Z by (apply Hnormal; lia). lia.
  - destruct (Z_le_gt_dec e' (-1074)) as [H|H].
    + rewrite fexp_eq. lia.
    + assert (2 ^ 52 <= q)%Z as Hq52 by (apply Hnormal; lia).
      assert (0 < q)%Z as Hqpos by lia.
      destruct (Zdigits2_bounds q Hqpos) as [_ Hd].
      assert (53 <= Zdigits2 q)%Z.
      { destruct (Z_le_gt_dec 53 (Zdigits2 q)) as [H'|H']; [exact H'|].
        exfalso.
        assert (2 ^ Zdigits2 q <= 2 ^ 52)%Z
          by (apply Z.pow_le_mono_r; lia). lia. }
      rewrite fexp_eq. lia.
  - exact Hlow.
  - exact Hhigh.
  - intros Hloc. apply new_location_exact in Hloc.
    apply Qmult_lt_r with D; [exact HD|]. rewrite HV, Hsplit.
    assert (0 < val r (e' + ey)) by (apply val_pos; lia). lra.
  - exists m'', e'', m1. split; [unfold rounds; tauto | apply H7].
Qed.

(** ** Results that are zero or above *)

(** What is above a positive double *)
Lemma SFltb_finite_cases m e y :
  valid_binary (S754_finite false m e) = true ->
  valid_binary y = true ->
  SFltb (S754_finite false m e) y = true ->
  y = S754_infinity false
  \/ exists m2 e2, y = S754_finite false m2 e2
                   /\ val (Z.pos m) e < val (Z.pos m2) e2.
Proof.
  intros Hx Hy H. destruct y as [s|s| |s m2 e2].
  - discriminate H.
  - destruct s; [discriminate H | now left].
  - discriminate H.
  - destruct s.
    + discriminate H.
    + right. exists m2, e2. split; [reflexivity|].
      now apply SFltb_val.
Qed.

Lemma SFleb_finite_cases m e y :
  valid_binary (S754_finite false m e) = true ->
  valid_binary y = true ->
  SFleb (S754_finite false m e) y = true ->
  y = S754_infinity false
  \/ exists m2 e2, y = S754_finite false m2 e2
                   /\ val (Z.pos m) e <= val (Z.pos m2) e2.
Proof.
  intros Hx Hy H. destruct y as [s|s| |s m2 e2].
  - discriminate H.
  - destruct s; [discriminate H | now left].
  - discriminate H.
  - destruct s.
    + discriminate H.
    + right. exists m2, e2. split; [reflexivity|].
      now apply SFleb_val.
Qed.

Lemma SFltb_zero_cases y :
  SFltb (S754_zero false) y = true ->
  y = S754_infinity false \/ exists m e, y = S754_finite false m e.
Proof.
  intros H. destruct y as [s|s| |s m e]; try discriminate H.
  - destruct s; [discriminate H | now left].
  - destruct s; [discriminate H | right; now exists m, e].
Qed.

Lemma rounded_nonnegative m1 e' : nonnegative (rounded false m1 e').
Proof.
  destruct (rounded_cases false m1 e') as [H|[H|H]]; unfold nonnegative; auto.
Qed.

Lemma SFdiv_nonnegative m e y :
  y = S754_infinity false \/ (exists m2 e2, y = S754_finite false m2 e2) ->
  nonnegative (SFdiv prec emax (S754_finite false m e) y).
Proof.
  intros [->|(m2 & e2 & ->)].
  - left. reflexivity.
  - destruct (SFdiv_finite false m e false m2 e2) as (m' & e' & m1 & _ & ->).
    apply rounded_nonnegative.
Qed.

Lemma SFmul_nonnegative x m e :
  valid_binary x = true ->
  valid_binary (S754_finite false m e) = true ->
  nonnegative x ->
  nonnegative (SFmul prec emax x (S754_finite false m e)).
Proof.
  intros Vx Vy [->|[(mx & ex & ->)| ->]].
  - left. reflexivity.
  - destruct (SFmul_finite false mx ex false m e Vx Vy)
      as (m' & e' & m1 & _ & ->).
    apply rounded_nonnegative.
  - right. right. reflexivity.
Qed.

(** Adding a non-negative double does not go below *)
Lemma SFadd_nonnegative m e y :
  valid_binary (S754_finite false m e) = true ->
  valid_binary y = true ->
  valid_binary (SFadd prec emax (S754_finite false m e) y) = true ->
  nonnegative y ->
  SFleb (S754_finite false m e) (SFadd prec emax (S754_finite false m e) y)
  = true.
Proof.
  intros Vx Vy Vr [->|[(my & ey & ->)| ->]].
  - cbn [SFadd]. apply SFleb_val; [exact Vx | exact Vx | apply Qle_refl].
  - revert Vr.
    destruct (SFadd_finite false m e false my ey) as [HS ->].
    cbv zeta in HS. cbn [sval] in HS.
    set (S := (cond_Zopp false _ + cond_Zopp false _)%Z) in *.
    assert (0 < val (Z.pos my) ey) by (apply val_pos; lia).
    assert (0 < val (Z.pos m) e) by (apply val_pos; lia).
    assert (0 < S)%Z as HSpos.
    { destruct (Z_lt_le_dec 0 S) as [Hp|Hp]; [exact Hp|]. exfalso.
      assert (val S (Z.min e ey) <= 0).
      { unfold val. assert (inject_Z S <= 0)
          by (change 0 with (inject_Z 0); now rewrite <- Zle_Qle).
        pose proof (pow2_pos (Z.min e ey)). nra. }
      lra. }
    destruct (binary_normalize_spec S (Z.min e ey)) as (_ & Hpos & _).
    destruct (Hpos HSpos) as (m' & e' & m1 & Hr & ->).
    intros Vr.
    apply (proj1 (rounded_sandwich m' e' m1 _ m e Hr Vr Vx)).
    lra.
  - reflexivity.
Qed.

(** Multiplying a positive double by one that is at least 1 *)
Lemma SFmul_at_least_one mb eb y :
  valid_binary (S754_finite false mb eb) = true ->
  valid_binary y = true ->
  valid_binary (SFmul prec emax (S754_finite false mb eb) y) = true ->
  (y = S754_infinity false
   \/ exists m e, y = S754_finite false m e /\ 1 <= val (Z.pos m) e) ->
  SFleb (S754_finite false mb eb) (SFmul prec emax (S754_finite false mb eb) y)
  = true.
Proof.
  intros Vb Vy Vr [->|(m & e & -> & Hge)].
  - reflexivity.
  - revert Vr.
    destruct (SFmul_finite false mb eb false m e Vb Vy)
      as (m' & e' & m1 & Hr & ->).
    intros Vr. cbn [xorb] in *.
    apply (proj1 (rounded_sandwich m' e' m1 _ mb eb Hr Vr Vb)).
    assert (0 < val (Z.pos mb) eb) by (apply val_pos; lia). nra.
Qed.

Local Open Scope float_scope.

(** The doubles 1 and 0. *)
Lemma Prim2SF_one : Prim2SF 1 = S754_finite false 4503599627370496 (-52).
Proof. reflexivity. Qed.

Lemma val_one : (val 4503599627370496 (-52) == 1)%Q.
Proof. reflexivity. Qed.

Lemma Prim2SF_zero : Prim2SF 0 = S754_zero false.
Proof. reflexivity. Qed.

(** A positive double times a double that is at least 1 *)
Lemma mul_at_least_one (b m : float) :
  (0 <? b) = true -> (1 <=? m) = true -> (b <=? b * m) = true.
Proof.
  intros Hb Hm.
  rewrite ltb_spec, Prim2SF_zero in Hb.
  rewrite leb_spec, Prim2SF_one in Hm. rewrite leb_spec.
  pose proof (Prim2SF_valid 1) as V1. rewrite Prim2SF_one in V1.
  pose proof (Prim2SF_valid b) as Vb.
  pose proof (Prim2SF_valid m) as Vm.
  pose proof (Prim2SF_valid (b * m)) as Vr.
  rewrite mul_spec in Vr |- *. unfold SF64mul in *.
  destruct (SFltb_zero_cases _ Hb) as [Eb|(mb & eb & Eb)]; rewrite Eb in *.
  - destruct (SFleb_finite_cases _ _ _ V1 Vm Hm) as [->|(m2 & e2 & -> & _)];
      reflexivity.
  - apply SFmul_at_least_one; try assumption.
    destruct (SFleb_finite_cases _ _ _ V1 Vm Hm) as [->|(m2 & e2 & -> & Hle)].
    + now left.
    + right. exists m2, e2. split; [reflexivity|].
      rewrite val_one in Hle. exact Hle.
Qed.

(** [1 + (1 / phi) * 0.15] for [phi] above 1 *)
Lemma hedge_multiplier_at_least_one (phi : float) :
  (1 <? phi) = true -> (1 <=? 1 + (1 / phi) * 0.15) = true.
Proof.
  intros Hphi.
  rewrite ltb_spec in Hphi. rewrite leb_spec.
  pose proof (Prim2SF_valid 1) as V1.
  pose proof (Prim2SF_valid phi) as Vphi.
  pose proof (Prim2SF_valid (1 / phi)) as Vq.
  pose proof (Prim2SF_valid 0.15) as Vc.
  pose proof (Prim2SF_valid ((1 / phi) * 0.15)) as Vh.
  pose proof (Prim2SF_valid (1 + (1 / phi) * 0.15)) as Vm.
  rewrite add_spec in Vm |- *.
  rewrite mul_spec in Vm, Vh |- *. rewrite div_spec in Vm, Vh, Vq |- *.
  unfold SF64mul, SF64add, SF64div in *.
  rewrite Prim2SF_one in *.
  set (c := Prim2SF 0.15) in *.
  assert (exists mc ec, c = S754_finite false mc ec) as (mc & ec & Hc)
    by (eexists; eexists; reflexivity).
  clearbody c. subst c.
  assert (nonnegative (SFdiv prec emax
            (S754_finite false 4503599627370496 (-52)) (Prim2SF phi))) as Hq.
  { apply SFdiv_nonnegative.
    destruct (SFltb_finite_cases _ _ _ V1 Vphi Hphi) as [H|(m2 & e2 & H & _)];
      [now left | right; now exists m2, e2]. }
  set (q := SFdiv prec emax _ (Prim2SF phi)) in *. clearbody q.
  pose proof (SFmul_nonnegative q mc ec Vq Vc Hq) as Hh.
  apply SFadd_nonnegative; assumption.
Qed.

(** ** Results within a bound *)

Local Open Scope Q_scope.

Lemma rounded_valid_sign m1 e' :
  valid_binary (rounded true m1 e') = valid_binary (rounded false m1 e').
Proof.
  unfold rounded.
  destruct (m1 =? 0)%Z; [reflexivity|].
  destruct (m1 =? 2 ^ 53)%Z.
  - destruct (e' + 1 <=? 971)%Z; reflexivity.
  - destruct (e' <=? 971)%Z; reflexivity.
Qed.

(** A value of magnitude at most a double rounds to a magnitude at most
    that double. *)
Lemma rounded_within m' e' m1 V s mb eb :
  rounds m' e' m1 V ->
  valid_binary (rounded s m1 e') = true ->
  valid_binary (S754_finite false mb eb) = true ->
  V <= val (Z.pos mb) eb ->
  within (val (Z.pos mb) eb) s (rounded s m1 e').
Proof.
  intros Hr Vr Vb HV.
  assert (valid_binary (rounded false m1 e') = true) as Vr'
    by (destruct s; [now rewrite <- rounded_valid_sign | exact Vr]).
  pose proof (proj2 (rounded_sandwich m' e' m1 V mb eb Hr Vr' Vb) HV) as Hle.
  destruct (rounded_cases false m1 e') as [H|[(m & e & H)|H]].
  - left. exists s. unfold rounded in *.
    destruct (m1 =? 0)%Z; [reflexivity|].
    destruct (m1 =? 2 ^ 53)%Z;
      [destruct (e' + 1 <=? 971)%Z | destruct (e' <=? 971)%Z]; discriminate H.
  - right. exists m, e. split.
    + unfold rounded in *.
      destruct (m1 =? 0)%Z; [discriminate H|].
      destruct (m1 =? 2 ^ 53)%Z;
        [destruct (e' + 1 <=? 971)%Z | destruct (e' <=? 971)%Z];
        try discriminate H; injection H as <- <-; reflexivity.
    + rewrite H in Hle, Vr'. now apply SFleb_val in Hle.
  - rewrite H in Hle. discriminate Hle.
Qed.

(** 1 / y for y above 1 *)
Lemma SFdiv_one_within y :
  valid_binary y = true ->
  valid_binary (SFdiv prec emax (S754_finite false 4503599627370496 (-52)) y)
  = true ->
  (y = S754_infinity false
   \/ exists m e, y = S754_finite false m e
                  /\ val 4503599627370496 (-52) < val (Z.pos m) e) ->
  within (val 4503599627370496 (-52)) false
    (SFdiv prec emax (S754_finite false 4503599627370496 (-52)) y).
Proof.
  intros Vy Vq [->|(m & e & -> & Hgt)].
  - left. now exists false.
  - revert Vq.
    destruct (SFdiv_finite false 4503599627370496 (-52) false m e)
      as (m' & e' & m1 & Hr & ->).
    cbn [xorb]. intros Vq.
    apply (rounded_within m' e' m1 _ false _ _ Hr Vq); [reflexivity|].
    rewrite val_one in *.
    assert (0 < val (Z.pos m) e) as Hpos by lra.
    apply Qle_shift_div_r; [exact Hpos | lra].
Qed.

(** x - 1 for x between 0 and 1 *)
Lemma SFsub_one_within x :
  valid_binary x = true ->
  valid_binary (SFsub prec emax x (S754_finite false 4503599627370496 (-52)))
  = true ->
  within (val 4503599627370496 (-52)) false x ->
  within (val 4503599627370496 (-52)) true
    (SFsub prec emax x (S754_finite false 4503599627370496 (-52))).
Proof.
  intros Vx Vd [(s & ->)|(m & e & -> & Hle)].
  - right. exists 4503599627370496%positive, (-52)%Z. split; [reflexivity|].
    apply Qle_refl.
  - revert Vd.
    destruct (SFsub_finite false m e false 4503599627370496 (-52)) as [HS ->].
    cbv zeta in HS. cbn [sval] in HS.
    set (S := (cond_Zopp false _ - cond_Zopp false _)%Z) in *.
    clearbody S.
    destruct (binary_normalize_spec S (Z.min e (-52))) as (Hz & Hp & Hn).
    assert (0 < val (Z.pos m) e) as Hpos by (apply val_pos; lia).
    destruct (Z.lt_trichotomy S 0) as [Hneg|[Hzero|Hgt]].
    + destruct (Hn Hneg) as (m' & e' & m1 & Hr & ->). intros Vd.
      apply (rounded_within m' e' m1 _ true _ _ Hr Vd); [reflexivity|].
      assert (val (- S) (Z.min e (-52)) == - val S (Z.min e (-52))) as ->
        by (unfold val; rewrite inject_Z_opp; ring).
      rewrite HS. lra.
    + rewrite (Hz Hzero). intros _. left. now exists false.
    + exfalso.
      assert (0 < val S (Z.min e (-52))) by (apply val_pos; exact Hgt).
      lra.
Qed.

(** A product with a positive double below 1 stays within *)
Lemma SFmul_within B s x mc ec :
  valid_binary x = true ->
  valid_binary (S754_finite false mc ec) = true ->
  valid_binary (SFmul prec emax x (S754_finite false mc ec)) = true ->
  B <= 1 ->
  within B s x ->
  within (val (Z.pos mc) ec) s (SFmul prec emax x (S754_finite false mc ec)).
Proof.
  intros Vx Vc Vt HB [(s' & ->)|(m & e & -> & Hle)].
  - left. now exists (xorb s' false).
  - revert Vt.
    destruct (SFmul_finite s m e false mc ec Vx Vc)
      as (m' & e' & m1 & Hr & ->).
    rewrite xorb_false_r. intros Vt.
    apply (rounded_within m' e' m1 _ s _ _ Hr Vt Vc).
    assert (0 < val (Z.pos mc) ec) by (apply val_pos; lia).
    assert (0 < val (Z.pos m) e) by (apply val_pos; lia).
    nra.
Qed.

(** 1 + t for a small non-positive t is a positive double, at most 1 *)
Lemma SFadd_one_within B t :
  valid_binary t = true ->
  valid_binary (SFadd prec emax (S754_finite false 4503599627370496 (-52)) t)
  = true ->
  B < 1 ->
  within B true t ->
  exists m e,
    SFadd prec emax (S754_finite false 4503599627370496 (-52)) t
    = S754_finite false m e
    /\ val (Z.pos m) e <= 1.
Proof.
  intros Vt Vm HB [(s & ->)|(m & e & -> & Hle)].
  - exists 4503599627370496%positive, (-52)%Z. split; [reflexivity|].
    rewrite val_one. apply Qle_refl.
  - revert Vm.
    destruct (SFadd_finite false 4503599627370496 (-52) true m e) as [HS ->].
    cbv zeta in HS. cbn [sval] in HS. rewrite val_one in HS.
    set (S := (cond_Zopp false _ + cond_Zopp true _)%Z) in *.
    clearbody S.
    destruct (binary_normalize_spec S (Z.min (-52) e)) as (_ & Hp & _).
    assert (0 < val (Z.pos m) e) as Hpos by (apply val_pos; lia).
    assert (0 < S)%Z as HSpos.
    { destruct (Z_lt_le_dec 0 S) as [H|H]; [exact H|]. exfalso.
      assert (val S (Z.min (-52) e) <= 0).
      { unfold val. assert (inject_Z S <= 0)
          by (change 0 with (inject_Z 0); now rewrite <- Zle_Qle).
        pose proof (pow2_pos (Z.min (-52) e)). nra. }
      lra. }
    destruct (Hp HSpos) as (m' & e' & m1 & Hr & ->). intros Vm.
    assert (within (val 4503599627370496 (-52)) false (rounded false m1 e'))
      as [(s' & Hz)|(m2 & e2 & -> & H2)].
    { apply (rounded_within m' e' m1 _ false _ _ Hr Vm); [reflexivity|].
      rewrite HS, val_one. lra. }
    + exfalso. destruct (rounded_zero _ _ _ _ _ _ Hr Hz) as [_ Hsmall].
      rewrite HS in Hsmall.
      assert (val 1 (Z.min (-52) e) <= val S (Z.min (-52) e))
        by (apply val_le; lia).
      assert (pow2 (-1074) <= val 1 (Z.min (-52) e)).
      { unfold val. change (inject_Z 1) with 1. rewrite Qmult_1_l.
        apply pow2_le. apply valid_finite in Vt. lia. }
      lra.
    + exists m2, e2. split; [reflexivity|]. rewrite val_one in H2. exact H2.
Qed.

(** A product with a positive double that is at most 1 *)
Lemma SFmul_at_most_one x m e :
  valid_binary x = true ->
  valid_binary (S754_finite false m e) = true ->
  valid_binary (SFmul prec emax x (S754_finite false m e)) = true ->
  val (Z.pos m) e <= 1 ->
  (x = S754_infinity false \/ exists mx ex, x = S754_finite false mx ex) ->
  SFleb (SFmul prec emax x (S754_finite false m e)) x = true.
Proof.
  intros Vx Vm Vr Hle [->|(mx & ex & ->)].
  - reflexivity.
  - revert Vr.
    destruct (SFmul_finite false mx ex false m e Vx Vm)
      as (m' & e' & m1 & Hr & ->).
    cbn [xorb]. intros Vr.
    apply (proj2 (rounded_sandwich m' e' m1 _ mx ex Hr Vr Vx)).
    assert (0 < val (Z.pos mx) ex) by (apply val_pos; lia).
    assert (0 < val (Z.pos m) e) by (apply val_pos; lia).
    nra.
Qed.

Local Open Scope float_scope.

(** A positive double times a positive double that is at most 1 *)
Lemma mul_at_most_one (a m : float) :
  (0 <? a) = true -> (0 <? m) = true -> (m <=? 1) = true ->
  (a * m <=? a) = true.
Proof.
  intros Ha Hm0 Hm1.
  rewrite ltb_spec, Prim2SF_zero in Ha, Hm0.
  rewrite leb_spec, Prim2SF_one in Hm1. rewrite leb_spec.
  pose proof (Prim2SF_valid 1) as V1. rewrite Prim2SF_one in V1.
  pose proof (Prim2SF_valid a) as Va.
  pose proof (Prim2SF_valid m) as Vm.
  pose proof (Prim2SF_valid (a * m)) as Vr.
  rewrite mul_spec in Vr |- *. unfold SF64mul in *.
  destruct (SFltb_zero_cases _ Hm0) as [Em|(mm & em & Em)]; rewrite Em in *.
  - discriminate Hm1.
  - apply SFmul_at_most_one; try assumption.
    + apply (SFleb_val _ _ _ _ Vm V1) in Hm1. rewrite val_one in Hm1.
      exact Hm1.
    + destruct (SFltb_zero_cases _ Ha) as [H|(mb & eb & H)];
        [now left | right; now exists mb, eb].
Qed.

(** [1 + (1 / phi - 1) * 0.1] for [phi] above 1 *)
Lemma phi_multiplier_bounds (phi : float) :
  (1 <? phi) = true ->
  (0 <? 1 + (1 / phi - 1) * 0.1) = true
  /\ (1 + (1 / phi - 1) * 0.1 <=? 1) = true.
Proof.
  intros Hphi.
  rewrite ltb_spec in Hphi. rewrite ltb_spec, leb_spec.
  pose proof (Prim2SF_valid 1) as V1.
  pose proof (Prim2SF_valid phi) as Vphi.
  pose proof (Prim2SF_valid (1 / phi)) as Vq.
  pose proof (Prim2SF_valid 0.1) as Vc.
  pose proof (Prim2SF_valid (1 / phi - 1)) as Vd.
  pose proof (Prim2SF_valid ((1 / phi - 1) * 0.1)) as Vt.
  pose proof (Prim2SF_valid (1 + (1 / phi - 1) * 0.1)) as Vm.
  rewrite add_spec in Vm |- *.
  rewrite mul_spec in Vm, Vt |- *.
  rewrite sub_spec in Vm, Vt, Vd |- *.
  rewrite div_spec in Vm, Vt, Vd, Vq |- *.
  unfold SF64mul, SF64add, SF64sub, SF64div in *.
  rewrite Prim2SF_one, ?Prim2SF_zero in *.
  set (c := Prim2SF 0.1) in *.
  assert (exists mc ec, c = S754_finite false mc ec
                        /\ (val (Z.pos mc) ec < 1)%Q) as (mc & ec & Hc & Hc1).
  { eexists; eexists; split; [reflexivity|]. reflexivity. }
  clearbody c. subst c.
  assert (within (val 4503599627370496 (-52)) false
            (SFdiv prec emax (S754_finite false 4503599627370496 (-52))
               (Prim2SF phi))) as Hq.
  { apply SFdiv_one_within; try assumption.
    destruct (SFltb_finite_cases _ _ _ V1 Vphi Hphi) as [H|(m2 & e2 & H & Hlt)];
      [now left | right; now exists m2, e2]. }
  set (q := SFdiv prec emax _ (Prim2SF phi)) in *. clearbody q.
  pose proof (SFsub_one_within q Vq Vd Hq) as Hd.
  set (d := SFsub prec emax q _) in *. clearbody d.
  assert (val 4503599627370496 (-52) <= 1)%Q as H11
    by (rewrite val_one; apply Qle_refl).
  pose proof (SFmul_within _ true d mc ec Vd Vc Vt H11 Hd) as Ht.
  set (t := SFmul prec emax d _) in *. clearbody t.
  destruct (SFadd_one_within _ t Vt Vm Hc1 Ht) as (m & e & Em & Hm).
  rewrite Em in *.
  split.
  - reflexivity.
  - apply SFleb_val; [exact Vm | exact V1 | now rewrite val_one].
Qed.

(** ** The counter of the projection loop *)

Local Open Scope Q_scope.

(** Rounding a value that is a double gives that double. *)
Lemma rounded_exact m' e' m1 V mb eb :
  rounds m' e' m1 V ->
  valid_binary (rounded false m1 e') = true ->
  valid_binary (S754_finite false mb eb) = true ->
  V == val (Z.pos mb) eb ->
  rounded false m1 e' = S754_finite false mb eb.
Proof.
  intros Hr Vr Vb HV.
  destruct (rounded_sandwich m' e' m1 V mb eb Hr Vr Vb) as [Hlow Hhigh].
  assert (val (Z.pos mb) eb <= V) as H1 by (rewrite HV; apply Qle_refl).
  assert (V <= val (Z.pos mb) eb) as H2 by (rewrite HV; apply Qle_refl).
  specialize (Hlow H1). specialize (Hhigh H2).
  destruct (rounded_cases false m1 e') as [H|[(m & e & H)|H]];
    rewrite H in *; try discriminate.
  apply SFleb_finite in Hlow, Hhigh. f_equal; lia.
Qed.

(** Whole numbers up to [2^53] are doubles. *)
Lemma whole_representable k :
  (1 <= k <= 2 ^ 53)%Z ->
  exists m e, valid_binary (S754_finite false m e) = true
              /\ val (Z.pos m) e == inject_Z k.
Proof.
  intros Hk. destruct (Z.eq_dec k (2 ^ 53)) as [->|Hne].
  - exists 4503599627370496%positive, 1%Z. split; reflexivity.
  - destruct k as [|p|p]; try lia.
    set (d := Z.pos (digits2_pos p)).
    pose proof (digits2_pos_bounds p) as [Hl Hh]. fold d in Hl, Hh.
    assert (0 < d)%Z as Hd by (unfold d; lia).
    assert (d <= 53)%Z as Hd53.
    { destruct (Z_le_gt_dec d 53) as [H|H]; [exact H|]. exfalso.
      assert (2 ^ 53 <= 2 ^ (d - 1))%Z by (apply Z.pow_le_mono_r; lia).
      lia. }
    assert (0 < Z.pos p * 2 ^ (53 - d))%Z as Hpos
      by (apply Z.mul_pos_pos; [lia | apply Z.pow_pos_nonneg; lia]).
    exists (Z.to_pos (Z.pos p * 2 ^ (53 - d))), (d - 53)%Z.
    assert (Z.pos (Z.to_pos (Z.pos p * 2 ^ (53 - d)))
            = Z.pos p * 2 ^ (53 - d))%Z as Hm by (apply Z2Pos.id; exact Hpos).
    split.
    + cbn [SpecFloat.valid_binary]. unfold bounded, canonical_mantissa.
      apply andb_true_intro. split.
      * apply Z.eqb_eq.
        change (Z.pos (digits2_pos (Z.to_pos (Z.pos p * 2 ^ (53 - d)))))
          with (Zdigits2 (Z.pos (Z.to_pos (Z.pos p * 2 ^ (53 - d))))).
        rewrite Hm, digits_shift by lia. fold d. rewrite fexp_eq. lia.
      * apply Z.leb_le. unfold emax, prec. lia.
    + rewrite Hm.
      replace (d - 53)%Z with (0 - (53 - d))%Z by lia.
      rewrite <- (val_shift (Z.pos p) 0 (53 - d)) by lia.
      unfold val, pow2. change (2 ^ 0) with 1. ring.
Qed.

Lemma whole_one : whole 1%float 1.
Proof. exists 4503599627370496%positive, (-52)%Z. split; reflexivity. Qed.

(** [year++] on a whole number below [2^53] is exact. *)
Lemma whole_succ x k :
  whole x k -> (1 <= k < 2 ^ 53)%Z -> whole (x + 1)%float (k + 1).
Proof.
  intros (m & e & Hx & Hv) Hk.
  pose proof (Prim2SF_valid (x + 1)%float) as Vr.
  rewrite add_spec, Hx, Prim2SF_one in Vr. unfold SF64add in Vr.
  destruct (whole_representable (k + 1)) as (mb & eb & Vb & Hb); [lia|].
  exists mb, eb. split; [|exact Hb].
  rewrite add_spec, Hx, Prim2SF_one. unfold SF64add.
  revert Vr.
  destruct (SFadd_finite false m e false 4503599627370496 (-52)) as [HS ->].
  cbv zeta in HS. cbn [sval] in HS. rewrite val_one, Hv in HS.
  set (S := (cond_Zopp false _ + cond_Zopp false _)%Z) in *. clearbody S.
  assert (0 < inject_Z k) as Hkpos
    by (change 0 with (inject_Z 0); rewrite <- Zlt_Qlt; lia).
  assert (0 < S)%Z as HSpos.
  { destruct (Z_lt_le_dec 0 S) as [H|H]; [exact H|]. exfalso.
    assert (val S (Z.min e (-52)) <= 0).
    { unfold val. assert (inject_Z S <= 0)
        by (change 0 with (inject_Z 0); now rewrite <- Zle_Qle).
      pose proof (pow2_pos (Z.min e (-52))). nra. }
    lra. }
  destruct (binary_normalize_spec S (Z.min e (-52))) as (_ & Hp & _).
  destruct (Hp HSpos) as (m' & e' & m1 & Hr & ->). intros Vr.
  apply (rounded_exact m' e' m1 _ mb eb Hr Vr Vb).
  rewrite HS, Hb, inject_Z_plus. reflexivity.
Qed.

(** The whole part of a positive double. *)
Lemma whole_part k m e :
  inject_Z k <= val (Z.pos m) e <-> (k <= Z.shiftl (Z.pos m) e)%Z.
Proof.
  destruct (Z_le_gt_dec 0 e) as [He|He].
  - rewrite Z.shiftl_mul_pow2 by exact He.
    assert (val (Z.pos m) e == inject_Z (Z.pos m * 2 ^ e)) as ->
      by (unfold val; rewrite (pow2_Z e He), inject_Z_mult; reflexivity).
    rewrite <- Zle_Qle. tauto.
  - rewrite Z.shiftl_div_pow2 by lia.
    assert (0 < 2 ^ (- e))%Z as Hpow by (apply Z.pow_pos_nonneg; lia).
    assert (inject_Z k == val (k * 2 ^ (- e)) e) as ->.
    { assert (inject_Z k == val k 0) as ->
        by (unfold val, pow2; change (2 ^ 0) with 1; ring).
      rewrite (val_shift k 0 (- e)) by lia.
      replace (0 - - e)%Z with e by lia. reflexivity. }
    split.
    + intros H. apply val_le_inv in H.
      apply Z.div_le_lower_bound; [exact Hpow | lia].
    + intros H. apply val_le.
      pose proof (Z.mul_div_le (Z.pos m) (2 ^ (- e)) Hpow). nia.
Qed.

Lemma Prim2SF_limit :
  Prim2SF 9007199254740992 = S754_finite false 4503599627370496 1.
Proof. reflexivity. Qed.

(** The test [year <= years] of the loop, for [years] below [2^53]. *)
Lemma leb_turns x k years :
  whole x k -> (1 <= k)%Z ->
  (years <? 9007199254740992)%float = true ->
  ((x <=? years)%float = true <-> (k <= Z.of_nat (Double.turns years))%Z)
  /\ (Z.of_nat (Double.turns years) < 2 ^ 53)%Z.
Proof.
  intros (m & e & Hx & Hv) Hk Hlim.
  pose proof (Prim2SF_valid x) as Vx. rewrite Hx in Vx.
  pose proof (Prim2SF_valid years) as Vy.
  rewrite ltb_spec, Prim2SF_limit in Hlim. rewrite leb_spec, Hx.
  unfold Double.turns.
  destruct (Prim2SF years) as [s|s| |s my ey].
  - cbn. split; [split; [discriminate | lia] | lia].
  - destruct s; [|discriminate Hlim].
    cbn. split; [split; [discriminate | lia] | lia].
  - discriminate Hlim.
  - destruct s.
    + cbn. split; [split; [discriminate | lia] | lia].
    + assert (0 <= Z.shiftl (Z.pos my) ey)%Z as Hnn
        by (apply Z.shiftl_nonneg; lia).
      rewrite Z2Nat.id by exact Hnn.
      split.
      * rewrite (SFleb_val _ _ _ _ Vx Vy), Hv. apply whole_part.
      * assert (valid_binary (S754_finite false 4503599627370496 1) = true)
          as Vl by reflexivity.
        apply (SFltb_val _ _ _ _ Vy Vl) in Hlim.
        destruct (Z_lt_le_dec (Z.shiftl (Z.pos my) ey) (2 ^ 53)) as [H|H];
          [exact H|].
        exfalso. apply whole_part in H.
        assert (val 4503599627370496 1 == inject_Z (2 ^ 53)) as E
          by reflexivity.
        rewrite E in Hlim. lra.
Qed.

(** The loop ends after [turns years] turns, and an invariant of its body
    holds of what it returns. *)
Lemma for_year_ends {V : Type} (body : float -> V -> V)
    (Inv : nat -> V -> Prop) (years : float) :
  (years <? 9007199254740992)%float = true ->
  (forall j y s, Inv j s -> Inv (S j) (body y s)) ->
  forall fuel x k s,
    whole x k -> (1 <= k)%Z ->
    (Z.of_nat fuel + k = Z.of_nat (Double.turns years) + 1)%Z ->
    Inv (Z.to_nat (k - 1)) s ->
    exists v, Double.for_year fuel x years body s = Some v
              /\ Inv (Double.turns years) v.
Proof.
  intros Hlim Hstep. induction fuel as [|fuel IH]; intros x k s Hx Hk Hf Hinv.
  - destruct (leb_turns x k years Hx Hk Hlim) as [Hle _].
    exists s. cbn [Double.for_year].
    destruct (x <=? years)%float.
    + exfalso. assert (k <= Z.of_nat (Double.turns years))%Z
        by (apply Hle; reflexivity). lia.
    + split; [reflexivity|].
      replace (Double.turns years) with (Z.to_nat (k - 1)) by lia.
      exact Hinv.
  - destruct (leb_turns x k years Hx Hk Hlim) as [Hle Hbound].
    cbn [Double.for_year].
    destruct (x <=? years)%float.
    + apply (IH (x + 1)%float (k + 1)%Z).
      * apply whole_succ; [exact Hx | lia].
      * lia.
      * lia.
      * replace (Z.to_nat (k + 1 - 1)) with (S (Z.to_nat (k - 1))) by lia.
        apply Hstep. exact Hinv.
    + exfalso.
      assert (k <= Z.of_nat (Double.turns years))%Z as H by lia.
      apply Hle in H. discriminate H.
Qed.

Local Open Scope float_scope.

(** ** The two rates and the yields on binary64 *)

(** X19.  On binary64, with [phiRatio > 1] and a positive base rate, the
    hedge multiplier [1 + phiHedgeFactor * 0.15] is at least 1 and the
    hedged rate is at least the base rate: for every double [phiRatio],
    the infinite one included, every ledger, every [initialInvestment]
    and every [Math.pow]. *)
Theorem hedged_rate_not_below_base_on_doubles :
  forall (Math_pow : float -> float -> float) phiRatio cashFlows
         initialInvestment,
    (1 <? phiRatio) = true ->
    (0 <? Double.baseIRR Math_pow cashFlows initialInvestment) = true ->
    (1 <=? 1 + Double.phiHedgeFactor phiRatio * 0.15) = true
    /\ (Double.baseIRR Math_pow cashFlows initialInvestment
        <=? Double.phiHedgedIRR Math_pow phiRatio cashFlows initialInvestment)
       = true.
Proof.
  intros Math_pow phiRatio cashFlows initialInvestment Hphi Hbase.
  unfold Double.phiHedgedIRR, Double.phiHedgeFactor.
  split.
  - apply hedge_multiplier_at_least_one. exact Hphi.
  - apply mul_at_least_one; [exact Hbase|].
    apply hedge_multiplier_at_least_one. exact Hphi.
Qed.

(** X20.  On binary64, for [years] below [2^53] the projection loop ends,
    with one yearly record for each of its [turns years] turns and one
    ledger record for each yearly record, its amount the record's
    [phiAdjustedYield]; each record holds the [adjustedYield] and the
    [phiAdjustedYield] of the loop body; and with [phiRatio > 1] the
    multiplier is at most 1 and no positive [adjustedYield] is raised. *)
Theorem projection_on_doubles_never_raises_yield :
  forall (Math_pow : float -> float -> float) phiRatio cashFlows
         initialInvestment years growthRate occupancyRate,
    (years <? 9007199254740992) = true ->
    exists v,
      Double.calculateYieldProjection Math_pow phiRatio cashFlows
        initialInvestment years growthRate occupancyRate = Some v
      /\ List.length (Double.yearlyProjections v) = Double.turns years
      /\ Double.ledger v
         = (cashFlows
            ++ map (fun y =>
                      {| Double.CashFlow.year := Double.YearlyProjection.year y;
                         Double.CashFlow.amount :=
                           Double.YearlyProjection.phiAdjustedYield y |})
                 (Double.yearlyProjections v))%list
      /\ Forall (fun y =>
                   Double.YearlyProjection.adjustedYield y
                   = initialInvestment
                     * Math_pow (1 + growthRate) (Double.YearlyProjection.year y)
                     * occupancyRate
                   /\ Double.YearlyProjection.phiAdjustedYield y
                      = Double.YearlyProjection.adjustedYield y
                        * (1 + (1 / phiRatio - 1) * 0.1))
           (Double.yearlyProjections v)
      /\ ((1 <? phiRatio) = true ->
          (1 + (1 / phiRatio - 1) * 0.1 <=? 1) = true
          /\ Forall (fun y =>
                       (0 <? Double.YearlyProjection.adjustedYield y) = true ->
                       (Double.YearlyProjection.phiAdjustedYield y
                        <=? Double.YearlyProjection.adjustedYield y) = true)
               (Double.yearlyProjections v)).
Proof.
  intros Math_pow phiRatio cashFlows initialInvestment years growthRate
    occupancyRate Hlim.
  unfold Double.calculateYieldProjection.
  set (body := Double.projection_body Math_pow phiRatio initialInvestment
                 growthRate occupancyRate).
  set (flow := fun y =>
                 {| Double.CashFlow.year := Double.YearlyProjection.year y;
                    Double.CashFlow.amount :=
                      Double.YearlyProjection.phiAdjustedYield y |}).
  set (record := fun y =>
                   Double.YearlyProjection.adjustedYield y
                   = initialInvestment
                     * Math_pow (1 + growthRate) (Double.YearlyProjection.year y)
                     * occupancyRate
                   /\ Double.YearlyProjection.phiAdjustedYield y
                      = Double.YearlyProjection.adjustedYield y
                        * (1 + (1 / phiRatio - 1) * 0.1)).
  destruct (for_year_ends body
              (fun j v =>
                 List.length (Double.yearlyProjections v) = j
                 /\ Double.ledger v
                    = (cashFlows ++ map flow (Double.yearlyProjections v))%list
                 /\ Forall record (Double.yearlyProjections v))
              years Hlim) with
    (fuel := Double.turns years) (x := 1) (k := 1%Z)
    (s := {| Double.cumulativeYield := 0;
             Double.yearlyProjections := [];
             Double.ledger := cashFlows |})
    as (v & Hv & Hlen & Hledger & Hrecords).
  - intros j y s (Hlen & Hledger & Hrecords).
    unfold body, Double.projection_body, push.
    cbn [Double.yearlyProjections Double.ledger].
    split; [|split].
    + rewrite length_app, Hlen. cbn. lia.
    + rewrite Hledger, map_app, <- app_assoc. reflexivity.
    + apply Forall_app. split; [exact Hrecords|].
      constructor; [|constructor]. split; reflexivity.
  - exact whole_one.
  - lia.
  - lia.
  - cbn. split; [reflexivity|]. split; [now rewrite app_nil_r | constructor].
  - exists v. split; [exact Hv|]. split; [exact Hlen|].
    split; [exact Hledger|]. split; [exact Hrecords|].
    intros Hphi. split.
    + apply phi_multiplier_bounds. exact Hphi.
    + revert Hrecords. apply Forall_impl. intros y [_ Hy] Hpos.
      rewrite Hy.
      destruct (phi_multiplier_bounds phiRatio Hphi) as [H0 H1].
      apply mul_at_most_one; assumption.
Qed.

End RoundingToNearest.

(** * Concrete runs

    The calls of [Scenario], evaluated with the host [ExactHost]. *)

Section Runs.

Import ExactHost Scenario.

Local Open Scope string_scope.

Ltac ledger_holds_a_record :=
  let H := fresh in
  intros H; apply (f_equal (@List.length _)) in H;
  vm_compute in H; discriminate H.

(** Scenario 1 of the specification. *)
Example tenYears_then_irr :
  List.length (Engine.cashFlows afterTenYears) = 10%nat
  /\ completion_map
       (fun r => (IRRAnalysis.baseIRR r, IRRAnalysis.phiHedgedIRR r,
                  IRRAnalysis.recommendation r))
       (outcome (calculatePhiHedgedIRR t0 50000000) afterTenYears)
     = Return ("33.06%", "36.12%", "Strong Buy").
Proof. split; vm_compute; reflexivity. Qed.

(** Scenarios 2 and 3 of the specification. *)
Example ample_pool_is_validated :
  completion_map
    (fun r => (LiquidityValidation.status r,
               LiquidityValidation.recommendations r))
    (outcome (validateLiquidityMechanisms t0 ample) fresh)
  = Return ("VALIDATED", [affirmative]).
Proof. vm_compute. reflexivity. Qed.

Example short_pool_needs_attention :
  completion_map
    (fun r => (LiquidityValidation.status r,
               LiquidityValidation.recommendations r))
    (outcome (validateLiquidityMechanisms t0 short) fresh)
  = Return
      ("NEEDS_ATTENTION",
       ["Increase liquidity by $10.00M to meet requirements";
        "Liquidity below optimal range - consider asset liquidation or capital raise";
        "Adjust liquidity to align with Phi-hedged optimal ratio for risk balance"]).
Proof. vm_compute. reflexivity. Qed.

(** Scenario 4 of the specification. *)
Example fiveYears_is_viable :
  completion_map
    (fun r =>
       (NPV.formatted (Analysis.npv (ComprehensiveDCF.analysis r)),
        NPV.status (Analysis.npv (ComprehensiveDCF.analysis r)),
        NPV.discountRate (Analysis.npv (ComprehensiveDCF.analysis r)),
        ComprehensiveDCF.overallAssessment r))
    (outcome (generateComprehensiveDCF t0 t0 t0 t1 fiveYears) fresh)
  = Return
      ("$226.87M", "POSITIVE", "8%",
       {| Assessment.investmentViability := "VIABLE";
          Assessment.riskLevel := "LOW";
          Assessment.phiAlignment := "OPTIMIZED" |}).
Proof. vm_compute. reflexivity. Qed.

(** C1, at a call the code answers otherwise.  With the default
    configuration, one year at a growth of 15.392% and full occupancy gives
    a hedged rate above 0.12 (and the recommendation "Strong Buy", which
    compares that rate), yet the rate is formatted as "12.00%" and
    [riskLevel], which parses the formatted string, is MODERATE. *)
Theorem riskLevel_compares_the_formatted_rate :
  let projected :=
    engine_after
      (calculateYieldProjection t0 (projectionOrEmpty justAboveTwelve))
      fresh in
  0.12 < phiHedgedIRR (Engine.config projected) (Engine.cashFlows projected)
           (investmentOrDefault justAboveTwelve)
  /\ completion_map
       (fun r =>
          (IRRAnalysis.phiHedgedIRR
             (Analysis.irrAnalysis (ComprehensiveDCF.analysis r)),
           IRRAnalysis.recommendation
             (Analysis.irrAnalysis (ComprehensiveDCF.analysis r)),
           Assessment.riskLevel (ComprehensiveDCF.overallAssessment r)))
       (outcome (generateComprehensiveDCF t0 t0 t0 t1 justAboveTwelve) fresh)
     = Return ("12.00%", "Strong Buy", "MODERATE").
Proof. split; vm_compute; reflexivity. Qed.

(** C6 fails as stated: the same call on the same engine at two readings of
    the clock returns two different results, for each of the three
    operations. *)
Lemma timestamp_tells_calls_apart :
  outcome (calculateYieldProjection t0 tenYears) fresh
  <> outcome (calculateYieldProjection t1 tenYears) fresh
  /\ outcome (calculatePhiHedgedIRR t0 50000000) afterTenYears
     <> outcome (calculatePhiHedgedIRR t1 50000000) afterTenYears
  /\ outcome (validateLiquidityMechanisms t0 ample) fresh
     <> outcome (validateLiquidityMechanisms t1 ample) fresh.
Proof.
  split; [|split]; intros H.
  - apply (f_equal (completion_map YieldProjection.timestamp)) in H.
    vm_compute in H. discriminate H.
  - apply (f_equal (completion_map IRRAnalysis.timestamp)) in H.
    vm_compute in H. discriminate H.
  - apply (f_equal (completion_map LiquidityValidation.timestamp)) in H.
    vm_compute in H. discriminate H.
Qed.

(** ** Instances of the theorems that have hypotheses *)

Lemma project_appends_years_records_witness :
  ProjectionParams.years tenYears = Some 10%Z
  /\ (0 < 10)%Z
  /\ exists appended,
       Engine.cashFlows afterTenYears
       = (Engine.cashFlows fresh ++ appended)%list
       /\ Z.of_nat (List.length appended) = 10%Z
       /\ map CashFlow.year appended = year_range 1 (Z.to_nat 10).
Proof.
  split; [reflexivity|]. split; [reflexivity|].
  apply (proj1 project_appends_years_records); reflexivity.
Defined.

Lemma liquidity_status_consistent_witness :
  ~ field_default (LiquidityParams.totalAssetValue ample) 100000000 == 0
  /\ exists r,
       outcome (validateLiquidityMechanisms t0 ample) fresh = Return r
       /\ statusConsistent r.
Proof.
  assert (~ field_default (LiquidityParams.totalAssetValue ample) 100000000
            == 0) as Hvalue
    by (intros H; vm_compute in H; discriminate H).
  split; [exact Hvalue|].
  apply liquidity_status_consistent. exact Hvalue.
Defined.

Lemma viability_witness :
  exists r this',
    generateComprehensiveDCF t0 t0 t0 t1 fiveYears fresh = (Return r, this')
    /\ verdictFollows r.
Proof.
  destruct (proj1 (generateComprehensiveDCF_returns t0 t0 t0 t1 fiveYears
                     fresh)) as (r & this' & Hcall).
  { ledger_holds_a_record. }
  exists r, this'. split; [exact Hcall|].
  exact (viability_iff_npv_positive_and_validated _ _ _ _ _ _ _ _ Hcall).
Defined.

Lemma npv_witness :
  Engine.cashFlows fresh = []
  /\ DCFParams.projection fiveYears = Some (projection 50000000 5 0.15 0.95)
  /\ ProjectionParams.initialInvestment (projection 50000000 5 0.15 0.95)
     = Some 50000000
  /\ 0 < 50000000
  /\ exists r this',
       generateComprehensiveDCF t0 t0 t0 t1 fiveYears fresh
       = (Return r, this')
       /\ Engine.cashFlows this'
          = map cashFlow_of
              (YieldProjection.yearlyProjections
                 (Analysis.yieldProjection (ComprehensiveDCF.analysis r)))
       /\ NPV.value (Analysis.npv (ComprehensiveDCF.analysis r))
          == specNPV 0.08
               (map cashFlow_of
                  (YieldProjection.yearlyProjections
                     (Analysis.yieldProjection (ComprehensiveDCF.analysis r))))
               50000000.
Proof.
  split; [reflexivity|].
  split; [reflexivity|]. split; [reflexivity|]. split; [reflexivity|].
  destruct (proj1 (generateComprehensiveDCF_returns t0 t0 t0 t1 fiveYears
                     fresh)) as (r & this' & Hcall).
  { ledger_holds_a_record. }
  exists r, this'. split; [exact Hcall|].
  exact (npv_is_discounted_sum_less_investment t0 t0 t0 t1 fiveYears
           (projection 50000000 5 0.15 0.95) 50000000 fresh r this'
           eq_refl eq_refl eq_refl eq_refl Hcall).
Defined.

Lemma hedged_irr_witness :
  1 < Config.phiRatio (Engine.config afterTenYears)
  /\ Engine.cashFlows afterTenYears <> []
  /\ 0 < 50000000
  /\ 0 < baseIRR (Engine.cashFlows afterTenYears) 50000000
  /\ phiHedgedIRR (Engine.config afterTenYears)
       (Engine.cashFlows afterTenYears) 50000000
     = baseIRR (Engine.cashFlows afterTenYears) 50000000
       * (1 + 1 / Config.phiRatio (Engine.config afterTenYears) * 0.15)
  /\ baseIRR (Engine.cashFlows afterTenYears) 50000000
     <= phiHedgedIRR (Engine.config afterTenYears)
          (Engine.cashFlows afterTenYears) 50000000.
Proof.
  assert (1 < Config.phiRatio (Engine.config afterTenYears)) as Hphi
    by (vm_compute; reflexivity).
  assert (Engine.cashFlows afterTenYears <> []) as Hledger
    by ledger_holds_a_record.
  assert (0 < baseIRR (Engine.cashFlows afterTenYears) 50000000) as Hbase
    by (vm_compute; reflexivity).
  split; [exact Hphi|]. split; [exact Hledger|]. split; [reflexivity|].
  split; [exact Hbase|].
  exact (hedged_irr_not_below_positive_base (Engine.config afterTenYears)
           (Engine.cashFlows afterTenYears) 50000000 Hphi Hledger eq_refl
           Hbase).
Defined.

(** The first of the ten yearly records of scenario 1. *)
Lemma phi_adjustment_witness :
  1 < Config.phiRatio (Engine.config fresh)
  /\ exists r y rest,
       outcome (calculateYieldProjection t0 tenYears) fresh = Return r
       /\ YieldProjection.yearlyProjections r = y :: rest
       /\ List.length rest = 9%nat
       /\ YearlyProjection.year y = 1%Z
       /\ YearlyProjection.adjustedYield y
          = 50000000 * Math_pow (1 + 0.12) 1 * 0.92
       /\ 0 < YearlyProjection.adjustedYield y
       /\ YearlyProjection.phiAdjustedYield y
          = YearlyProjection.adjustedYield y
            * (1 + (1 / Config.phiRatio (Engine.config fresh) - 1) * 0.1)
       /\ YearlyProjection.phiAdjustedYield y
          <= YearlyProjection.adjustedYield y.
Proof.
  assert (1 < Config.phiRatio (Engine.config fresh)) as Hphi
    by (vm_compute; reflexivity).
  split; [exact Hphi|].
  destruct (phi_adjustment_never_raises_yield t0 tenYears fresh)
    as (r & Hr & Hyears & Hrecords & Hreduces).
  destruct (Hreduces Hphi) as [_ Hsmaller].
  exists r.
  destruct (YieldProjection.yearlyProjections r) as [|y rest];
    [discriminate Hyears|].
  exists y, rest. split; [exact Hr|]. split; [reflexivity|].
  simpl in Hyears. injection Hyears as Hyear Hrest.
  apply (f_equal (@List.length _)) in Hrest. rewrite length_map in Hrest.
  split; [exact Hrest|]. split; [exact Hyear|].
  apply Forall_inv in Hrecords. destruct Hrecords as (Hb & Ha & Hp & _).
  apply Forall_inv in Hsmaller.
  rewrite Hyear in Ha.
  assert (0 < YearlyProjection.adjustedYield y) as Hpositive
    by (rewrite Ha; vm_compute; reflexivity).
  split; [exact Ha|]. split; [exact Hpositive|].
  split; [exact Hp | exact (Hsmaller Hpositive)].
Defined.


End Runs.

(** * Further concrete runs *)

Section FurtherRuns.

Import ExactHost Scenario Reuse.

Local Open Scope string_scope.

Ltac holds_a_record :=
  let H := fresh in
  intros H; apply (f_equal (@List.length _)) in H;
  vm_compute in H; discriminate H.

Ltac closed_order := vm_compute; first [reflexivity | discriminate].

(** A second synthesis of scenario 4 on the same engine: the net present
    value counts the first five records again. *)
Example second_synthesis_counts_the_first :
  completion_map
    (fun r => NPV.formatted (Analysis.npv (ComprehensiveDCF.analysis r)))
    (outcome (generateComprehensiveDCF t0 t0 t0 t1 fiveYears) fresh)
  = Return "$226.87M"
  /\ completion_map
       (fun r => NPV.formatted (Analysis.npv (ComprehensiveDCF.analysis r)))
       (outcome (generateComprehensiveDCF t0 t0 t0 t1 fiveYears)
                afterFiveYears)
     = Return "$503.75M".
Proof. split; vm_compute; reflexivity. Qed.

Lemma projection_without_years_witness :
  (requestedYears noYears <= 0)%Z
  /\ exists r,
       calculateYieldProjection t0 noYears afterTenYears
       = (Return r, afterTenYears)
       /\ YieldProjection.yearlyProjections r = []
       /\ YieldProjection.totalProjectedYield r = 0.
Proof.
  assert (requestedYears noYears <= 0)%Z as Hyears by closed_order.
  split; [exact Hyears|].
  exact (projection_without_years_changes_nothing t0 noYears afterTenYears
           Hyears).
Defined.

Lemma synthesis_appends_witness :
  exists r this',
    generateComprehensiveDCF t0 t0 t0 t1 fiveYears fresh = (Return r, this')
    /\ this'
       = {| Engine.config := Engine.config fresh;
            Engine.cashFlows :=
              (Engine.cashFlows fresh
               ++ projectedRecords (Engine.config fresh)
                    (projectionOrEmpty fiveYears))%list;
            Engine.liquidityPool := 30000000 |}.
Proof.
  destruct (proj1 (generateComprehensiveDCF_returns t0 t0 t0 t1 fiveYears
                     fresh)) as (r & this' & Hcall).
  { holds_a_record. }
  exists r, this'. split; [exact Hcall|].
  exact (proj1 (synthesis_appends_and_sets_pool _ _ _ _ _ _ _ _ Hcall)).
Defined.

Lemma npv_reuse_witness :
  exists r this',
    generateComprehensiveDCF t0 t0 t0 t1 fiveYears afterFiveYears
    = (Return r, this')
    /\ NPV.value (Analysis.npv (ComprehensiveDCF.analysis r))
       == presentValue 0.08 (Engine.cashFlows afterFiveYears)
          + presentValue 0.08
              (projectedRecords (Engine.config afterFiveYears)
                 (projectionOrEmpty fiveYears))
          - investmentOrDefault fiveYears.
Proof.
  destruct (proj1 (generateComprehensiveDCF_returns t0 t0 t0 t1 fiveYears
                     afterFiveYears)) as (r & this' & Hcall).
  { holds_a_record. }
  exists r, this'. split; [exact Hcall|].
  exact (npv_counts_the_records_already_in_the_ledger _ _ _ _ _ _ _ _ Hcall).
Defined.



Lemma recommendation_witness :
  Engine.cashFlows afterTenYears <> []
  /\ 0 <= totalCashFlow (Engine.cashFlows afterTenYears)
  /\ 0 < 50000000
  /\ ~ Config.phiRatio (Engine.config afterTenYears) == 0
  /\ exists r,
       outcome (calculatePhiHedgedIRR t0 50000000) afterTenYears = Return r
       /\ (IRRAnalysis.recommendation r = "Strong Buy"
           <-> 0.12 < phiHedgedIRR (Engine.config afterTenYears)
                        (Engine.cashFlows afterTenYears) 50000000).
Proof.
  assert (Engine.cashFlows afterTenYears <> []) as Hledger
    by holds_a_record.
  assert (0 <= totalCashFlow (Engine.cashFlows afterTenYears)) as Htotal
    by closed_order.
  assert (0 < 50000000) as Hinvestment by closed_order.
  assert (~ Config.phiRatio (Engine.config afterTenYears) == 0) as Hphi
    by closed_order.
  split; [exact Hledger|]. split; [exact Htotal|].
  split; [exact Hinvestment|]. split; [exact Hphi|].
  destruct (recommendation_follows_the_hedged_rate t0 50000000 afterTenYears
              Hledger Htotal Hinvestment Hphi) as (r & Hr & Hstrong & _).
  exists r. split; [exact Hr | exact Hstrong].
Defined.

Lemma hedge_scales_witness :
  1 < Config.phiRatio (Engine.config afterTenYears)
  /\ Engine.cashFlows afterTenYears <> []
  /\ 0 < 50000000
  /\ exists r,
       outcome (calculatePhiHedgedIRR t0 50000000) afterTenYears = Return r
       /\ 0 <= IRRAnalysis.hedgeFactor r /\ IRRAnalysis.hedgeFactor r < 1.
Proof.
  assert (1 < Config.phiRatio (Engine.config afterTenYears)) as Hphi
    by closed_order.
  assert (Engine.cashFlows afterTenYears <> []) as Hledger
    by holds_a_record.
  assert (0 < 50000000) as Hinvestment by closed_order.
  split; [exact Hphi|]. split; [exact Hledger|]. split; [exact Hinvestment|].
  destruct (hedge_scales_the_base_rate t0 50000000 afterTenYears Hphi Hledger
              Hinvestment)
    as (r & Hr & Hpos & Hbelow & _).
  exists r. split; [exact Hr|]. split; [exact Hpos | exact Hbelow].
Defined.


Lemma optimal_range_message_witness :
  0 < 100000000 * 0.20
  /\ exists r,
       outcome (validateLiquidityMechanisms t0 idle) fresh = Return r
       /\ Validations.sufficientLiquidity (LiquidityValidation.validations r)
          = true
       /\ Validations.optimalRatio (LiquidityValidation.validations r) = false
       /\ In aboveOptimal (LiquidityValidation.recommendations r)
       /\ ~ In belowOptimal (LiquidityValidation.recommendations r).
Proof.
  assert (0 < 100000000 * 0.20) as Hrequired by closed_order.
  split; [exact Hrequired|].
  destruct (optimal_range_message_follows_sufficiency t0 idle fresh Hrequired)
    as (r & Hr & _ & Hone & _ & Habove).
  exists r. split; [exact Hr|].
  assert (completion_map
            (fun r =>
               (Validations.sufficientLiquidity
                  (LiquidityValidation.validations r),
                Validations.optimalRatio (LiquidityValidation.validations r)))
            (outcome (validateLiquidityMechanisms t0 idle) fresh)
          = Return (true, false)) as Hchecks
    by (vm_compute; reflexivity).
  rewrite Hr in Hchecks. cbn [completion_map] in Hchecks.
  injection Hchecks as Hsufficient Hoptimal.
  split; [exact Hsufficient|]. split; [exact Hoptimal|].
  split; [exact (Habove Hsufficient Hoptimal)|].
  intros Hbelow. exact (Hone (conj Hbelow (Habove Hsufficient Hoptimal))).
Defined.

Lemma validated_checks_witness :
  0 < 100000000
  /\ 0.05 <= 0.20
  /\ 0 < Config.phiRatio (Engine.config fresh)
  /\ 0.30 <= 0.20 * Config.phiRatio (Engine.config fresh)
  /\ exists r,
       outcome (validateLiquidityMechanisms t0 ample) fresh = Return r
       /\ (LiquidityValidation.status r = "VALIDATED"
           <-> Validations.sufficientLiquidity
                 (LiquidityValidation.validations r) = true
               /\ Validations.optimalRatio
                    (LiquidityValidation.validations r) = true).
Proof.
  assert (0 < 100000000) as Htotal by closed_order.
  assert (0.05 <= 0.20) as Hem by closed_order.
  assert (0 < Config.phiRatio (Engine.config fresh)) as Hphi by closed_order.
  assert (0.30 <= 0.20 * Config.phiRatio (Engine.config fresh)) as Halign
    by closed_order.
  split; [exact Htotal|]. split; [exact Hem|]. split; [exact Hphi|].
  split; [exact Halign|].
  destruct (validated_iff_sufficient_and_optimal t0 ample fresh Htotal Hem
              Hphi Halign) as (r & Hr & _ & _ & Hstatus).
  exists r. split; [exact Hr | exact Hstatus].
Defined.

Lemma zakat_flow_witness :
  0 <= 100000
  /\ Distribution.zakatAmount
       (ZakatFlow.distribution
          (fst (Harlem4KARRender.calculateZakatFlow t0 100000 renderer)))
     = 100000 * 0.025
  /\ 0 <= Distribution.mainAmount
            (ZakatFlow.distribution
               (fst (Harlem4KARRender.calculateZakatFlow t0 100000 renderer)))
       <= 100000.
Proof.
  assert (0 <= 100000) as Hamount by closed_order.
  split; [exact Hamount|].
  destruct (zakat_flow_splits_within_the_amount t0 100000 renderer Hamount)
    as (_ & Hzakat & _ & _ & Hmain & _).
  split; [exact Hzakat | exact Hmain].
Defined.

Lemma zakat_contributions_witness :
  Forall (fun amount => 0 <= amount) [0.1; 0.2; 0.3]
  /\ EngagementMetrics.zakatContributions
       (Renderer.engagementMetrics (zakatFlows t0 [0.1; 0.2; 0.3] renderer))
     = 0 + 0.1 * 0.025 + 0.2 * 0.025 + 0.3 * 0.025.
Proof.
  assert (Forall (fun amount => 0 <= amount) [0.1; 0.2; 0.3]) as Hamounts
    by (repeat constructor; closed_order).
  split; [exact Hamounts|].
  exact (proj1 (zakat_contributions_accumulate t0 [0.1; 0.2; 0.3] Hamounts)).
Defined.

Lemma projection_breakdown_witness :
  (0 < requestedYears tenYears)%Z
  /\ exists r,
       outcome (calculateYieldProjection t0 tenYears) fresh = Return r
       /\ List.length (YieldProjection.yearlyProjections r) = 10%nat
       /\ YieldProjection.averageAnnualYield r
          = YieldProjection.totalProjectedYield r / 10.
Proof.
  assert (0 < requestedYears tenYears)%Z as Hyears by closed_order.
  split; [exact Hyears|].
  destruct (projection_breakdown_totals t0 tenYears fresh)
    as (r & Hr & Hlength & _ & _ & _ & Haverage).
  exists r. split; [exact Hr|]. split; [exact Hlength|].
  exact (Haverage Hyears).
Defined.

(** C6 on two engines that share the ledger of scenario 1 and differ in
    their pool. *)
Lemma calls_agree_witness :
  Engine.config afterTenYears = Engine.config afterTenYearsValidated
  /\ Engine.cashFlows afterTenYears = Engine.cashFlows afterTenYearsValidated
  /\ Engine.liquidityPool afterTenYears
     <> Engine.liquidityPool afterTenYearsValidated
  /\ outcome (calculatePhiHedgedIRR t1 50000000) afterTenYearsValidated
     = completion_map (IRRAnalysis_at t1)
         (outcome (calculatePhiHedgedIRR t0 50000000) afterTenYears)
  /\ outcome (calculateYieldProjection t1 fiveMore) afterTenYearsValidated
     = completion_map (YieldProjection_at t1)
         (outcome (calculateYieldProjection t0 fiveMore) afterTenYears)
  /\ outcome (validateLiquidityMechanisms t1 short) afterTenYearsValidated
     = completion_map (LiquidityValidation_at t1)
         (outcome (validateLiquidityMechanisms t0 short) afterTenYears).
Proof.
  assert (Engine.config afterTenYears = Engine.config afterTenYearsValidated)
    as Hconfig by reflexivity.
  assert (Engine.cashFlows afterTenYears
          = Engine.cashFlows afterTenYearsValidated) as Hledger
    by reflexivity.
  split; [exact Hconfig|]. split; [exact Hledger|].
  split; [intros H; vm_compute in H; discriminate H|].
  destruct (calls_agree_up_to_timestamp t0 t1 afterTenYears
              afterTenYearsValidated Hconfig Hledger)
    as (Hprojection & Hirr & Hvalidation).
  split; [exact (proj1 (Hirr 50000000))|].
  split; [exact (proj1 (Hprojection fiveMore))
         | exact (proj1 (Hvalidation short))].
Defined.

(** Two engines of the same (empty) ledger and of different configuration
    answer the same call at the same reading differently. *)
Example configuration_tells_engines_apart :
  Engine.cashFlows fresh = Engine.cashFlows freshAtTwo
  /\ completion_map LiquidityValidation.phiLiquidityScore
       (outcome (validateLiquidityMechanisms t0 ample) fresh)
     = Return "0.4045"
  /\ completion_map LiquidityValidation.phiLiquidityScore
       (outcome (validateLiquidityMechanisms t0 ample) freshAtTwo)
     = Return "0.5000"
  /\ outcome (calculateYieldProjection t0 tenYears) fresh
     <> outcome (calculateYieldProjection t0 tenYears) freshAtTwo.
Proof.
  split; [reflexivity|]. split; [vm_compute; reflexivity|].
  split; [vm_compute; reflexivity|].
  intros H.
  apply (f_equal (completion_map YieldProjection.totalProjectedYield)) in H.
  vm_compute in H. discriminate H.
Qed.


(** Scenario 3 and a pool above the range: which of the two messages. *)
Example idle_pool_is_above_the_range :
  completion_map LiquidityValidation.recommendations
    (outcome (validateLiquidityMechanisms t0 idle) fresh)
  = Return [aboveOptimal].
Proof. vm_compute. reflexivity. Qed.

Lemma engagement_witness :
  0 <= 0.5
  /\ 0.5 < 1
  /\ EngagementMetrics.totalReach
       (Renderer.engagementMetrics
          (snd (Harlem4KARRender.engageArchitects 0.5 "uuid" culturalCenter
                  renderer)))
     = EngagementMetrics.totalReach (Renderer.engagementMetrics renderer)
       + Engagement.architectsReached
           (EngagementResult.engagement
              (fst (Harlem4KARRender.engageArchitects 0.5 "uuid"
                      culturalCenter renderer)))
  /\ EngagementMetrics.activeUsers
       (Renderer.engagementMetrics
          (snd (Harlem4KARRender.engageArchitects 0.5 "uuid" culturalCenter
                  renderer)))
     <= ARConfig.targetAudience (Renderer.config renderer).
Proof.
  assert (0 <= 0.5) as Hlow by closed_order.
  assert (0.5 < 1) as Hhigh by closed_order.
  split; [exact Hlow|]. split; [exact Hhigh|].
  destruct (engagement_keeps_active_users_within_target 0.5 "uuid"
              culturalCenter renderer Hlow Hhigh)
    as (_ & Hreach & Hcap & _).
  split; [exact Hreach | exact Hcap].
Defined.

(** The transaction of the main script: 100,000 gives 2,500 of Zakat. *)
Example zakat_of_the_main_script :
  let flow :=
    fst (Harlem4KARRender.calculateZakatFlow t0 100000 renderer) in
  Qred (Distribution.zakatAmount (ZakatFlow.distribution flow)) = 2500
  /\ Qred (Distribution.mainAmount (ZakatFlow.distribution flow)) = 97500
  /\ Qred (Beneficiaries.community
             (Distribution.beneficiaries (ZakatFlow.distribution flow)))
     = 1000.
Proof. vm_compute. repeat split. Qed.

End FurtherRuns.

(** * Runs on binary64

    The two strict orders of the specification, at calls where rounding to
    nearest takes them away. *)

Section RoundingRuns.

Import Stdlib.Floats.Floats.

Local Open Scope float_scope.

#[local] Set Warnings "-inexact-float".

(** C8 fails as stated.  With [phiRatio = 1e16], a ledger of one record of
    75 million and an investment of 50 million, the base rate is 0.5; the
    hedge factor [1 / phiRatio] is 1e-16, [1 + 1e-16 * 0.15] rounds to 1,
    and the hedged rate is the base rate itself. *)
Lemma rounding_absorbs_the_hedge :
  (1 <? Double.wide) = true
  /\ Double.oneRecord <> []
  /\ (0 <? 50000000) = true
  /\ Double.baseIRR Double.power Double.oneRecord 50000000 = 0.5
  /\ (0 <? Double.baseIRR Double.power Double.oneRecord 50000000) = true
  /\ 1 + Double.phiHedgeFactor Double.wide * 0.15 = 1
  /\ Double.phiHedgedIRR Double.power Double.wide Double.oneRecord 50000000 = 0.5
  /\ (Double.baseIRR Double.power Double.oneRecord 50000000
      <? Double.phiHedgedIRR Double.power Double.wide Double.oneRecord 50000000) = false.
Proof.
  split; [vm_compute; reflexivity|]. split; [discriminate|].
  repeat split; vm_compute; reflexivity.
Qed.

(** C9 fails as stated.  With [phiRatio] the double next above 1, the
    quotient [1 / phiRatio] is the double next below 1 but one, and
    [1 + (1 / phiRatio - 1) * 0.1] rounds to 1: the multiplier is not below
    1, and the one yearly record of a projection of 50 million over one
    year at 12% and 92% has a positive [adjustedYield] and a
    [phiAdjustedYield] equal to it. *)
Lemma rounding_absorbs_the_phi_adjustment :
  (1 <? Double.nextAboveOne) = true
  /\ 1 + (1 / Double.nextAboveOne - 1) * 0.1 = 1
  /\ (1 + (1 / Double.nextAboveOne - 1) * 0.1 <? 1) = false
  /\ exists y,
       option_map Double.yearlyProjections
         (Double.calculateYieldProjection Double.power Double.nextAboveOne [] 50000000 1
            0.12 0.92)
       = Some [y]
       /\ (0 <? Double.YearlyProjection.adjustedYield y) = true
       /\ Double.YearlyProjection.phiAdjustedYield y
          = Double.YearlyProjection.adjustedYield y
       /\ (Double.YearlyProjection.phiAdjustedYield y
           <? Double.YearlyProjection.adjustedYield y) = false.
Proof.
  split; [vm_compute; reflexivity|]. split; [vm_compute; reflexivity|].
  split; [vm_compute; reflexivity|].
  eexists. split; [vm_compute; reflexivity|].
  repeat split; vm_compute; reflexivity.
Qed.

Lemma hedged_rate_on_doubles_witness :
  (1 <? 1.618033988749895) = true
  /\ (0 <? Double.baseIRR Double.power Double.oneRecord 50000000) = true
  /\ (1 <=? 1 + Double.phiHedgeFactor 1.618033988749895 * 0.15) = true
  /\ (Double.baseIRR Double.power Double.oneRecord 50000000
      <=? Double.phiHedgedIRR Double.power 1.618033988749895
            Double.oneRecord 50000000) = true.
Proof.
  assert ((1 <? 1.618033988749895) = true) as Hphi
    by (vm_compute; reflexivity).
  assert ((0 <? Double.baseIRR Double.power Double.oneRecord 50000000)
          = true) as Hbase by (vm_compute; reflexivity).
  split; [exact Hphi|]. split; [exact Hbase|].
  exact (hedged_rate_not_below_base_on_doubles Double.power
           1.618033988749895 Double.oneRecord 50000000 Hphi Hbase).
Defined.

Lemma projection_on_doubles_witness :
  (1 <? 9007199254740992) = true
  /\ Double.turns 1 = 1%nat
  /\ exists v,
       Double.calculateYieldProjection Double.power 1.618033988749895 []
         50000000 1 0.12 0.92 = Some v
       /\ List.length (Double.yearlyProjections v) = Double.turns 1
       /\ ((1 <? 1.618033988749895) = true ->
           Forall (fun y =>
                     (0 <? Double.YearlyProjection.adjustedYield y) = true ->
                     (Double.YearlyProjection.phiAdjustedYield y
                      <=? Double.YearlyProjection.adjustedYield y) = true)
             (Double.yearlyProjections v)).
Proof.
  assert ((1 <? 9007199254740992) = true) as Hyears
    by (vm_compute; reflexivity).
  split; [exact Hyears|]. split; [vm_compute; reflexivity|].
  destruct (projection_on_doubles_never_raises_yield Double.power
              1.618033988749895 [] 50000000 1 0.12 0.92 Hyears)
    as (v & Hv & Hlen & _ & _ & Horder).
  exists v. split; [exact Hv|]. split; [exact Hlen|].
  intros Hphi. exact (proj2 (Horder Hphi)).
Defined.

End RoundingRuns.
